(** * Finite differences, regularizers, smoothers and Runge-Kutta integrators

    A shallow embedding of the numerical core of the registration code
    ([finite_differences.py], [pyreg/regularizer_factory.py],
    [pyreg/smoother_factory.py], [pyreg/rungekutta_integrators.py]).

    Conventions of the embedding:
    - floating-point numbers are read as real numbers ([R]), so every
      statement below is about exact arithmetic;
    - a dense array is its shape together with the value stored at each
      index tuple; only the values at in-range index tuples are meaningful;
    - a Python exception is a value of [exn], and a function that may raise
      returns a [result];
    - an object with mutable attributes is a record that is passed in and
      returned (explicit state passing). *)

From Stdlib Require Import String Reals List ZArith Lia Lra Bool Arith.
Import ListNotations.

Open Scope R_scope.

(** ** Exceptions and results *)

Inductive exn : Type :=
| ValueError (msg : string)
| IndexError
| NameError (name : string)
| AssertionError
| TypeError
| ExternalError (origin : string).

Inductive result (A : Type) : Type :=
| Ok (a : A)
| Raise (e : exn).

Arguments Ok {A} a.
Arguments Raise {A} e.

Definition bind {A B : Type} (c : result A) (k : A -> result B) : result B :=
  match c with
  | Ok a => k a
  | Raise e => Raise e
  end.

Declare Scope result_scope.
Delimit Scope result_scope with result.
Notation "x <- c ;; k" := (bind c (fun x => k))
  (at level 100, c at next level, right associativity) : result_scope.
Open Scope result_scope.

Definition is_ok {A : Type} (c : result A) : bool :=
  match c with Ok _ => true | Raise _ => false end.

(** [for x in xs: s = body(x, s)], stopping at the first exception. *)
Fixpoint for_each {A S : Type} (xs : list A) (body : A -> S -> result S) (s : S)
  : result S :=
  match xs with
  | [] => Ok s
  | x :: rest => s' <- body x s ;; for_each rest body s'
  end.

(** Python's [range(0, n)] for an integer [n]: empty when [n <= 0]. *)
Definition range (n : Z) : list nat := seq 0 (Z.to_nat n).

(** A Python index [k] into a sequence of length [n]: negative indices count
    from the end, anything outside [-n .. n-1] raises [IndexError]. *)
Definition norm_index (n : nat) (k : Z) : result nat :=
  if (0 <=? k)%Z then
    if (k <? Z.of_nat n)%Z then Ok (Z.to_nat k) else Raise IndexError
  else
    if (- Z.of_nat n <=? k)%Z then Ok (Z.to_nat (Z.of_nat n + k)) else Raise IndexError.

(** ** Dense arrays *)

Module NDArray.

Definition index := list nat.

Record ndarray : Type := mkArr { shape : list nat; data : index -> R }.

Definition ndim (a : ndarray) : nat := length (shape a).

Definition zeros (sz : list nat) : ndarray := mkArr sz (fun _ => 0).

Definition clone (a : ndarray) : ndarray := mkArr (shape a) (data a).

Definition axis_len (ax : nat) (a : ndarray) : nat := nth ax (shape a) 0%nat.

Definition axis_get (ax : nat) (i : index) : nat := nth ax i 0%nat.

Fixpoint axis_set (ax k : nat) (i : index) : index :=
  match i with
  | [] => []
  | j :: r => match ax with
              | O => k :: r
              | S ax' => j :: axis_set ax' k r
              end
  end.

Fixpoint insert_at (ax k : nat) (i : index) : index :=
  match ax with
  | O => k :: i
  | S ax' => match i with
             | [] => [k]
             | j :: r => j :: insert_at ax' k r
             end
  end.

Fixpoint remove_at {A : Type} (ax : nat) (i : list A) : list A :=
  match i with
  | [] => []
  | j :: r => match ax with
              | O => r
              | S ax' => j :: remove_at ax' r
              end
  end.

Fixpoint set_len (ax n : nat) (sh : list nat) : list nat :=
  match sh with
  | [] => []
  | m :: r => match ax with
              | O => n :: r
              | S ax' => m :: set_len ax' n r
              end
  end.

(** Elementwise arithmetic.  The operands met in this code always have the
    same shape (one is computed from the other), so no broadcasting is
    modelled and the result takes the shape of the left operand. *)
Definition tadd (a b : ndarray) : ndarray :=
  mkArr (shape a) (fun i => data a i + data b i).
Definition tsub (a b : ndarray) : ndarray :=
  mkArr (shape a) (fun i => data a i - data b i).
(** [c * a] *)
Definition smul (c : R) (a : ndarray) : ndarray :=
  mkArr (shape a) (fun i => c * data a i).
(** [a * c] *)
Definition tmuls (a : ndarray) (c : R) : ndarray :=
  mkArr (shape a) (fun i => data a i * c).
(** [a / c] *)
Definition tdivs (a : ndarray) (c : R) : ndarray :=
  mkArr (shape a) (fun i => data a i / c).
(** [a ** 2] *)
Definition tsquare (a : ndarray) : ndarray :=
  mkArr (shape a) (fun i => data a i ^ 2).

(** All index tuples of a shape, in row-major order. *)
Fixpoint indices (sh : list nat) : list index :=
  match sh with
  | [] => [[]]
  | n :: r => flat_map (fun k => map (cons k) (indices r)) (seq 0 n)
  end.

Definition Rsum (l : list R) : R := fold_right Rplus 0 l.

(** [a.sum()] *)
Definition tsum (a : ndarray) : R := Rsum (map (data a) (indices (shape a))).

(** [a[lo:hi]] along axis [ax], the other axes taken whole. *)
Definition slice (ax lo hi : nat) (a : ndarray) : ndarray :=
  mkArr (set_len ax (hi - lo) (shape a))
        (fun i => data a (axis_set ax (lo + axis_get ax i) i)).

(** [r[lo:hi] = s] along axis [ax]. *)
Definition assign_slice (ax lo hi : nat) (r s : ndarray) : ndarray :=
  mkArr (shape r)
        (fun i => let j := axis_get ax i in
                  if (lo <=? j)%nat && (j <? hi)%nat
                  then data s (axis_set ax (j - lo) i)
                  else data r i).

(** [a[k]] along axis [ax] for an integer [k] (possibly negative): the
    axis disappears from the result. *)
Definition select (ax : nat) (k : Z) (a : ndarray) : result ndarray :=
  j <- norm_index (axis_len ax a) k ;;
  Ok (mkArr (remove_at ax (shape a)) (fun i => data a (insert_at ax j i))).

(** [r[k] = e] along axis [ax] for an integer [k]. *)
Definition assign (ax : nat) (k : Z) (r e : ndarray) : result ndarray :=
  j <- norm_index (axis_len ax r) k ;;
  Ok (mkArr (shape r)
            (fun i => if (axis_get ax i =? j)%nat
                      then data e (remove_at ax i)
                      else data r i)).

(** [a[k, :, ..., :]] with [nfull] full slices after the integer index:
    indexing with more indices than the array has axes raises. *)
Definition select0 (nfull : nat) (k : Z) (a : ndarray) : result ndarray :=
  if (ndim a <? 1 + nfull)%nat then Raise IndexError else select 0 k a.

(** [r[k, :, ..., :] = e] *)
Definition assign0 (nfull : nat) (k : Z) (r e : ndarray) : result ndarray :=
  if (ndim r <? 1 + nfull)%nat then Raise IndexError else assign 0 k r e.

(** [i] is an index tuple of an array of shape [sh]. *)
Fixpoint in_range (sh : list nat) (i : index) : Prop :=
  match sh, i with
  | [], [] => True
  | n :: sh', k :: i' => (k < n)%nat /\ in_range sh' i'
  | _, _ => False
  end.

End NDArray.

Import NDArray.

(** ** The finite-difference engine ([finite_differences.py]) *)

Module FD.

Record FD : Type := mkFD {
  dim : nat;
  spacing : list R;
  bcNeumannZero : bool
}.

Definition unsupported_dimension : exn :=
  ValueError "Finite differences are only supported in dimensions 1 to 3".

(** [FD.__init__(spacing, bcNeumannZero=True)] *)
Definition init (sp : list R) (bc : bool) : result FD :=
  match sp with
  | [h0] => Ok (mkFD 1 [h0] bc)
  | [h0; h1] => Ok (mkFD 2 [h0; h1] bc)
  | [_; _; _] => Ok (mkFD 3 sp bc)
  | _ => Raise unsupported_dimension
  end.

(** The two backends construct the engine with the default policy. *)
Definition FD_np (sp : list R) : result FD := init sp true.
Definition FD_torch (sp : list R) : result FD := init sp true.

(** [self.spacing[k]] *)
Definition spacing_at (fd : FD) (k : nat) : result R :=
  match nth_error (spacing fd) k with
  | Some h => Ok h
  | None => Raise IndexError
  end.

(** The body shared by the branches of [xp], [yp] and [zp], for the axis
    [ax] that the branch slices:
<<
    r = zeros(shape(I)); r[0:-1] = I[1:]
    r[-1] = I[-1]  or  r[-1] = 2*I[-1] - I[-2]
>> *)
Definition shift_plus (fd : FD) (ax : nat) (I : ndarray) : result ndarray :=
  let n := axis_len ax I in
  let r := zeros (shape I) in
  let r := assign_slice ax 0 (n - 1) r (slice ax (Nat.min 1 n) n I) in
  if bcNeumannZero fd then
    e <- select ax (-1) I ;;
    assign ax (-1) r e
  else
    e1 <- select ax (-1) I ;;
    e2 <- select ax (-2) I ;;
    assign ax (-1) r (tsub (smul 2 e1) e2).

(** Likewise for [xm], [ym] and [zm]:
<<
    r = zeros(shape(I)); r[1:] = I[0:-1]
    r[0] = I[0]  or  r[0] = 2*I[0] - I[1]
>> *)
Definition shift_minus (fd : FD) (ax : nat) (I : ndarray) : result ndarray :=
  let n := axis_len ax I in
  let r := zeros (shape I) in
  let r := assign_slice ax (Nat.min 1 n) n r (slice ax 0 (n - 1) I) in
  if bcNeumannZero fd then
    e <- select ax 0 I ;;
    assign ax 0 r e
  else
    e1 <- select ax 0 I ;;
    e2 <- select ax 1 I ;;
    assign ax 0 r (tsub (smul 2 e1) e2).

Definition xp (fd : FD) (I : ndarray) : result ndarray :=
  match ndim I with
  | 1%nat => shift_plus fd 0 I
  | 2%nat => shift_plus fd 0 I
  | 3%nat => shift_plus fd 0 I
  | _ => Raise unsupported_dimension
  end.

Definition xm (fd : FD) (I : ndarray) : result ndarray :=
  match ndim I with
  | 1%nat => shift_minus fd 0 I
  | 2%nat => shift_minus fd 0 I
  | 3%nat => shift_minus fd 0 I
  | _ => Raise unsupported_dimension
  end.

Definition yp (fd : FD) (I : ndarray) : result ndarray :=
  match ndim I with
  | 2%nat => shift_plus fd 1 I
  | 3%nat => shift_plus fd 1 I
  | _ => Raise unsupported_dimension
  end.

Definition ym (fd : FD) (I : ndarray) : result ndarray :=
  match ndim I with
  | 2%nat => shift_minus fd 1 I
  | 3%nat => shift_minus fd 1 I
  | _ => Raise unsupported_dimension
  end.

Definition zp (fd : FD) (I : ndarray) : result ndarray :=
  match ndim I with
  | 3%nat => shift_plus fd 2 I
  | _ => Raise unsupported_dimension
  end.

Definition zm (fd : FD) (I : ndarray) : result ndarray :=
  match ndim I with
  | 3%nat => shift_minus fd 2 I
  | _ => Raise unsupported_dimension
  end.

(** [(I - m(I)) / spacing[k]] *)
Definition backward (fd : FD) (m : FD -> ndarray -> result ndarray) (k : nat)
           (I : ndarray) : result ndarray :=
  mI <- m fd I ;;
  h <- spacing_at fd k ;;
  Ok (tdivs (tsub I mI) h).

(** [(p(I) - I) / spacing[k]] *)
Definition forward (fd : FD) (p : FD -> ndarray -> result ndarray) (k : nat)
           (I : ndarray) : result ndarray :=
  pI <- p fd I ;;
  h <- spacing_at fd k ;;
  Ok (tdivs (tsub pI I) h).

(** [(p(I) - m(I)) / (2*spacing[k])] *)
Definition central (fd : FD) (p m : FD -> ndarray -> result ndarray) (k : nat)
           (I : ndarray) : result ndarray :=
  pI <- p fd I ;;
  mI <- m fd I ;;
  h <- spacing_at fd k ;;
  Ok (tdivs (tsub pI mI) (2 * h)).

(** [(p(I) - 2*I + m(I)) / (spacing[k]**2)] *)
Definition second_central (fd : FD) (p m : FD -> ndarray -> result ndarray)
           (k : nat) (I : ndarray) : result ndarray :=
  pI <- p fd I ;;
  mI <- m fd I ;;
  h <- spacing_at fd k ;;
  Ok (tdivs (tadd (tsub pI (smul 2 I)) mI) (h ^ 2)).

Definition dXb (fd : FD) := backward fd xm 0.
Definition dXf (fd : FD) := forward fd xp 0.
Definition dXc (fd : FD) := central fd xp xm 0.
Definition ddXc (fd : FD) := second_central fd xp xm 0.

Definition dYb (fd : FD) := backward fd ym 1.
Definition dYf (fd : FD) := forward fd yp 1.
Definition dYc (fd : FD) := central fd yp ym 1.
Definition ddYc (fd : FD) := second_central fd yp ym 1.

Definition dZb (fd : FD) := backward fd zm 2.
Definition dZf (fd : FD) := forward fd zp 2.
Definition dZc (fd : FD) := central fd zp zm 2.
Definition ddZc (fd : FD) := second_central fd zp zm 2.

Definition lap (fd : FD) (I : ndarray) : result ndarray :=
  match ndim I with
  | 1%nat => ddXc fd I
  | 2%nat =>
      a <- ddXc fd I ;;
      b <- ddYc fd I ;;
      Ok (tadd a b)
  | 3%nat =>
      a <- ddXc fd I ;;
      b <- ddYc fd I ;;
      c <- ddZc fd I ;;
      Ok (tadd (tadd a b) c)
  | _ => Raise unsupported_dimension
  end.

End FD.

(** ** The Helmholtz regularizer ([pyreg/regularizer_factory.py]) *)

Module Regularizer.

(** The entries of the parameter dictionary that the constructor reads;
    an absent entry takes the default written in the source. *)
Record params : Type := mkParams {
  p_alpha : option R;
  p_gamma : option R
}.

Definition get_default (o : option R) (d : R) : R :=
  match o with Some x => x | None => d end.

Record HelmholtzRegularizer : Type := mkReg {
  spacing : list R;
  fdt : FD.FD;
  volumeElement : R;
  dim : nat;
  alpha : R;
  gamma : R
}.

(** [spacing.prod()] *)
Definition prod (l : list R) : R := fold_right Rmult 1 l.

(** [Regularizer.__init__] followed by [HelmholtzRegularizer.__init__] *)
Definition init (sp : list R) (ps : params) : result HelmholtzRegularizer :=
  fd <- FD.FD_torch sp ;;
  Ok (mkReg sp fd (prod sp) (length sp)
            (get_default (p_alpha ps) 0.2) (get_default (p_gamma ps) 1.0)).

Definition set_alpha (a : R) (r : HelmholtzRegularizer) : HelmholtzRegularizer :=
  mkReg (spacing r) (fdt r) (volumeElement r) (dim r) a (gamma r).
Definition get_alpha (r : HelmholtzRegularizer) : R := alpha r.
Definition set_gamma (g : R) (r : HelmholtzRegularizer) : HelmholtzRegularizer :=
  mkReg (spacing r) (fdt r) (volumeElement r) (dim r) (alpha r) g.
Definition get_gamma (r : HelmholtzRegularizer) : R := gamma r.

(** One pass of the loop body, for a field with [nfull] spatial axes:
    [Lv[i,:,..] = v[i,:,..] * gamma - self.fdt.lap(v[i,:,..]) * alpha] *)
Definition assign_component (r : HelmholtzRegularizer) (nfull : nat) (a g : R)
           (v : ndarray) (i : nat) (Lv : ndarray) : result ndarray :=
  vi <- select0 nfull (Z.of_nat i) v ;;
  l <- FD.lap (fdt r) vi ;;
  assign0 nfull (Z.of_nat i) Lv (tsub (tmuls vi g) (tmuls l a)).

Definition _compute_regularizer_1d (r : HelmholtzRegularizer) (v : ndarray) (a g : R)
  : result R :=
  let Lv := zeros (shape v) in
  Lv <- assign_component r 1 a g v 0 Lv ;;
  L0 <- select0 1 0 Lv ;;
  Ok (tsum (tsquare L0) * volumeElement r).

Definition _compute_regularizer_2d (r : HelmholtzRegularizer) (v : ndarray) (a g : R)
  : result R :=
  let Lv := zeros (shape v) in
  Lv <- for_each [0%nat; 1%nat] (assign_component r 2 a g v) Lv ;;
  L0 <- select0 2 0 Lv ;;
  L1 <- select0 2 1 Lv ;;
  Ok (tsum (tadd (tsquare L0) (tsquare L1)) * volumeElement r).

Definition _compute_regularizer_3d (r : HelmholtzRegularizer) (v : ndarray) (a g : R)
  : result R :=
  let Lv := zeros (shape v) in
  Lv <- for_each [0%nat; 1%nat; 2%nat] (assign_component r 3 a g v) Lv ;;
  L0 <- select0 3 0 Lv ;;
  L1 <- select0 3 1 Lv ;;
  L2 <- select0 3 2 Lv ;;
  Ok (tsum (tadd (tadd (tsquare L0) (tsquare L1)) (tsquare L2)) * volumeElement r).

Definition _compute_regularizer (r : HelmholtzRegularizer) (v : ndarray) : result R :=
  match dim r with
  | 1%nat => _compute_regularizer_1d r v (alpha r) (gamma r)
  | 2%nat => _compute_regularizer_2d r v (alpha r) (gamma r)
  | 3%nat => _compute_regularizer_3d r v (alpha r) (gamma r)
  | _ => Raise (ValueError "Regularizer is currently only supported in dimensions 1 to 3")
  end.

(** [szv[0]] for [szv = v.size()] *)
Definition size0 (v : ndarray) : result nat :=
  match shape v with
  | n :: _ => Ok n
  | [] => Raise IndexError
  end.

(** The accumulator [reg] is a one-element tensor; it is modelled by its
    entry. *)
Definition compute_regularizer_multiN (r : HelmholtzRegularizer) (v : ndarray)
  : result R :=
  n <- size0 v ;;
  for_each (range (Z.of_nat n))
           (fun nrI reg =>
              vI <- select 0 (Z.of_nat nrI) v ;;
              x <- _compute_regularizer r vI ;;
              Ok (reg + x))
           0.

End Regularizer.

Module RegularizerFactory.

(** The entry [params['regularizer']]: the type of regularizer, absent when
    the default of the factory is to be taken, and the entries that the
    regularizer reads. *)
Record params : Type := mkParams {
  p_type : option string;
  p_regularizer : Regularizer.params
}.

Record RegularizerFactory : Type := mkFactory {
  spacing : list R;
  dim : nat;
  default_regularizer_type : string
}.

(** [RegularizerFactory.__init__(spacing)] *)
Definition init (sp : list R) : RegularizerFactory :=
  mkFactory sp (length sp) "helmholtz".

Definition set_default_regularizer_type_to_helmholtz (self : RegularizerFactory)
  : RegularizerFactory :=
  mkFactory (spacing self) (dim self) "helmholtz".

Definition create_regularizer (self : RegularizerFactory) (ps : params)
  : result Regularizer.HelmholtzRegularizer :=
  let regularizerType :=
    match p_type ps with Some t => t | None => default_regularizer_type self end in
  if String.eqb regularizerType "helmholtz"
  then Regularizer.init (spacing self) (p_regularizer ps)
  else Raise (ValueError ("Regularizer: " ++ regularizerType ++ " not known")).

End RegularizerFactory.

(** ** Smoothers ([pyreg/smoother_factory.py]) *)

(** The functions of the modules [utils] and [custom_pytorch_extensions]
    ([ce]) that the Gaussian smoothers call.  Their code is not part of the
    modelled files, so they are an interface here; each may raise. *)
Class Externals : Type := {
  ffilter : Type;
  identity_map : list Z -> result ndarray;
  compute_normalized_gaussian : ndarray -> list R -> list R -> result ndarray;
  create_complex_fourier_filter : ndarray -> list Z -> result ffilter;
  fourier_convolution : ndarray -> ffilter -> result ndarray;
  inverse_fourier_convolution : ndarray -> ffilter -> result ndarray
}.

Module Smoother.

(** The attributes set by [Smoother.__init__]. *)
Record Smoother : Type := mkSmoother {
  sz : list Z;
  spacing : list R;
  fdt : FD.FD;
  volumeElement : R;
  dim : nat
}.

Definition init (size : list Z) (sp : list R) : result Smoother :=
  fd <- FD.FD_torch sp ;;
  Ok (mkSmoother size sp fd (Regularizer.prod sp) (length sp)).

Definition inversion_unsupported : exn :=
  ValueError "Sorry: Inversion of smoothing only supported for Fourier-based filters at the moment".

(** [inverse_smooth_vector_field], for a variant whose scalar inverse is
    [inv].  The loop writes into a tensor allocated without initial
    values; it is modelled as zeros. *)
Definition inverse_smooth_vector_field (base : Smoother)
           (inv : ndarray -> result ndarray) (v : ndarray) : result ndarray :=
  if (dim base =? 1)%nat then inv v
  else
    for_each (range (Z.of_nat (dim base)))
             (fun d ISv =>
                vd <- select 0 (Z.of_nat d) v ;;
                r <- inv vd ;;
                assign 0 (Z.of_nat d) ISv r)
             (zeros (shape v)).

(** The loop shared by the field-wise methods of [Smoother]: for [k] in
    [range(n)], the result at [k] along the leading axis is [g] applied to
    the input at [k]:
<<
      for k in range(n): out[k, ...] = g(v[k, ...])
>>
    The scalar smoothing [g] is a function here: this covers the smoothers
    whose [smooth_scalar_field] changes no attribute (diffusion; the Fourier
    smoother once its filter is built). *)
Definition over_leading_axis (n : nat) (g : ndarray -> result ndarray)
           (out v : ndarray) : result ndarray :=
  for_each (range (Z.of_nat n))
           (fun k acc =>
              vk <- select 0 (Z.of_nat k) v ;;
              r <- g vk ;;
              assign 0 (Z.of_nat k) acc r)
           out.

(** [sz = I.size()] followed by [range(sz[0])]. *)
Definition leading_size (v : ndarray) : result nat :=
  match shape v with
  | n :: _ => Ok n
  | [] => Raise IndexError
  end.

(** [smooth_scalar_field_multiC] *)
Definition smooth_scalar_field_multiC (smooth : ndarray -> result ndarray)
           (I : ndarray) : result ndarray :=
  let Is := zeros (shape I) in
  n <- leading_size I ;;
  over_leading_axis n smooth Is I.

(** [smooth_scalar_field_multiNC] *)
Definition smooth_scalar_field_multiNC (smooth : ndarray -> result ndarray)
           (I : ndarray) : result ndarray :=
  let Is := zeros (shape I) in
  n <- leading_size I ;;
  over_leading_axis n (smooth_scalar_field_multiC smooth) Is I.

(** [smooth_vector_field].  The loop writes into a tensor allocated without
    initial values; it is modelled as zeros. *)
Definition smooth_vector_field (base : Smoother) (smooth : ndarray -> result ndarray)
           (v : ndarray) : result ndarray :=
  if (dim base =? 1)%nat then smooth v
  else over_leading_axis (dim base) smooth (zeros (shape v)) v.

(** [smooth_vector_field_multiN] *)
Definition smooth_vector_field_multiN (base : Smoother)
           (smooth : ndarray -> result ndarray) (v : ndarray) : result ndarray :=
  let Sv := zeros (shape v) in
  n <- leading_size v ;;
  over_leading_axis n (smooth_vector_field base smooth) Sv v.

(** [inverse_smooth_vector_field_multiN] *)
Definition inverse_smooth_vector_field_multiN (base : Smoother)
           (inv : ndarray -> result ndarray) (v : ndarray) : result ndarray :=
  let ISv := zeros (shape v) in
  n <- leading_size v ;;
  over_leading_axis n (inverse_smooth_vector_field base inv) ISv v.

(** *** Diffusion *)

Record DiffusionSmoother : Type := mkDiffusion {
  d_base : Smoother;
  iter : Z
}.

Definition diffusion_init (size : list Z) (sp : list R) (p_iter : option Z)
  : result DiffusionSmoother :=
  b <- init size sp ;;
  Ok (mkDiffusion b (match p_iter with Some n => n | None => 5%Z end)).

Definition set_iter (n : Z) (s : DiffusionSmoother) : DiffusionSmoother :=
  mkDiffusion (d_base s) n.
Definition get_iter (s : DiffusionSmoother) : Z := iter s.

(** [self.spacing.min()] *)
Definition spacing_min (sp : list R) : result R :=
  match sp with
  | [] => Raise (ValueError "zero-size array to reduction operation minimum which has no identity")
  | h :: r => Ok (fold_left Rmin r h)
  end.

(** The loop body of [DiffusionSmoother.smooth_scalar_field]:
    [Sv = Sv + 0.5/(2**self.dim)*self.fdt.lap(Sv)*self.spacing.min()**2] *)
Definition diffusion_body (s : DiffusionSmoother) (Sv : ndarray) : result ndarray :=
  l <- FD.lap (fdt (d_base s)) Sv ;;
  m <- spacing_min (spacing (d_base s)) ;;
  Ok (tadd Sv (tmuls (smul (0.5 / 2 ^ dim (d_base s)) l) (m ^ 2))).

Definition diffusion_smooth_scalar_field (s : DiffusionSmoother) (v : ndarray)
  : result ndarray :=
  let Sv := clone v in
  for_each (range (iter s * 2 ^ Z.of_nat (dim (d_base s))))
           (fun _ Sv => diffusion_body s Sv)
           Sv.

Definition diffusion_inverse_smooth_scalar_field (s : DiffusionSmoother) (v : ndarray)
  : result ndarray :=
  Raise inversion_unsupported.

Section Gaussian.

Context {ext : Externals}.

(** *** Spatial Gaussian *)

(** [k_sz], [smoothingKernel] and [required_padding] do not exist as
    attributes until [_create_filter] assigns them. *)
Record GaussianSpatialSmoother : Type := mkSpatial {
  s_base : Smoother;
  k_sz_h : option (list Z);
  filter : option ndarray;
  k_sz : option (list Z);
  smoothingKernel : option ndarray;
  required_padding : option (list Z)
}.

Definition spatial_init (size : list Z) (sp : list R) (p_k_sz_h : option (list Z))
  : result GaussianSpatialSmoother :=
  b <- init size sp ;;
  Ok (mkSpatial b p_k_sz_h None None None None).

Definition set_k_sz_h (k : option (list Z)) (s : GaussianSpatialSmoother)
  : GaussianSpatialSmoother :=
  mkSpatial (s_base s) k (filter s) (k_sz s) (smoothingKernel s) (required_padding s).
Definition get_k_sz_h (s : GaussianSpatialSmoother) : option (list Z) := k_sz_h s.

Definition _create_smoothing_kernel (s : GaussianSpatialSmoother) (k : list Z)
  : result ndarray :=
  let mus := repeat 0 (dim (s_base s)) in
  let stds := repeat 1 (dim (s_base s)) in
  id <- identity_map k ;;
  compute_normalized_gaussian id mus stds.

(** [GaussianSpatialSmoother._create_filter].  The object is returned
    together with the outcome, since the attributes assigned before an
    exception stay assigned.  The names [k_sz_h] and [sz] are read as
    plain variables there and are bound neither in the method nor in the
    module, so reading them raises [NameError]; the kernel sizes are odd,
    so the halving of [k_sz - 1] is exact. *)
Definition spatial_create_filter (s : GaussianSpatialSmoother)
  : GaussianSpatialSmoother * result unit :=
  match k_sz_h s with
  | Some _ => (s, Raise (NameError "k_sz_h"))
  | None =>
      let k := repeat (2 * 5 + 1)%Z (dim (s_base s)) in
      let s1 := mkSpatial (s_base s) (k_sz_h s) (filter s) (Some k)
                          (smoothingKernel s) (required_padding s) in
      match _create_smoothing_kernel s1 k with
      | Raise e => (s1, Raise e)
      | Ok g =>
          let s2 := mkSpatial (s_base s1) (k_sz_h s1) (filter s1) (k_sz s1)
                              (Some g) (required_padding s1) in
          let s3 := mkSpatial (s_base s2) (k_sz_h s2) (filter s2) (k_sz s2)
                              (smoothingKernel s2)
                              (Some (map (fun n => ((n - 1) / 2)%Z) k)) in
          match dim (s_base s3) with
          | 1%nat => (s3, Raise (NameError "sz"))
          | 2%nat => (s3, Raise (NameError "sz"))
          | 3%nat => (s3, Raise (NameError "sz"))
          | _ => (s3, Raise (ValueError "Can only create the smoothing kernel in dimensions 1-3"))
          end
      end
  end.

(** [_filter_input_with_padding] pads and convolves with [self.filter]
    through torch; what it computes is left open ([conv]), only the
    reads of the attributes it needs are modelled. *)
Definition _filter_input_with_padding
           (conv : ndarray -> list Z -> ndarray -> result ndarray)
           (s : GaussianSpatialSmoother) (I : ndarray) : result ndarray :=
  match dim (s_base s) with
  | 1%nat | 2%nat | 3%nat =>
      match required_padding s, filter s with
      | Some pad, Some w => conv I pad w
      | _, _ => Raise TypeError
      end
  | _ => Raise (ValueError "Can only perform padding in dimensions 1-3")
  end.

Definition spatial_smooth_scalar_field
           (conv : ndarray -> list Z -> ndarray -> result ndarray)
           (s : GaussianSpatialSmoother) (v : ndarray)
  : GaussianSpatialSmoother * result ndarray :=
  match filter s with
  | None =>
      match spatial_create_filter s with
      | (s', Raise e) => (s', Raise e)
      | (s', Ok _) => (s', _filter_input_with_padding conv s' v)
      end
  | Some _ => (s, _filter_input_with_padding conv s v)
  end.

Definition spatial_inverse_smooth_scalar_field (s : GaussianSpatialSmoother)
           (v : ndarray) : result ndarray :=
  Raise inversion_unsupported.

(** *** Fourier Gaussian *)

Record GaussianFourierSmoother : Type := mkFourier {
  f_base : Smoother;
  gaussianStd : R;
  FFilter : option ffilter
}.

Definition fourier_init (size : list Z) (sp : list R) (p_std : option R)
  : result GaussianFourierSmoother :=
  b <- init size sp ;;
  Ok (mkFourier b (match p_std with Some x => x | None => 0.15 end) None).

(** What [_create_filter] computes from the current attributes. *)
Definition build_filter (s : GaussianFourierSmoother) : result ffilter :=
  let mus := repeat 0 (dim (f_base s)) in
  let stds := map (fun one => gaussianStd s * one) (repeat 1 (dim (f_base s))) in
  id <- identity_map (sz (f_base s)) ;;
  g <- compute_normalized_gaussian id mus stds ;;
  create_complex_fourier_filter g (sz (f_base s)).

(** [GaussianFourierSmoother._create_filter] *)
Definition fourier_create_filter (s : GaussianFourierSmoother)
  : GaussianFourierSmoother * result unit :=
  match build_filter s with
  | Ok F => (mkFourier (f_base s) (gaussianStd s) (Some F), Ok tt)
  | Raise e => (s, Raise e)
  end.

Definition set_gaussian_std (gstd : R) (s : GaussianFourierSmoother)
  : GaussianFourierSmoother :=
  mkFourier (f_base s) gstd (FFilter s).
Definition get_gaussian_std (s : GaussianFourierSmoother) : R := gaussianStd s.

(** The shape shared by [smooth_scalar_field] and
    [inverse_smooth_scalar_field]: build the filter if there is none,
    then apply [op] with [self.FFilter]. *)
Definition with_filter (op : ndarray -> ffilter -> result ndarray)
           (s : GaussianFourierSmoother) (v : ndarray)
  : GaussianFourierSmoother * result ndarray :=
  match FFilter s with
  | None =>
      match fourier_create_filter s with
      | (s', Raise e) => (s', Raise e)
      | (s', Ok _) =>
          match FFilter s' with
          | Some F => (s', op v F)
          | None => (s', Raise TypeError)
          end
      end
  | Some F => (s, op v F)
  end.

Definition fourier_smooth_scalar_field := with_filter fourier_convolution.
Definition fourier_inverse_smooth_scalar_field :=
  with_filter inverse_fourier_convolution.

End Gaussian.

End Smoother.

Module SmootherFactory.

(** The entry [params['smoother']]: the type of smoother, absent when the
    default of the factory is to be taken, and the entries that the
    constructors read. *)
Record params : Type := mkParams {
  p_type : option string;
  p_iter : option Z;
  p_k_sz_h : option (list Z);
  p_gaussian_std : option R
}.

Record SmootherFactory : Type := mkFactory {
  spacing : list R;
  sz : list Z;
  dim : nat;
  default_smoother_type : string
}.

(** [SmootherFactory.__init__(sz, spacing)] *)
Definition init (size : list Z) (sp : list R) : SmootherFactory :=
  mkFactory sp size (length sp) "gaussian".

Definition set_default_smoother_type (t : string) (self : SmootherFactory)
  : SmootherFactory :=
  mkFactory (spacing self) (sz self) (dim self) t.

Definition set_default_smoother_type_to_gaussian :=
  set_default_smoother_type "gaussian".
Definition set_default_smoother_type_to_diffusion :=
  set_default_smoother_type "diffusion".
Definition set_default_smoother_type_to_gaussianSpatial :=
  set_default_smoother_type "gaussianSpatial".

Section Create.

Context {ext : Externals}.

(** What [create_smoother] returns: an object of one of the three classes. *)
Inductive smoother : Type :=
| Diffusion (s : Smoother.DiffusionSmoother)
| GaussianFourier (s : Smoother.GaussianFourierSmoother)
| GaussianSpatial (s : Smoother.GaussianSpatialSmoother).

(** [create_smoother].  The message of the last branch is built from the
    name [smootherName], which is bound neither in the method nor in the
    module, so that branch raises [NameError] before any [ValueError] is
    made. *)
Definition create_smoother (self : SmootherFactory) (ps : params) : result smoother :=
  let smootherType :=
    match p_type ps with Some t => t | None => default_smoother_type self end in
  if String.eqb smootherType "diffusion" then
    s <- Smoother.diffusion_init (sz self) (spacing self) (p_iter ps) ;;
    Ok (Diffusion s)
  else if String.eqb smootherType "gaussian" then
    s <- Smoother.fourier_init (sz self) (spacing self) (p_gaussian_std ps) ;;
    Ok (GaussianFourier s)
  else if String.eqb smootherType "gaussianSpatial" then
    s <- Smoother.spatial_init (sz self) (spacing self) (p_k_sz_h ps) ;;
    Ok (GaussianSpatial s)
  else Raise (NameError "smootherName").

End Create.

End SmootherFactory.

(** ** Runge-Kutta integrators ([pyreg/rungekutta_integrators.py]) *)

(** What the integrators ask of an element of the state list: [a + b],
    [a * v] and [a / v] for a number [v], with the laws of elementwise
    arithmetic over the reals. *)
Class StateElem (E : Type) : Type := {
  eadd : E -> E -> E;
  emuls : E -> R -> E;
  edivs : E -> R -> E;
  eadd_assoc : forall a b c, eadd (eadd a b) c = eadd a (eadd b c);
  emuls_emuls : forall a c d, emuls (emuls a c) d = emuls a (c * d);
  emuls_eadd : forall a b c, emuls (eadd a b) c = eadd (emuls a c) (emuls b c);
  edivs_emuls : forall a c, edivs a c = emuls a (/ c)
}.

#[export] Instance StateElem_R : StateElem R.
Proof.
  refine {| eadd := Rplus; emuls := Rmult; edivs := Rdiv |}; intros; unfold Rdiv; ring.
Defined.

(** [numpy.linspace(start, stop, num)] with the end point included, in exact
    arithmetic: [num] samples [start + i*step], the last one set to [stop]. *)
Definition linspace (start stop : R) (num : Z) : result (list R) :=
  if (num <? 0)%Z then Raise (ValueError "Number of samples must be non-negative")
  else
    let n := Z.to_nat num in
    let step := (stop - start) / INR (n - 1) in
    let y := map (fun i => INR i * step + start) (seq 0 n) in
    Ok (if (1 <? n)%nat then removelast y ++ [stop] else y).

(** [l[k]] for a list and a natural index. *)
Definition list_get {A : Type} (l : list A) (k : nat) : result A :=
  match nth_error l k with
  | Some a => Ok a
  | None => Raise IndexError
  end.

Module RK.

Section Integrator.

Context {E : Type} {SE : StateElem E}.
(** The types of the control value and of the parameter object. *)
Context {U P : Type}.

(** The argument [x] as Python sees it: a list, or another sequence. *)
Inductive pyseq : Type :=
| PyList (l : list E)
| PyTuple (l : list E).

Definition items (x : pyseq) : list E :=
  match x with PyList l => l | PyTuple l => l end.

(** A value that is [[]] when the caller passed [None]. *)
Inductive defaulted (A : Type) : Type :=
| EmptyList
| Given (a : A).

Record RKIntegrator : Type := mkRK {
  nrOfTimeSteps : Z;
  f : R -> pyseq -> defaulted U -> defaulted P -> list E;
  pars : defaulted P;
  u : R -> defaulted P -> defaulted U
}.

(** [RKIntegrator.__init__(f, u, pars, params)] *)
Definition init (rhs : R -> pyseq -> defaulted U -> defaulted P -> list E)
           (ctl : option (R -> defaulted P -> defaulted U))
           (ps : option P) (number_of_time_steps : option Z) : RKIntegrator :=
  mkRK (match number_of_time_steps with Some n => n | None => 10%Z end)
       rhs
       (match ps with None => EmptyList P | Some p => Given P p end)
       (match ctl with None => fun _ _ => EmptyList U | Some c => c end).

Definition set_number_of_time_steps (nr : Z) (self : RKIntegrator) : RKIntegrator :=
  mkRK nr (f self) (pars self) (u self).
Definition get_number_of_time_steps (self : RKIntegrator) : Z := nrOfTimeSteps self.

(** [[a+b*v for a,b in zip(x,y)]] *)
Definition xpyts (x y : list E) (v : R) : list E :=
  map (fun ab => eadd (fst ab) (emuls (snd ab) v)) (combine x y).

(** [[a*v for a in x]] *)
Definition xts (x : list E) (v : R) : list E :=
  map (fun a => emuls a v) x.

(** [[a+b for a,b in zip(x,y)]] *)
Definition xpy (x y : list E) : list E :=
  map (fun ab => eadd (fst ab) (snd ab)) (combine x y).

(** [RKIntegrator.solve], for the [solve_one_step] of the subclass. *)
Definition solve (solve_one_step : RKIntegrator -> pyseq -> R -> R -> result (list E))
           (self : RKIntegrator) (x : pyseq) (fromT toT : R) : result pyseq :=
  match x with
  | PyTuple _ => Raise AssertionError
  | PyList _ =>
      timepoints <- linspace fromT toT (nrOfTimeSteps self + 1) ;;
      t1 <- list_get timepoints 1 ;;
      t0 <- list_get timepoints 0 ;;
      let dt := t1 - t0 in
      st <- for_each (range (nrOfTimeSteps self))
                     (fun _ (st : pyseq * R) =>
                        x' <- solve_one_step self (fst st) (snd st) dt ;;
                        Ok (PyList x', snd st + dt))
                     (x, fromT) ;;
      Ok (fst st)
  end.

Definition EulerForward_solve_one_step (self : RKIntegrator) (x : pyseq) (t dt : R)
  : result (list E) :=
  Ok (xpyts (items x) (f self t x (u self t (pars self)) (pars self)) dt).

Definition RK4_solve_one_step (self : RKIntegrator) (x : pyseq) (t dt : R)
  : result (list E) :=
  let k1 := xts (f self t x (u self t (pars self)) (pars self)) dt in
  let k2 := xts (f self (t + 0.5 * dt) (PyList (xpyts (items x) k1 0.5))
                   (u self (t + 0.5 * dt) (pars self)) (pars self)) dt in
  let k3 := xts (f self (t + 0.5 * dt) (PyList (xpyts (items x) k2 0.5))
                   (u self (t + 0.5 * dt) (pars self)) (pars self)) dt in
  let k4 := xts (f self (t + dt) (PyList (xpy (items x) k3))
                   (u self (t + dt) (pars self)) (pars self)) dt in
  for_each (seq 0 (length (items x)))
           (fun i xp1 =>
              xi <- list_get (items x) i ;;
              a <- list_get k1 i ;;
              b <- list_get k2 i ;;
              c <- list_get k3 i ;;
              d <- list_get k4 i ;;
              Ok (xp1 ++ [eadd (eadd (eadd (eadd xi (edivs a 6)) (edivs b 3))
                                     (edivs c 3)) (edivs d 6)]))
           [].

Definition EulerForward_solve := solve EulerForward_solve_one_step.
Definition RK4_solve := solve RK4_solve_one_step.

End Integrator.

End RK.

(** ** Vocabulary of the statements *)

(** The axes of a grid, and the operators of the engine by axis. *)
Inductive axis : Type := AxisX | AxisY | AxisZ.

Definition axis_index (a : axis) : nat :=
  match a with AxisX => 0%nat | AxisY => 1%nat | AxisZ => 2%nat end.

Definition shift_p (fd : FD.FD) (a : axis) : ndarray -> result ndarray :=
  match a with AxisX => FD.xp fd | AxisY => FD.yp fd | AxisZ => FD.zp fd end.

Definition shift_m (fd : FD.FD) (a : axis) : ndarray -> result ndarray :=
  match a with AxisX => FD.xm fd | AxisY => FD.ym fd | AxisZ => FD.zm fd end.

Definition diff_b (fd : FD.FD) (a : axis) : ndarray -> result ndarray :=
  match a with AxisX => FD.dXb fd | AxisY => FD.dYb fd | AxisZ => FD.dZb fd end.

Definition diff_f (fd : FD.FD) (a : axis) : ndarray -> result ndarray :=
  match a with AxisX => FD.dXf fd | AxisY => FD.dYf fd | AxisZ => FD.dZf fd end.

Definition diff_c (fd : FD.FD) (a : axis) : ndarray -> result ndarray :=
  match a with AxisX => FD.dXc fd | AxisY => FD.dYc fd | AxisZ => FD.dZc fd end.

(** The edge along axis [ax] exists (and, for extrapolation, its neighbour
    too). *)
Definition edge_ok (fd : FD.FD) (ax : nat) (I : ndarray) : Prop :=
  if FD.bcNeumannZero fd then (1 <= axis_len ax I)%nat else (2 <= axis_len ax I)%nat.

(** [v[k, ...]]: the sub-array at position [k] of the leading axis. *)
Definition component (k : nat) (v : ndarray) : ndarray :=
  mkArr (tl (shape v)) (fun i => data v (k :: i)).

(** The array that the engine's Laplacian returns. *)
Definition lap_of (fd : FD.FD) (I : ndarray) : ndarray :=
  match FD.lap fd I with
  | Ok L => L
  | Raise _ => zeros (shape I)
  end.

(** The regularizer as the specification words it: [Lv = gamma*v - alpha*lap(v)]
    for each component, the sum over the components of the summed squares of
    [Lv], times the volume element [prod(spacing)]. *)
Definition spec_Lv (reg : Regularizer.HelmholtzRegularizer) (vc : ndarray) : ndarray :=
  tsub (smul (Regularizer.gamma reg) vc)
       (smul (Regularizer.alpha reg) (lap_of (Regularizer.fdt reg) vc)).

Definition spec_regularizer (reg : Regularizer.HelmholtzRegularizer) (v : ndarray) : R :=
  Rsum (map (fun c => tsum (tsquare (spec_Lv reg (component c v))))
            (seq 0 (Regularizer.dim reg)))
  * Regularizer.prod (Regularizer.spacing reg).

(** The diffusion update as the specification words it, for the smallest
    grid spacing [m]: [v <- v + (0.5 / 2^dim) * lap(v) * m^2]. *)
Definition spec_diffusion_update (fd : FD.FD) (dim : nat) (m : R) (v : ndarray)
  : ndarray :=
  tadd v (tmuls (smul (0.5 / 2 ^ dim) (lap_of fd v)) (m ^ 2)).

(** [m] is the smallest entry of [sp]. *)
Definition is_min (m : R) (sp : list R) : Prop :=
  In m sp /\ forall h, In h sp -> m <= h.

(** Sequences of calls on a Gaussian smoother, and the object they leave. *)
Section Calls.

Context {ext : Externals}.
Variable conv : ndarray -> list Z -> ndarray -> result ndarray.

Inductive fourier_call : Type :=
| FSmooth (v : ndarray)
| FInverseSmooth (v : ndarray)
| FSetStd (gstd : R).

Definition fourier_step (s : Smoother.GaussianFourierSmoother) (c : fourier_call)
  : Smoother.GaussianFourierSmoother :=
  match c with
  | FSmooth v => fst (Smoother.fourier_smooth_scalar_field s v)
  | FInverseSmooth v => fst (Smoother.fourier_inverse_smooth_scalar_field s v)
  | FSetStd g => Smoother.set_gaussian_std g s
  end.

Definition fourier_run (s : Smoother.GaussianFourierSmoother) (cs : list fourier_call)
  : Smoother.GaussianFourierSmoother :=
  fold_left fourier_step cs s.

Inductive spatial_call : Type :=
| SSmooth (v : ndarray)
| SSetHalfWidth (k : option (list Z)).

Definition spatial_step (s : Smoother.GaussianSpatialSmoother) (c : spatial_call)
  : Smoother.GaussianSpatialSmoother :=
  match c with
  | SSmooth v => fst (Smoother.spatial_smooth_scalar_field conv s v)
  | SSetHalfWidth k => Smoother.set_k_sz_h k s
  end.

Definition spatial_run (s : Smoother.GaussianSpatialSmoother) (cs : list spatial_call)
  : Smoother.GaussianSpatialSmoother :=
  fold_left spatial_step cs s.

End Calls.

(** A stand-in for the external functions in examples: the filter is the
    standard deviation it was built from, and convolution scales by it. *)
#[local] Instance toy_externals : Externals := {|
  ffilter := R;
  identity_map := fun _ => Ok (zeros []);
  compute_normalized_gaussian := fun _ _ stds => Ok (mkArr [] (fun _ => hd 0 stds));
  create_complex_fourier_filter := fun g _ => Ok (data g []);
  fourier_convolution := fun v F => Ok (smul F v);
  inverse_fourier_convolution := fun v F => Ok (tdivs v F)
|}.

(** The integrators as the specification words them: arithmetic on state
    lists is elementwise, a step of the classical four-stage method, a step
    of the forward Euler method, and [n] steps of size [dt] from [fromT],
    step [k] being taken at time [fromT + k*dt]. *)
Section IntegratorSpec.

Context {E : Type} {SE : StateElem E} {U P : Type}.
Variable self : @RK.RKIntegrator E U P.

Definition ladd (x y : list E) : list E :=
  map (fun ab => eadd (fst ab) (snd ab)) (combine x y).

Definition lscale (c : R) (x : list E) : list E :=
  map (fun a => emuls a c) x.

(** [f(t, x, u(t, pars), pars)] *)
Definition rhs (t : R) (x : list E) : list E :=
  RK.f self t (RK.PyList x) (RK.u self t (RK.pars self)) (RK.pars self).

Definition spec_euler_step (x : list E) (t dt : R) : list E :=
  ladd x (lscale dt (rhs t x)).

Definition spec_rk4_step (x : list E) (t dt : R) : list E :=
  let k1 := rhs t x in
  let k2 := rhs (t + dt / 2) (ladd x (lscale (dt / 2) k1)) in
  let k3 := rhs (t + dt / 2) (ladd x (lscale (dt / 2) k2)) in
  let k4 := rhs (t + dt) (ladd x (lscale dt k3)) in
  ladd x (lscale (dt / 6) (ladd (ladd (ladd k1 (lscale 2 k2)) (lscale 2 k3)) k4)).

Fixpoint spec_steps (step : list E -> R -> R -> list E) (n : nat)
         (x : list E) (fromT dt : R) : list E :=
  match n with
  | O => x
  | S k => step (spec_steps step k x fromT dt) (fromT + INR k * dt) dt
  end.

Definition spec_solve (step : list E -> R -> R -> list E)
           (x : list E) (fromT toT : R) : list E :=
  let N := RK.nrOfTimeSteps self in
  spec_steps step (Z.to_nat N) x fromT ((toT - fromT) / IZR N).

(** The right-hand side returns one derivative per element of the state. *)
Definition rhs_keeps_arity : Prop :=
  forall t y c p, length (RK.f self t y c p) = length (RK.items y).

End IntegratorSpec.

(** ** Inputs of the examples *)

(** A 2 x 3 ramp, [I[i,j] = 10*i + j], and a three-point field. *)
Definition ramp23 : ndarray :=
  mkArr [2%nat; 3%nat] (fun i => 10 * INR (nth 0 i 0%nat) + INR (nth 1 i 0%nat)).

Definition squares3 : ndarray :=
  mkArr [3%nat] (fun i => INR (nth 0 i 0%nat) * INR (nth 0 i 0%nat)).

(** A one-dimensional field [0, 1, 4] and a batch holding it twice. *)
Definition field13 : ndarray :=
  mkArr [1%nat; 3%nat] (fun i => INR (nth 1 i 0%nat) * INR (nth 1 i 0%nat)).

Definition batch213 : ndarray :=
  mkArr [2%nat; 1%nat; 3%nat] (fun i => INR (nth 2 i 0%nat) * INR (nth 2 i 0%nat)).

Definition reg1 : Regularizer.HelmholtzRegularizer :=
  Regularizer.mkReg [1] (FD.mkFD 1 [1] true) (Regularizer.prod [1]) 1 0.2 1.0.

(** Smoothers for a grid of three points with unit spacing. *)
Definition diffusion1 : Smoother.DiffusionSmoother :=
  Smoother.mkDiffusion
    (Smoother.mkSmoother [3%Z] [1] (FD.mkFD 1 [1] true) (Regularizer.prod [1]) 1) 1.

Definition fourier1 : Smoother.GaussianFourierSmoother :=
  Smoother.mkFourier
    (Smoother.mkSmoother [3%Z] [1] (FD.mkFD 1 [1] true) (Regularizer.prod [1]) 1)
    0.15 None.

Definition spatial1 : Smoother.GaussianSpatialSmoother :=
  Smoother.mkSpatial
    (Smoother.mkSmoother [3%Z] [1] (FD.mkFD 1 [1] true) (Regularizer.prod [1]) 1)
    None None None None None.

(** The decay equation [dx/dt = -x] on a one-element state, without control
    input or parameters, integrated in [N] steps. *)
Definition decay (N : Z) : @RK.RKIntegrator R unit unit :=
  RK.init (fun _ x _ _ => map Ropp (RK.items x)) None None (Some N).

(** ** Values of the shifts and of the differences *)

(** The value of the forward shift along [ax] at index [i], for an axis of
    length [n] and a field with values [d]: the next value along the axis,
    and at the last coordinate the boundary rule. *)
Definition plus_val (bc : bool) (ax n : nat) (d : index -> R) (i : index) : R :=
  let j := axis_get ax i in
  if (j =? n - 1)%nat then
    if bc then d i else 2 * d i - d (axis_set ax (n - 2) i)
  else if (j <? n - 1)%nat then d (axis_set ax (S j) i)
  else 0.

(** Likewise for the backward shift: the previous value along the axis, and
    at the first coordinate the boundary rule. *)
Definition minus_val (bc : bool) (ax n : nat) (d : index -> R) (i : index) : R :=
  let j := axis_get ax i in
  if (j =? 0)%nat then
    if bc then d i else 2 * d i - d (axis_set ax 1 i)
  else if (j <? n)%nat then d (axis_set ax (j - 1) i)
  else 0.

(** The second central difference along [ax] at index [i]. *)
Definition dd_val (fd : FD.FD) (I : ndarray) (ax : nat) (i : index) : R :=
  (plus_val (FD.bcNeumannZero fd) ax (axis_len ax I) (data I) i
   - 2 * data I i
   + minus_val (FD.bcNeumannZero fd) ax (axis_len ax I) (data I) i)
  / (nth ax (FD.spacing fd) 0) ^ 2.

(** The Laplacian at index [i]: the sum over the axes of the field. *)
Definition lap_val (fd : FD.FD) (I : ndarray) (i : index) : R :=
  match ndim I with
  | 1%nat => dd_val fd I 0 i
  | 2%nat => dd_val fd I 0 i + dd_val fd I 1 i
  | 3%nat => dd_val fd I 0 i + dd_val fd I 1 i + dd_val fd I 2 i
  | _ => 0
  end.

(** A field with the same value everywhere. *)
Definition constant_on (I : ndarray) (c : R) : Prop :=
  forall i, data I i = c.

(** The second central difference, by axis. *)
Definition diff_cc (fd : FD.FD) (a : axis) : ndarray -> result ndarray :=
  match a with AxisX => FD.ddXc fd | AxisY => FD.ddYc fd | AxisZ => FD.ddZc fd end.

(** [a*I + b*J] *)
Definition lincomb (a : R) (I : ndarray) (b : R) (J : ndarray) : ndarray :=
  tadd (smul a I) (smul b J).

(** The Laplacian is defined on [I]: the field has one to three axes, the
    engine has a spacing for each of them, and every axis has the edge that
    the boundary rule reads. *)
Definition lap_defined (fd : FD.FD) (I : ndarray) : Prop :=
  (1 <= ndim I <= 3)%nat /\ (ndim I <= length (FD.spacing fd))%nat /\
  forall ax, (ax < ndim I)%nat -> edge_ok fd ax I.

(** Every value of [u] on the grid of shape [sh] is at most [M] in absolute
    value. *)
Definition bounded_on (sh : list nat) (u : ndarray) (M : R) : Prop :=
  forall i, in_range sh i -> Rabs (data u i) <= M.

(** The linear equation [dx/dt = lam * x], componentwise on a state of
    numbers, without control input or parameters, integrated in [N] steps. *)
Definition linear_ode (lam : R) (N : Z) : @RK.RKIntegrator R unit unit :=
  RK.init (fun _ x _ _ => map (Rmult lam) (RK.items x)) None None (Some N).

(** The factor by which one RK4 step of [dx/dt = lam*x] multiplies the
    state, for [z = lam*dt]: the Taylor polynomial of degree four of the
    exponential. *)
Definition rk4_factor (z : R) : R :=
  1 + z + z ^ 2 / 2 + z ^ 3 / 6 + z ^ 4 / 24.

(** The field changes by [s] from each cell to the next along axis [ax]. *)
Definition affine_along (ax : nat) (I : ndarray) (s : R) : Prop :=
  forall i k, (ax < length i)%nat ->
              data I (axis_set ax k i) = data I (axis_set ax 0 i) + s * INR k.

(** * Properties *)

(** ** Index arithmetic *)

Lemma norm_index_nonneg (n : nat) (k : nat) :
  (k < n)%nat -> norm_index n (Z.of_nat k) = Ok k.
Proof.
  intros Hk. unfold norm_index.
  destruct (Z.leb_spec 0 (Z.of_nat k)); [|lia].
  destruct (Z.ltb_spec (Z.of_nat k) (Z.of_nat n)); [|lia].
  now rewrite Nat2Z.id.
Qed.

Lemma norm_index_from_end (n : nat) (k : nat) :
  (1 <= k <= n)%nat -> norm_index n (- Z.of_nat k) = Ok (n - k)%nat.
Proof.
  intros Hk. unfold norm_index.
  destruct (Z.leb_spec 0 (- Z.of_nat k)); [lia|].
  destruct (Z.leb_spec (- Z.of_nat n) (- Z.of_nat k)); [|lia].
  f_equal. lia.
Qed.

Lemma norm_index_out (n : nat) (k : nat) :
  (n <= k)%nat -> norm_index n (Z.of_nat k) = Raise IndexError.
Proof.
  intros Hk. unfold norm_index.
  destruct (Z.leb_spec 0 (Z.of_nat k)); [|lia].
  destruct (Z.ltb_spec (Z.of_nat k) (Z.of_nat n)); [lia|reflexivity].
Qed.

Lemma insert_remove_at (ax k : nat) (i : index) :
  (ax < length i)%nat -> insert_at ax k (remove_at ax i) = axis_set ax k i.
Proof.
  revert i. induction ax as [|ax IH]; intros [|j r] H; simpl in *; try lia; auto.
  destruct r as [|j' r']; simpl in *; try lia.
  f_equal. apply (IH (j' :: r')). simpl. lia.
Qed.

Lemma axis_set_same (ax : nat) (i : index) :
  axis_set ax (axis_get ax i) i = i.
Proof.
  unfold axis_get. revert ax. induction i as [|j r IH]; intros [|ax]; simpl; auto.
  now rewrite IH.
Qed.

Lemma axis_set_twice (ax k k' : nat) (i : index) :
  axis_set ax k (axis_set ax k' i) = axis_set ax k i.
Proof.
  revert ax. induction i as [|j r IH]; intros [|ax]; simpl; auto.
  now rewrite IH.
Qed.

Lemma axis_get_set (ax k : nat) (i : index) :
  (ax < length i)%nat -> axis_get ax (axis_set ax k i) = k.
Proof.
  unfold axis_get. revert ax. induction i as [|j r IH]; intros [|ax] H; simpl in *; try lia; auto.
  apply IH. lia.
Qed.

Lemma in_range_length (sh : list nat) (i : index) :
  in_range sh i -> length i = length sh.
Proof.
  revert i. induction sh as [|n sh IH]; intros [|k i] H; simpl in *; try tauto.
  f_equal. apply IH. tauto.
Qed.

Lemma in_range_axis (sh : list nat) (i : index) (ax : nat) :
  in_range sh i -> (ax < length sh)%nat -> (nth ax i 0 < nth ax sh 0)%nat.
Proof.
  revert i ax. induction sh as [|n sh IH]; intros [|k i] ax H Hax; simpl in *; try tauto; try lia.
  destruct ax as [|ax]; [tauto|]. apply IH; [tauto|lia].
Qed.

(** ** The shifted arrays *)

Section ShiftFacts.

Variable fd : FD.FD.
Variable ax : nat.
Variable I : ndarray.

Let n := axis_len ax I.

Lemma shift_plus_ok :
  edge_ok fd ax I -> exists r, FD.shift_plus fd ax I = Ok r /\ shape r = shape I.
Proof.
  unfold edge_ok, FD.shift_plus, select, assign. fold n. intros H.
  set (r0 := assign_slice ax 0 (n - 1) (zeros (shape I)) (slice ax (Nat.min 1 n) n I)).
  change (axis_len ax r0) with n.
  destruct (FD.bcNeumannZero fd).
  - change (-1)%Z with (- Z.of_nat 1)%Z.
    rewrite norm_index_from_end by lia. simpl. eauto.
  - change (-1)%Z with (- Z.of_nat 1)%Z. change (-2)%Z with (- Z.of_nat 2)%Z.
    rewrite !norm_index_from_end by lia. simpl. eauto.
Qed.

Lemma shift_minus_ok :
  edge_ok fd ax I -> exists r, FD.shift_minus fd ax I = Ok r /\ shape r = shape I.
Proof.
  unfold edge_ok, FD.shift_minus, select, assign. fold n. intros H.
  set (r0 := assign_slice ax (Nat.min 1 n) n (zeros (shape I)) (slice ax 0 (n - 1) I)).
  change (axis_len ax r0) with n.
  destruct (FD.bcNeumannZero fd).
  - change 0%Z with (Z.of_nat 0).
    rewrite norm_index_nonneg by lia. simpl. eauto.
  - change 0%Z with (Z.of_nat 0). change 1%Z with (Z.of_nat 1).
    rewrite !norm_index_nonneg by lia. simpl. eauto.
Qed.

(** The value at the upper edge of the forward shift. *)
Lemma shift_plus_edge (r : ndarray) (i : index) :
  FD.shift_plus fd ax I = Ok r ->
  (ax < length i)%nat -> axis_get ax i = (n - 1)%nat ->
  data r i = if FD.bcNeumannZero fd then data I i
             else 2 * data I i - data I (axis_set ax (n - 2) i).
Proof.
  unfold FD.shift_plus, select, assign. fold n.
  set (r0 := assign_slice ax 0 (n - 1) (zeros (shape I)) (slice ax (Nat.min 1 n) n I)).
  change (axis_len ax r0) with n.
  intros Hr Hax Hi.
  destruct (FD.bcNeumannZero fd).
  - destruct (le_lt_dec 1 n) as [Hn|Hn].
    + change (-1)%Z with (- Z.of_nat 1)%Z in Hr.
      rewrite norm_index_from_end in Hr by lia. simpl in Hr.
      injection Hr as <-. simpl. rewrite Hi, Nat.eqb_refl.
      rewrite insert_remove_at by assumption. rewrite <- Hi. now rewrite axis_set_same.
    + exfalso. unfold norm_index in Hr. simpl in Hr.
      destruct (Z.leb_spec (- Z.of_nat n) (-1)); [lia|]. discriminate.
  - destruct (le_lt_dec 2 n) as [Hn|Hn].
    + change (-1)%Z with (- Z.of_nat 1)%Z in Hr. change (-2)%Z with (- Z.of_nat 2)%Z in Hr.
      rewrite !norm_index_from_end in Hr by lia. simpl in Hr.
      injection Hr as <-. simpl. rewrite Hi, Nat.eqb_refl.
      rewrite !insert_remove_at by assumption.
      rewrite <- Hi at 1. now rewrite axis_set_same.
    + exfalso. unfold norm_index in Hr. simpl in Hr.
      destruct (Z.leb_spec (- Z.of_nat n) (-1)); [|discriminate].
      destruct (Z.leb_spec (- Z.of_nat n) (-2)); [lia|]. discriminate.
Qed.

(** The value at the lower edge of the backward shift. *)
Lemma shift_minus_edge (r : ndarray) (i : index) :
  FD.shift_minus fd ax I = Ok r ->
  (ax < length i)%nat -> axis_get ax i = 0%nat ->
  data r i = if FD.bcNeumannZero fd then data I i
             else 2 * data I i - data I (axis_set ax 1 i).
Proof.
  unfold FD.shift_minus, select, assign. fold n.
  set (r0 := assign_slice ax (Nat.min 1 n) n (zeros (shape I)) (slice ax 0 (n - 1) I)).
  change (axis_len ax r0) with n.
  intros Hr Hax Hi.
  destruct (FD.bcNeumannZero fd).
  - destruct (le_lt_dec 1 n) as [Hn|Hn].
    + change 0%Z with (Z.of_nat 0) in Hr.
      rewrite norm_index_nonneg in Hr by lia. simpl in Hr.
      injection Hr as <-. simpl. rewrite Hi. simpl.
      rewrite insert_remove_at by assumption. rewrite <- Hi. now rewrite axis_set_same.
    + exfalso. change 0%Z with (Z.of_nat 0) in Hr.
      rewrite norm_index_out in Hr by lia. discriminate.
  - destruct (le_lt_dec 2 n) as [Hn|Hn].
    + change 0%Z with (Z.of_nat 0) in Hr. change 1%Z with (Z.of_nat 1) in Hr.
      rewrite !norm_index_nonneg in Hr by lia. simpl in Hr.
      injection Hr as <-. simpl. rewrite Hi. simpl.
      rewrite !insert_remove_at by assumption.
      rewrite <- Hi at 1. now rewrite axis_set_same.
    + exfalso. change 0%Z with (Z.of_nat 0) in Hr. change 1%Z with (Z.of_nat 1) in Hr.
      destruct (le_lt_dec 1 n).
      * rewrite (norm_index_out n 1) in Hr by lia.
        rewrite (norm_index_nonneg n 0) in Hr by lia. discriminate.
      * rewrite (norm_index_out n 0) in Hr by lia. discriminate.
Qed.

End ShiftFacts.

(** ** Boundary policy of the shifts *)

Lemma shift_p_unfold (fd : FD.FD) (a : axis) (I : ndarray) :
  (axis_index a < ndim I <= 3)%nat ->
  shift_p fd a I = FD.shift_plus fd (axis_index a) I /\
  shift_m fd a I = FD.shift_minus fd (axis_index a) I.
Proof.
  intros H. unfold shift_p, shift_m, FD.xp, FD.xm, FD.yp, FD.ym, FD.zp, FD.zm.
  destruct a; simpl in H;
    destruct (ndim I) as [|[|[|[|d]]]]; try lia; split; reflexivity.
Qed.

(** C6. For every scalar field [I] of one to three dimensions and every axis
    it has: the forward shift and the backward shift return, and at every
    index whose coordinate on that axis is the last one the forward shift
    holds the value of [I] there under the zero-Neumann policy (edge
    replication) and [2*edge - neighbour] under linear extrapolation;
    symmetrically the backward shift at the first coordinate. *)
Theorem shift_boundary_policy (fd : FD.FD) (a : axis) (I : ndarray) :
  (axis_index a < ndim I <= 3)%nat ->
  edge_ok fd (axis_index a) I ->
  exists rp rm,
    shift_p fd a I = Ok rp /\ shift_m fd a I = Ok rm /\
    forall i, in_range (shape I) i ->
      (axis_get (axis_index a) i = (axis_len (axis_index a) I - 1)%nat ->
       data rp i =
         if FD.bcNeumannZero fd then data I i
         else 2 * data I i
              - data I (axis_set (axis_index a) (axis_len (axis_index a) I - 2) i)) /\
      (axis_get (axis_index a) i = 0%nat ->
       data rm i =
         if FD.bcNeumannZero fd then data I i
         else 2 * data I i - data I (axis_set (axis_index a) 1 i)).
Proof.
  intros Hdim Hedge.
  destruct (shift_p_unfold fd a I Hdim) as [Hp Hm].
  destruct (shift_plus_ok fd (axis_index a) I Hedge) as [rp [Erp _]].
  destruct (shift_minus_ok fd (axis_index a) I Hedge) as [rm [Erm _]].
  exists rp, rm. rewrite Hp, Hm. repeat split; auto.
  - intros Hi. apply shift_plus_edge; auto.
    rewrite (in_range_length _ _ H). unfold ndim in Hdim. lia.
  - intros Hi. apply shift_minus_edge; auto.
    rewrite (in_range_length _ _ H). unfold ndim in Hdim. lia.
Qed.

Lemma shift_boundary_policy_witness :
  (axis_index AxisY < ndim ramp23 <= 3)%nat /\
  edge_ok (FD.mkFD 2 [1; 1] true) (axis_index AxisY) ramp23 /\
  exists rp rm,
    shift_p (FD.mkFD 2 [1; 1] true) AxisY ramp23 = Ok rp /\
    shift_m (FD.mkFD 2 [1; 1] true) AxisY ramp23 = Ok rm /\
    forall i, in_range (shape ramp23) i ->
      (axis_get (axis_index AxisY) i = (axis_len (axis_index AxisY) ramp23 - 1)%nat ->
       data rp i = data ramp23 i) /\
      (axis_get (axis_index AxisY) i = 0%nat -> data rm i = data ramp23 i).
Proof.
  assert (H1 : (axis_index AxisY < ndim ramp23 <= 3)%nat)
    by (unfold ndim, ramp23; simpl; lia).
  assert (H2 : edge_ok (FD.mkFD 2 [1; 1] true) (axis_index AxisY) ramp23)
    by (unfold edge_ok, axis_len, ramp23; simpl; lia).
  split; [exact H1|]. split; [exact H2|].
  exact (shift_boundary_policy (FD.mkFD 2 [1; 1] true) AxisY ramp23 H1 H2).
Defined.

(** Linear extrapolation on [0, 1, 4]: the forward shift is [1, 4, 7] and
    the backward shift is [-1, 0, 1]. *)
Example xp_extrapolates :
  exists r, FD.xp (FD.mkFD 1 [1] false) squares3 = Ok r /\
            data r [0%nat] = 1 /\ data r [1%nat] = 4 /\ data r [2%nat] = 7.
Proof.
  eexists. split; [reflexivity|]. simpl. repeat split; lra.
Qed.

Example xm_extrapolates :
  exists r, FD.xm (FD.mkFD 1 [1] false) squares3 = Ok r /\
            data r [0%nat] = -1 /\ data r [1%nat] = 0 /\ data r [2%nat] = 1.
Proof.
  eexists. split; [reflexivity|]. simpl. repeat split; lra.
Qed.

(** ** Central, forward and backward differences *)

Lemma init_inv (sp : list R) (bc : bool) (fd : FD.FD) :
  FD.init sp bc = Ok fd ->
  FD.spacing fd = sp /\ FD.dim fd = length sp /\ FD.bcNeumannZero fd = bc /\
  (1 <= length sp <= 3)%nat.
Proof.
  unfold FD.init. destruct sp as [|h0 [|h1 [|h2 [|h3 r]]]]; intros H;
    try discriminate; injection H as <-; simpl; repeat split; lia.
Qed.

Lemma spacing_at_positive (fd : FD.FD) (k : nat) :
  Forall (fun h => 0 < h) (FD.spacing fd) ->
  (k < length (FD.spacing fd))%nat ->
  exists h, FD.spacing_at fd k = Ok h /\ 0 < h.
Proof.
  intros Hpos Hk. unfold FD.spacing_at.
  destruct (nth_error (FD.spacing fd) k) as [h|] eqn:E.
  - exists h. split; [reflexivity|].
    rewrite Forall_forall in Hpos. apply Hpos. eapply nth_error_In; eauto.
  - apply nth_error_None in E. lia.
Qed.

Lemma diff_unfold (fd : FD.FD) (a : axis) :
  diff_c fd a = FD.central fd (fun e => shift_p e a) (fun e => shift_m e a) (axis_index a) /\
  diff_f fd a = FD.forward fd (fun e => shift_p e a) (axis_index a) /\
  diff_b fd a = FD.backward fd (fun e => shift_m e a) (axis_index a).
Proof. destruct a; repeat split; reflexivity. Qed.

(** C5. For every scalar field [I] whose number of axes is the configured
    dimension of an engine with positive spacing, and every axis of it, the
    central, forward and backward differences along that axis all return,
    and the central difference is the average of the other two at every
    index, so in particular at all interior points. *)
Theorem central_is_average
        (sp : list R) (bc : bool) (fd : FD.FD) (a : axis) (I : ndarray) :
  FD.init sp bc = Ok fd ->
  Forall (fun h => 0 < h) sp ->
  ndim I = FD.dim fd ->
  (axis_index a < ndim I)%nat ->
  edge_ok fd (axis_index a) I ->
  exists c f b,
    diff_c fd a I = Ok c /\ diff_f fd a I = Ok f /\ diff_b fd a I = Ok b /\
    forall i, data c i = (data f i + data b i) / 2.
Proof.
  intros Hinit Hpos Hdim Hax Hedge.
  destruct (init_inv _ _ _ Hinit) as (Hsp & Hd & _ & Hlen).
  assert (Hdim3 : (axis_index a < ndim I <= 3)%nat) by lia.
  destruct (shift_p_unfold fd a I Hdim3) as [Hp Hm].
  destruct (shift_plus_ok fd (axis_index a) I Hedge) as [pI [EpI _]].
  destruct (shift_minus_ok fd (axis_index a) I Hedge) as [mI [EmI _]].
  destruct (spacing_at_positive fd (axis_index a)) as [h [Eh Hh]].
  { now rewrite Hsp. }
  { rewrite Hsp. lia. }
  destruct (diff_unfold fd a) as (-> & -> & ->).
  unfold FD.central, FD.forward, FD.backward.
  rewrite Hp, Hm, EpI, EmI. simpl. rewrite Eh. simpl.
  do 3 eexists. repeat split. intros i. simpl. field. lra.
Qed.

Lemma central_is_average_witness :
  exists c f b,
    diff_c (FD.mkFD 2 [1; 2] true) AxisY ramp23 = Ok c /\
    diff_f (FD.mkFD 2 [1; 2] true) AxisY ramp23 = Ok f /\
    diff_b (FD.mkFD 2 [1; 2] true) AxisY ramp23 = Ok b /\
    forall i, data c i = (data f i + data b i) / 2.
Proof.
  apply (central_is_average [1; 2] true (FD.mkFD 2 [1; 2] true) AxisY ramp23).
  - reflexivity.
  - repeat constructor; lra.
  - reflexivity.
  - unfold ndim, ramp23; simpl; lia.
  - unfold edge_ok, axis_len, ramp23; simpl; lia.
Defined.

(** On the ramp, away from the first and last column, the central
    difference along Y with spacing 2 is 1/2. *)
Example dYc_ramp :
  exists c, FD.dYc (FD.mkFD 2 [1; 2] true) ramp23 = Ok c /\
            data c [0%nat; 1%nat] = 1 / 2 /\ data c [1%nat; 1%nat] = 1 / 2 /\
            data c [1%nat; 2%nat] = 1 / 4.
Proof.
  eexists. split; [reflexivity|]. simpl. repeat split; lra.
Qed.

(** ** The Laplacian returns *)

Lemma second_central_ok (fd : FD.FD) (a : axis) (I : ndarray) :
  (axis_index a < ndim I <= 3)%nat ->
  edge_ok fd (axis_index a) I ->
  (axis_index a < length (FD.spacing fd))%nat ->
  exists r,
    FD.second_central fd (fun e => shift_p e a) (fun e => shift_m e a) (axis_index a) I
    = Ok r /\ shape r = shape I.
Proof.
  intros Hdim Hedge Hsp.
  destruct (shift_p_unfold fd a I Hdim) as [Hp Hm].
  destruct (shift_plus_ok fd (axis_index a) I Hedge) as [pI [EpI SpI]].
  destruct (shift_minus_ok fd (axis_index a) I Hedge) as [mI [EmI _]].
  unfold FD.second_central, FD.spacing_at. rewrite Hp, Hm, EpI, EmI. simpl.
  destruct (nth_error (FD.spacing fd) (axis_index a)) as [h|] eqn:E.
  - simpl. eexists. split; [reflexivity|]. simpl. exact SpI.
  - apply nth_error_None in E. lia.
Qed.

Lemma lap_ok (fd : FD.FD) (I : ndarray) :
  ndim I = length (FD.spacing fd) ->
  (1 <= ndim I <= 3)%nat ->
  (forall ax, (ax < ndim I)%nat -> edge_ok fd ax I) ->
  exists L, FD.lap fd I = Ok L /\ shape L = shape I.
Proof.
  intros Hsp Hdim Hedge. unfold FD.lap.
  assert (HX : (0 < ndim I)%nat) by lia.
  destruct (second_central_ok fd AxisX I) as [rx [Ex Sx]];
    [simpl; lia | apply Hedge; simpl; lia | simpl; lia |].
  change (FD.ddXc fd I = Ok rx) in Ex.
  destruct (ndim I) as [|[|[|[|d]]]] eqn:En; try lia.
  - eauto.
  - destruct (second_central_ok fd AxisY I) as [ry [Ey Sy]];
      [simpl; lia | apply Hedge; simpl; lia | simpl; lia |].
    change (FD.ddYc fd I = Ok ry) in Ey.
    rewrite Ex, Ey. simpl. eexists. split; [reflexivity|]. exact Sx.
  - destruct (second_central_ok fd AxisY I) as [ry [Ey Sy]];
      [simpl; lia | apply Hedge; simpl; lia | simpl; lia |].
    destruct (second_central_ok fd AxisZ I) as [rz [Ez Sz]];
      [simpl; lia | apply Hedge; simpl; lia | simpl; lia |].
    change (FD.ddYc fd I = Ok ry) in Ey. change (FD.ddZc fd I = Ok rz) in Ez.
    rewrite Ex, Ey, Ez. simpl. eexists. split; [reflexivity|]. exact Sx.
Qed.

(** ** Sums *)

Lemma Rsum_map_ext {A : Type} (f g : A -> R) (l : list A) :
  (forall x, In x l -> f x = g x) -> Rsum (map f l) = Rsum (map g l).
Proof.
  induction l as [|x l IH]; intros H; simpl; [reflexivity|].
  rewrite (H x) by (now left). rewrite IH; [reflexivity|].
  intros y Hy. apply H. now right.
Qed.

Lemma Rsum_map_plus {A : Type} (f g : A -> R) (l : list A) :
  Rsum (map (fun x => f x + g x) l) = Rsum (map f l) + Rsum (map g l).
Proof.
  induction l as [|x l IH]; simpl; [lra|]. rewrite IH. lra.
Qed.

Lemma Rsum_map_nonneg {A : Type} (f : A -> R) (l : list A) :
  (forall x, 0 <= f x) -> 0 <= Rsum (map f l).
Proof.
  intros H. induction l as [|x l IH]; simpl; [lra|]. specialize (H x). lra.
Qed.

Lemma Rsum_app (l1 l2 : list R) : Rsum (l1 ++ l2) = Rsum l1 + Rsum l2.
Proof.
  induction l1 as [|x l1 IH]; simpl; [lra|]. rewrite IH. lra.
Qed.

(** ** The regularizer *)

Lemma select0_component (nfull k : nat) (v : ndarray) (n : nat) (rest : list nat) :
  shape v = n :: rest -> (nfull <= length rest)%nat -> (k < n)%nat ->
  select0 nfull (Z.of_nat k) v = Ok (component k v).
Proof.
  intros Hs Hn Hk. unfold select0, ndim. rewrite Hs. simpl length.
  destruct (Nat.ltb_spec (S (length rest)) (1 + nfull)); [lia|].
  unfold select, axis_len. rewrite Hs. simpl nth.
  rewrite norm_index_nonneg by assumption. simpl.
  unfold component. rewrite Hs. reflexivity.
Qed.

Lemma select_component (k : nat) (v : ndarray) (n : nat) (rest : list nat) :
  shape v = n :: rest -> (k < n)%nat ->
  select 0 (Z.of_nat k) v = Ok (component k v).
Proof.
  intros Hs Hk. unfold select, axis_len. rewrite Hs. simpl nth.
  rewrite norm_index_nonneg by assumption. simpl.
  unfold component. rewrite Hs. reflexivity.
Qed.

Lemma assign0_ok (nfull k : nat) (r e : ndarray) (n : nat) (rest : list nat) :
  shape r = n :: rest -> (nfull <= length rest)%nat -> (k < n)%nat ->
  assign0 nfull (Z.of_nat k) r e =
  Ok (mkArr (shape r) (fun i => if (axis_get 0 i =? k)%nat
                                then data e (remove_at 0 i) else data r i)).
Proof.
  intros Hs Hn Hk. unfold assign0, ndim. rewrite Hs. simpl length.
  destruct (Nat.ltb_spec (S (length rest)) (1 + nfull)); [lia|].
  unfold assign, axis_len. rewrite Hs. simpl nth.
  rewrite norm_index_nonneg by assumption. reflexivity.
Qed.

Lemma lap_of_ok (fd : FD.FD) (I : ndarray) :
  ndim I = length (FD.spacing fd) ->
  (1 <= ndim I <= 3)%nat ->
  (forall ax, (ax < ndim I)%nat -> edge_ok fd ax I) ->
  FD.lap fd I = Ok (lap_of fd I) /\ shape (lap_of fd I) = shape I.
Proof.
  intros H1 H2 H3. destruct (lap_ok fd I H1 H2 H3) as [L [EL SL]].
  unfold lap_of. rewrite EL. auto.
Qed.

Lemma regularizer_init_inv (sp : list R) (ps : Regularizer.params)
      (reg : Regularizer.HelmholtzRegularizer) :
  Regularizer.init sp ps = Ok reg ->
  Regularizer.spacing reg = sp /\ Regularizer.dim reg = length sp /\
  Regularizer.volumeElement reg = Regularizer.prod sp /\
  FD.spacing (Regularizer.fdt reg) = sp /\
  FD.bcNeumannZero (Regularizer.fdt reg) = true /\
  (1 <= length sp <= 3)%nat.
Proof.
  unfold Regularizer.init, FD.FD_torch. intros H.
  destruct (FD.init sp true) as [fd|e] eqn:E; [|discriminate].
  simpl in H. injection H as <-. simpl.
  destruct (init_inv _ _ _ E) as (? & ? & ? & ?). repeat split; auto; lia.
Qed.

Lemma nth_Forall_ge1 (g : list nat) (ax : nat) :
  Forall (fun n => (1 <= n)%nat) g -> (ax < length g)%nat -> (1 <= nth ax g 0)%nat.
Proof.
  intros H Hax. rewrite Forall_forall in H. apply H. now apply nth_In.
Qed.

(** The Laplacian of a component of a well-shaped vector field returns. *)
Lemma component_lap_ok (sp : list R) (ps : Regularizer.params)
      (reg : Regularizer.HelmholtzRegularizer) (w : ndarray) (n : nat) (g : list nat)
      (c : nat) :
  Regularizer.init sp ps = Ok reg ->
  shape w = n :: g -> length g = length sp ->
  Forall (fun n => (1 <= n)%nat) g ->
  FD.lap (Regularizer.fdt reg) (component c w)
  = Ok (lap_of (Regularizer.fdt reg) (component c w)) /\
  shape (lap_of (Regularizer.fdt reg) (component c w)) = g.
Proof.
  intros Hinit Hs Hg Hpos.
  destruct (regularizer_init_inv _ _ _ Hinit) as (_ & _ & _ & Hsp & Hbc & Hlen).
  assert (Hsh : shape (component c w) = g) by (unfold component; rewrite Hs; reflexivity).
  destruct (lap_of_ok (Regularizer.fdt reg) (component c w)) as [E S].
  - unfold ndim. rewrite Hsh, Hsp. exact Hg.
  - unfold ndim. rewrite Hsh. lia.
  - intros ax Hax. unfold edge_ok, axis_len. rewrite Hbc, Hsh.
    apply nth_Forall_ge1; auto. unfold ndim in Hax. now rewrite Hsh in Hax.
  - split; [exact E|]. now rewrite S.
Qed.

Lemma assign_component_ok (sp : list R) (ps : Regularizer.params)
      (reg : Regularizer.HelmholtzRegularizer) (w Lv : ndarray) (n : nat) (g : list nat)
      (nfull c : nat) (a gm : R) :
  Regularizer.init sp ps = Ok reg ->
  shape w = n :: g -> length g = length sp ->
  Forall (fun n => (1 <= n)%nat) g ->
  (c < n)%nat -> (nfull <= length g)%nat -> shape Lv = shape w ->
  Regularizer.assign_component reg nfull a gm w c Lv =
  Ok (mkArr (shape Lv)
            (fun i => if (axis_get 0 i =? c)%nat
                      then data (tsub (tmuls (component c w) gm)
                                      (tmuls (lap_of (Regularizer.fdt reg) (component c w)) a))
                                (remove_at 0 i)
                      else data Lv i)).
Proof.
  intros Hinit Hs Hg Hpos Hc Hn HLv. unfold Regularizer.assign_component.
  rewrite (select0_component nfull c w n g Hs Hn Hc). cbn [bind].
  destruct (component_lap_ok sp ps reg w n g c Hinit Hs Hg Hpos) as [-> _]. cbn [bind].
  apply (assign0_ok nfull c Lv _ n g); auto. now rewrite HLv.
Qed.

Lemma tsum_tsquare_spec_Lv (reg : Regularizer.HelmholtzRegularizer) (vc : ndarray) :
  tsum (tsquare (spec_Lv reg vc)) =
  Rsum (map (fun i => (data vc i * Regularizer.gamma reg
                       - data (lap_of (Regularizer.fdt reg) vc) i * Regularizer.alpha reg) ^ 2)
            (indices (shape vc))).
Proof.
  unfold tsum. simpl. apply Rsum_map_ext. intros i _. ring.
Qed.

Lemma compute_regularizer_single (sp : list R) (ps : Regularizer.params)
      (reg : Regularizer.HelmholtzRegularizer) (w : ndarray) (g : list nat) :
  Regularizer.init sp ps = Ok reg ->
  shape w = length sp :: g -> length g = length sp ->
  Forall (fun n => (1 <= n)%nat) g ->
  Regularizer._compute_regularizer reg w = Ok (spec_regularizer reg w).
Proof.
  intros Hinit Hs Hg Hpos.
  destruct (regularizer_init_inv _ _ _ Hinit) as (Hsp & Hdim & Hvol & _ & _ & Hlen).
  pose proof (assign_component_ok sp ps reg w) as Hc.
  unfold Regularizer._compute_regularizer, spec_regularizer.
  rewrite Hdim, Hsp.
  destruct (length sp) as [|[|[|[|d]]]] eqn:El; try lia.
  - unfold Regularizer._compute_regularizer_1d. rewrite Hvol.
    rewrite (Hc _ _ g 1%nat 0%nat _ _ Hinit Hs Hg Hpos) by (simpl; lia || auto).
    cbn [bind].
    change 0%Z with (Z.of_nat 0).
    rewrite (select0_component 1 0 _ 1 g) by (simpl; lia || auto).
    cbn [bind]. f_equal. f_equal. cbn [seq map Rsum fold_right].
    rewrite tsum_tsquare_spec_Lv.
    unfold tsum. simpl. rewrite Rplus_0_r. apply Rsum_map_ext. intros i _. ring.
  - unfold Regularizer._compute_regularizer_2d. rewrite Hvol.
    cbn [for_each].
    rewrite (Hc _ _ g 2%nat 0%nat _ _ Hinit Hs Hg Hpos) by (simpl; lia || auto).
    cbn [bind].
    rewrite (Hc _ _ g 2%nat 1%nat _ _ Hinit Hs Hg Hpos) by (simpl; lia || auto).
    cbn [bind].
    change 0%Z with (Z.of_nat 0). change 1%Z with (Z.of_nat 1).
    rewrite (select0_component 2 0 _ 2 g) by (simpl; lia || auto).
    rewrite (select0_component 2 1 _ 2 g) by (simpl; lia || auto).
    cbn [bind]. f_equal. f_equal. cbn [seq map Rsum fold_right].
    rewrite !tsum_tsquare_spec_Lv.
    unfold tsum. simpl. rewrite Rplus_0_r. rewrite <- Rsum_map_plus.
    apply Rsum_map_ext. intros i _. ring.
  - unfold Regularizer._compute_regularizer_3d. rewrite Hvol.
    cbn [for_each].
    rewrite (Hc _ _ g 3%nat 0%nat _ _ Hinit Hs Hg Hpos) by (simpl; lia || auto).
    cbn [bind].
    rewrite (Hc _ _ g 3%nat 1%nat _ _ Hinit Hs Hg Hpos) by (simpl; lia || auto).
    cbn [bind].
    rewrite (Hc _ _ g 3%nat 2%nat _ _ Hinit Hs Hg Hpos) by (simpl; lia || auto).
    cbn [bind].
    change 0%Z with (Z.of_nat 0). change 1%Z with (Z.of_nat 1). change 2%Z with (Z.of_nat 2).
    rewrite (select0_component 3 0 _ 3 g) by (simpl; lia || auto).
    rewrite (select0_component 3 1 _ 3 g) by (simpl; lia || auto).
    rewrite (select0_component 3 2 _ 3 g) by (simpl; lia || auto).
    cbn [bind]. f_equal. f_equal. cbn [seq map Rsum fold_right].
    rewrite !tsum_tsquare_spec_Lv.
    unfold tsum. simpl. rewrite Rplus_0_r. rewrite <- !Rsum_map_plus.
    apply Rsum_map_ext. intros i _. ring.
Qed.

Lemma for_each_accumulate {A : Type} (body : A -> R -> result R) (r : A -> R)
      (l : list A) (acc : R) :
  (forall k a, In k l -> body k a = Ok (a + r k)) ->
  for_each l body acc = Ok (acc + Rsum (map r l)).
Proof.
  revert acc. induction l as [|k l IH]; intros acc H; simpl.
  - f_equal. lra.
  - rewrite (H k acc) by (now left). simpl. rewrite IH.
    + f_equal. lra.
    + intros k' a Hk'. apply H. now right.
Qed.

Lemma compute_regularizer_batch (sp : list R) (ps : Regularizer.params)
      (reg : Regularizer.HelmholtzRegularizer) (v : ndarray) (N : nat) (g : list nat) :
  Regularizer.init sp ps = Ok reg ->
  shape v = N :: length sp :: g -> length g = length sp ->
  Forall (fun n => (1 <= n)%nat) g ->
  (forall k, (k < N)%nat ->
     Regularizer._compute_regularizer reg (component k v)
     = Ok (spec_regularizer reg (component k v))) /\
  Regularizer.compute_regularizer_multiN reg v
  = Ok (Rsum (map (fun k => spec_regularizer reg (component k v)) (seq 0 N))).
Proof.
  intros Hinit Hs Hg Hpos.
  assert (Hitem : forall k, (k < N)%nat ->
            Regularizer._compute_regularizer reg (component k v)
            = Ok (spec_regularizer reg (component k v))).
  { intros k Hk. apply (compute_regularizer_single sp ps reg _ g); auto.
    unfold component. rewrite Hs. reflexivity. }
  split; [exact Hitem|].
  unfold Regularizer.compute_regularizer_multiN, Regularizer.size0, range.
  rewrite Hs. cbn [bind]. rewrite Nat2Z.id.
  rewrite (for_each_accumulate _ (fun k => spec_regularizer reg (component k v))).
  - f_equal. lra.
  - intros k a Hk. apply in_seq in Hk.
    rewrite (select_component k v N (length sp :: g)) by (auto; lia).
    cbn [bind]. rewrite Hitem by lia. reflexivity.
Qed.

(** C2. For a regularizer built for a spacing of one to three entries and a
    vector field [w] with one component per axis over a non-empty grid: the
    engine's Laplacian of every component returns, and
    [_compute_regularizer] returns the sum over the components of the summed
    squares of [Lv = gamma*v - alpha*lap(v)], times [prod(spacing)].  For a
    batch [v] of [N] such vector fields along a leading axis,
    [compute_regularizer_multiN] returns the sum of the [N] values that
    [_compute_regularizer] returns on the items. *)
Theorem regularizer_compute (sp : list R) (ps : Regularizer.params)
        (reg : Regularizer.HelmholtzRegularizer) (w v : ndarray) (N : nat)
        (g : list nat) :
  Regularizer.init sp ps = Ok reg ->
  length g = length sp ->
  Forall (fun n => (1 <= n)%nat) g ->
  shape w = length sp :: g ->
  shape v = N :: length sp :: g ->
  (forall c, (c < length sp)%nat ->
     FD.lap (Regularizer.fdt reg) (component c w)
     = Ok (lap_of (Regularizer.fdt reg) (component c w))) /\
  Regularizer._compute_regularizer reg w = Ok (spec_regularizer reg w) /\
  (forall k, (k < N)%nat ->
     Regularizer._compute_regularizer reg (component k v)
     = Ok (spec_regularizer reg (component k v))) /\
  Regularizer.compute_regularizer_multiN reg v
  = Ok (Rsum (map (fun k => spec_regularizer reg (component k v)) (seq 0 N))).
Proof.
  intros Hinit Hg Hpos Hw Hv. split; [|split].
  - intros c _. apply (component_lap_ok sp ps reg w _ g c Hinit Hw Hg Hpos).
  - apply (compute_regularizer_single sp ps reg w g); auto.
  - apply (compute_regularizer_batch sp ps reg v N g); auto.
Qed.

Lemma regularizer_compute_witness :
  Regularizer._compute_regularizer reg1 field13 = Ok (spec_regularizer reg1 field13) /\
  Regularizer.compute_regularizer_multiN reg1 batch213
  = Ok (Rsum (map (fun k => spec_regularizer reg1 (component k batch213)) (seq 0 2))).
Proof.
  destruct (regularizer_compute [1] (Regularizer.mkParams None None) reg1
                                field13 batch213 2 [3%nat])
    as (_ & H1 & _ & H2).
  - reflexivity.
  - reflexivity.
  - repeat constructor; lia.
  - reflexivity.
  - reflexivity.
  - split; [exact H1 | exact H2].
Defined.

(** With [gamma = 1], [alpha = 0.2] and unit spacing, [Lv] of [0, 1, 4] is
    [-0.2, 0.6, 4.6]. *)
Example regularizer_value :
  Regularizer._compute_regularizer reg1 field13 = Ok (0.04 + 0.36 + 21.16).
Proof.
  unfold Regularizer._compute_regularizer, Regularizer._compute_regularizer_1d; simpl.
  f_equal. unfold tsum, Regularizer.prod. simpl. lra.
Qed.

(** ** Non-negativity *)

Lemma prod_nonneg (sp : list R) :
  Forall (fun h => 0 < h) sp -> 0 <= Regularizer.prod sp.
Proof.
  induction 1 as [|h sp Hh _ IH]; simpl; [lra|]. apply Rmult_le_pos; lra.
Qed.

Lemma spec_regularizer_nonneg (reg : Regularizer.HelmholtzRegularizer) (w : ndarray) :
  Forall (fun h => 0 < h) (Regularizer.spacing reg) -> 0 <= spec_regularizer reg w.
Proof.
  intros Hpos. unfold spec_regularizer. apply Rmult_le_pos.
  - apply Rsum_map_nonneg. intros c. unfold tsum.
    apply Rsum_map_nonneg. intros i. cbn [tsquare data]. apply pow2_ge_0.
  - now apply prod_nonneg.
Qed.

(** C9. For a regularizer over a spacing of one to three positive entries,
    with hyperparameters [alpha >= 0] and [gamma >= 0], and a vector field
    with one component per axis over a non-empty grid, [_compute_regularizer]
    returns a value that is greater than or equal to zero. *)
Theorem regularizer_nonneg (sp : list R) (ps : Regularizer.params)
        (reg : Regularizer.HelmholtzRegularizer) (w : ndarray) (g : list nat) :
  Regularizer.init sp ps = Ok reg ->
  Forall (fun h => 0 < h) sp ->
  0 <= Regularizer.alpha reg -> 0 <= Regularizer.gamma reg ->
  length g = length sp ->
  Forall (fun n => (1 <= n)%nat) g ->
  shape w = length sp :: g ->
  exists r, Regularizer._compute_regularizer reg w = Ok r /\ 0 <= r.
Proof.
  intros Hinit Hpos _ _ Hg Hne Hw.
  exists (spec_regularizer reg w). split.
  - apply (compute_regularizer_single sp ps reg w g); auto.
  - apply spec_regularizer_nonneg.
    destruct (regularizer_init_inv _ _ _ Hinit) as (-> & _). exact Hpos.
Qed.

Lemma regularizer_nonneg_witness :
  exists r, Regularizer._compute_regularizer reg1 field13 = Ok r /\ 0 <= r.
Proof.
  apply (regularizer_nonneg [1] (Regularizer.mkParams None None) reg1 field13 [3%nat]).
  - reflexivity.
  - repeat constructor; lra.
  - simpl; lra.
  - simpl; lra.
  - reflexivity.
  - repeat constructor; lia.
  - reflexivity.
Defined.

(** ** The diffusion smoother *)

Lemma fold_left_Rmin (r : list R) (h : R) :
  is_min (fold_left Rmin r h) (h :: r).
Proof.
  revert h. induction r as [|x r IH]; intros h; simpl.
  - split; [now left|]. intros y [<-|[]]. lra.
  - destruct (IH (Rmin h x)) as [Hin Hle]. split.
    + destruct Hin as [E|Hin].
      * rewrite <- E. unfold Rmin. destruct (Rle_dec h x); [now left | right; now left].
      * right. now right.
    + intros y [E|[E|Hy]].
      * subst y. apply Rle_trans with (Rmin h x); [apply Hle; now left | apply Rmin_l].
      * subst y. apply Rle_trans with (Rmin h x); [apply Hle; now left | apply Rmin_r].
      * apply Hle. now right.
Qed.

Lemma spacing_min_ok (sp : list R) :
  (1 <= length sp)%nat -> exists m, Smoother.spacing_min sp = Ok m /\ is_min m sp.
Proof.
  destruct sp as [|h r]; simpl; [lia|]. intros _.
  eexists. split; [reflexivity|]. apply fold_left_Rmin.
Qed.

Lemma smoother_init_inv (size : list Z) (sp : list R) (b : Smoother.Smoother) :
  Smoother.init size sp = Ok b ->
  Smoother.sz b = size /\ Smoother.spacing b = sp /\ Smoother.dim b = length sp /\
  FD.spacing (Smoother.fdt b) = sp /\ FD.bcNeumannZero (Smoother.fdt b) = true /\
  (1 <= length sp <= 3)%nat.
Proof.
  unfold Smoother.init, FD.FD_torch. intros H.
  destruct (FD.init sp true) as [fd|e] eqn:E; [|discriminate].
  simpl in H. injection H as <-. simpl.
  destruct (init_inv _ _ _ E) as (? & ? & ? & ?). repeat split; auto; lia.
Qed.

Lemma for_each_iterate {A : Type} (body : ndarray -> result ndarray)
      (upd : ndarray -> ndarray) (sh : list nat) (l : list A) (v0 : ndarray) :
  (forall v, shape v = sh -> body v = Ok (upd v) /\ shape (upd v) = sh) ->
  shape v0 = sh ->
  for_each l (fun _ Sv => body Sv) v0 = Ok (Nat.iter (length l) upd v0).
Proof.
  intros Hbody. revert v0. induction l as [|x l IH]; intros v0 Hv0.
  - reflexivity.
  - destruct (Hbody v0 Hv0) as [E S]. cbn [for_each]. rewrite E. cbn [bind].
    rewrite IH by exact S. cbn [length]. now rewrite Nat.iter_succ_r.
Qed.

(** C3. For a diffusion smoother built for a spacing of [dim] entries
    (one to three), with iteration parameter [iter >= 0], and a scalar field
    [v] with [dim] non-empty axes: the spacing has a smallest entry [m], and
    [smooth_scalar_field] returns [v] after exactly [iter * 2^dim]
    applications of the update [v <- v + (0.5 / 2^dim) * lap(v) * m^2],
    where each Laplacian is the one the engine returns. *)
Theorem diffusion_smooth_iterates (size : list Z) (sp : list R) (p_iter : option Z)
        (s : Smoother.DiffusionSmoother) (v : ndarray) :
  Smoother.diffusion_init size sp p_iter = Ok s ->
  (0 <= Smoother.iter s)%Z ->
  ndim v = length sp ->
  Forall (fun n => (1 <= n)%nat) (shape v) ->
  exists m,
    Smoother.spacing_min sp = Ok m /\ is_min m sp /\
    Smoother.diffusion_smooth_scalar_field s v
    = Ok (Nat.iter (Z.to_nat (Smoother.iter s) * 2 ^ length sp)
                   (spec_diffusion_update (Smoother.fdt (Smoother.d_base s))
                                          (length sp) m)
                   v).
Proof.
  intros Hinit Hiter Hdim Hne.
  unfold Smoother.diffusion_init in Hinit.
  destruct (Smoother.init size sp) as [b|e] eqn:Eb; [|discriminate].
  cbn [bind] in Hinit. injection Hinit as <-. cbn [Smoother.iter Smoother.d_base] in *.
  destruct (smoother_init_inv _ _ _ Eb) as (_ & Hsp & Hd & Hfsp & Hbc & Hlen).
  destruct (spacing_min_ok sp) as [m [Em Hm]]; [lia|].
  exists m. split; [exact Em|]. split; [exact Hm|].
  unfold Smoother.diffusion_smooth_scalar_field. cbn [Smoother.iter Smoother.d_base].
  rewrite (for_each_iterate _ (spec_diffusion_update (Smoother.fdt b) (length sp) m)
                            (shape v)).
  - f_equal. unfold range. rewrite length_seq, Hd.
    replace (Z.to_nat (match p_iter with Some n => n | None => 5%Z end
                       * 2 ^ Z.of_nat (length sp)))
      with (Z.to_nat (match p_iter with Some n => n | None => 5%Z end)
            * 2 ^ length sp)%nat.
    + destruct v; reflexivity.
    + rewrite Z2Nat.inj_mul by lia. f_equal.
      rewrite Z2Nat.inj_pow by lia. now rewrite Nat2Z.id.
  - intros u Hu. unfold Smoother.diffusion_body. cbn [Smoother.d_base].
    destruct (lap_of_ok (Smoother.fdt b) u) as [EL SL].
    + unfold ndim. rewrite Hu, Hfsp. exact Hdim.
    + unfold ndim in *. rewrite Hu. lia.
    + intros ax Hax. unfold edge_ok, axis_len. rewrite Hbc, Hu.
      apply nth_Forall_ge1; auto. unfold ndim in Hax. now rewrite Hu in Hax.
    + rewrite EL, Hsp, Em, Hd. cbn [bind]. split; [reflexivity|]. exact Hu.
  - destruct v; reflexivity.
Qed.

Lemma diffusion_smooth_iterates_witness :
  exists m,
    Smoother.spacing_min [1] = Ok m /\ is_min m [1] /\
    Smoother.diffusion_smooth_scalar_field diffusion1 squares3
    = Ok (Nat.iter (Z.to_nat (Smoother.iter diffusion1) * 2 ^ length [1])
                   (spec_diffusion_update (Smoother.fdt (Smoother.d_base diffusion1))
                                          (length [1]) m)
                   squares3).
Proof.
  apply (diffusion_smooth_iterates [3%Z] [1] (Some 1%Z) diffusion1 squares3).
  - reflexivity.
  - simpl; lia.
  - reflexivity.
  - repeat constructor; lia.
Defined.

(** One iteration in one dimension is two updates with coefficient 1/4:
    [0, 1, 4] becomes [1/4, 3/2, 13/4] and then [9/16, 13/8, 45/16]. *)
Example diffusion_value :
  exists r, Smoother.diffusion_smooth_scalar_field diffusion1 squares3 = Ok r /\
            data r [0%nat] = 9 / 16 /\ data r [1%nat] = 13 / 8 /\
            data r [2%nat] = 45 / 16.
Proof.
  eexists. split; [reflexivity|]. simpl. repeat split; lra.
Qed.

(** ** The Gaussian smoothers *)

Section GaussianFacts.

Context {ext : Externals}.

Lemma with_filter_cached (op : ndarray -> ffilter -> result ndarray)
      (s : Smoother.GaussianFourierSmoother) (F : ffilter) (v : ndarray) :
  Smoother.FFilter s = Some F ->
  Smoother.with_filter op s v = (s, op v F).
Proof. intros H. unfold Smoother.with_filter. now rewrite H. Qed.

Lemma with_filter_first (op : ndarray -> ffilter -> result ndarray)
      (s : Smoother.GaussianFourierSmoother) (F : ffilter) (v : ndarray) :
  Smoother.FFilter s = None ->
  Smoother.build_filter s = Ok F ->
  Smoother.with_filter op s v
  = (Smoother.mkFourier (Smoother.f_base s) (Smoother.gaussianStd s) (Some F), op v F).
Proof.
  intros Hn Hb. unfold Smoother.with_filter, Smoother.fourier_create_filter.
  now rewrite Hn, Hb.
Qed.

Lemma fourier_step_keeps (s : Smoother.GaussianFourierSmoother) (F : ffilter)
      (c : fourier_call) :
  Smoother.FFilter s = Some F -> Smoother.FFilter (fourier_step s c) = Some F.
Proof.
  intros H. destruct c as [v|v|g]; simpl.
  - unfold Smoother.fourier_smooth_scalar_field.
    now rewrite (with_filter_cached _ s F v H).
  - unfold Smoother.fourier_inverse_smooth_scalar_field.
    now rewrite (with_filter_cached _ s F v H).
  - exact H.
Qed.

Lemma fourier_run_keeps (cs : list fourier_call)
      (s : Smoother.GaussianFourierSmoother) (F : ffilter) :
  Smoother.FFilter s = Some F -> Smoother.FFilter (fourier_run s cs) = Some F.
Proof.
  revert s. induction cs as [|c cs IH]; intros s H; simpl; [exact H|].
  apply IH. now apply fourier_step_keeps.
Qed.

End GaussianFacts.

(** C4, as the code has it.  On a Fourier-Gaussian smoother without a
    filter, the first [smooth_scalar_field] or [inverse_smooth_scalar_field]
    call builds the filter from the standard deviation in force and stores
    it; after that, whatever calls follow (smoothing, inverse smoothing,
    [set_gaussian_std]), every smoothing call uses that same stored filter.
    [set_gaussian_std] stores the new standard deviation and leaves the
    filter attribute as it is, so the new value decides the filter only when
    none has been built yet. *)
Theorem fourier_filter_cache {ext : Externals}
        (s : Smoother.GaussianFourierSmoother) (F : ffilter) (v : ndarray) :
  Smoother.FFilter s = None ->
  Smoother.build_filter s = Ok F ->
  let s1 := Smoother.mkFourier (Smoother.f_base s) (Smoother.gaussianStd s) (Some F) in
  Smoother.fourier_smooth_scalar_field s v = (s1, fourier_convolution v F) /\
  Smoother.fourier_inverse_smooth_scalar_field s v = (s1, inverse_fourier_convolution v F) /\
  (forall cs v',
     let s2 := fourier_run s1 cs in
     Smoother.fourier_smooth_scalar_field s2 v' = (s2, fourier_convolution v' F) /\
     Smoother.fourier_inverse_smooth_scalar_field s2 v'
     = (s2, inverse_fourier_convolution v' F)) /\
  (forall g,
     Smoother.gaussianStd (Smoother.set_gaussian_std g s1) = g /\
     Smoother.FFilter (Smoother.set_gaussian_std g s1) = Some F /\
     Smoother.FFilter (Smoother.set_gaussian_std g s) = None /\
     forall F', Smoother.build_filter (Smoother.set_gaussian_std g s) = Ok F' ->
                Smoother.fourier_smooth_scalar_field (Smoother.set_gaussian_std g s) v
                = (Smoother.mkFourier (Smoother.f_base s) g (Some F'),
                   fourier_convolution v F')).
Proof.
  intros Hn Hb s1. repeat split.
  - apply with_filter_first; assumption.
  - apply with_filter_first; assumption.
  - apply with_filter_cached. now apply fourier_run_keeps.
  - apply with_filter_cached. now apply fourier_run_keeps.
  - exact Hn.
  - intros F' HF'.
    unfold Smoother.fourier_smooth_scalar_field.
    now rewrite (with_filter_first _ (Smoother.set_gaussian_std g s) F' v Hn HF').
Qed.

Lemma fourier_filter_cache_witness :
  Smoother.fourier_init [3%Z] [1] None = Ok fourier1 /\
  forall cs v',
    Smoother.fourier_smooth_scalar_field
      (fourier_run (fst (Smoother.fourier_smooth_scalar_field fourier1 squares3)) cs) v'
    = (fourier_run (fst (Smoother.fourier_smooth_scalar_field fourier1 squares3)) cs,
       fourier_convolution v' (0.15 * 1)).
Proof.
  split; [reflexivity|]. intros cs v'.
  destruct (fourier_filter_cache fourier1 (0.15 * 1) squares3) as (E1 & _ & H & _).
  - reflexivity.
  - reflexivity.
  - rewrite E1. simpl fst. apply H.
Defined.

(** C4, as stated, fails: after a first smoothing call with the default
    standard deviation, [set_gaussian_std 1] does not clear the filter, and
    the next smoothing call still uses the filter built from the old value,
    which is not the one that the new value would give. *)
Lemma set_gaussian_std_keeps_filter :
  let s1 := fst (Smoother.fourier_smooth_scalar_field fourier1 squares3) in
  let s2 := Smoother.set_gaussian_std 1 s1 in
  Smoother.FFilter s2 <> None /\
  Smoother.FFilter (fst (Smoother.fourier_smooth_scalar_field s2 squares3))
  = Some (0.15 * 1) /\
  Smoother.build_filter s2 = Ok (1 * 1) /\
  0.15 * 1 <> 1 * 1.
Proof.
  simpl. repeat split.
  - discriminate.
  - lra.
Qed.

(** ** Inverse smoothing *)

Lemma inverse_vector_field_raises (size : list Z) (sp : list R) (b : Smoother.Smoother)
      (inv : ndarray -> result ndarray) (v : ndarray) :
  Smoother.init size sp = Ok b ->
  (forall x, inv x = Raise Smoother.inversion_unsupported) ->
  is_ok (Smoother.inverse_smooth_vector_field b inv v) = false.
Proof.
  intros Hinit Hinv.
  destruct (smoother_init_inv _ _ _ Hinit) as (_ & _ & Hd & _ & _ & Hlen).
  unfold Smoother.inverse_smooth_vector_field.
  destruct (Nat.eqb_spec (Smoother.dim b) 1) as [E|E].
  - now rewrite Hinv.
  - unfold range. rewrite Nat2Z.id.
    destruct (Smoother.dim b) as [|d]; [lia|].
    cbn [seq for_each].
    destruct (select 0 (Z.of_nat 0) v) as [vd|e]; cbn [bind]; [|reflexivity].
    now rewrite Hinv.
Qed.

(** C7. Inverse smoothing of a scalar field raises the "inversion not
    supported" error on the diffusion and on the spatial-Gaussian smoother,
    for every input, and the inverse smoothing of a vector field never
    returns on them either; on the Fourier-Gaussian smoother it returns the
    field that the inverse Fourier convolution with the (cached or newly
    built) filter returns. *)
Theorem inverse_smooth_support {ext : Externals}
        (size : list Z) (sp : list R) (b : Smoother.Smoother)
        (ds : Smoother.DiffusionSmoother) (ss : Smoother.GaussianSpatialSmoother)
        (fs : Smoother.GaussianFourierSmoother) (F : ffilter) (v w : ndarray) :
  Smoother.init size sp = Ok b ->
  Smoother.FFilter fs = Some F \/
  (Smoother.FFilter fs = None /\ Smoother.build_filter fs = Ok F) ->
  inverse_fourier_convolution v F = Ok w ->
  Smoother.diffusion_inverse_smooth_scalar_field ds v
  = Raise Smoother.inversion_unsupported /\
  Smoother.spatial_inverse_smooth_scalar_field ss v
  = Raise Smoother.inversion_unsupported /\
  is_ok (Smoother.inverse_smooth_vector_field
           b (Smoother.diffusion_inverse_smooth_scalar_field ds) v) = false /\
  is_ok (Smoother.inverse_smooth_vector_field
           b (Smoother.spatial_inverse_smooth_scalar_field ss) v) = false /\
  snd (Smoother.fourier_inverse_smooth_scalar_field fs v) = Ok w.
Proof.
  intros Hinit HF Hw. repeat split.
  - now apply (inverse_vector_field_raises size sp).
  - now apply (inverse_vector_field_raises size sp).
  - unfold Smoother.fourier_inverse_smooth_scalar_field.
    destruct HF as [HF|[Hn Hb]].
    + now rewrite (with_filter_cached _ fs F v HF).
    + now rewrite (with_filter_first _ fs F v Hn Hb).
Qed.

Lemma inverse_smooth_support_witness :
  Smoother.diffusion_inverse_smooth_scalar_field diffusion1 squares3
  = Raise Smoother.inversion_unsupported /\
  Smoother.spatial_inverse_smooth_scalar_field spatial1 squares3
  = Raise Smoother.inversion_unsupported /\
  is_ok (Smoother.inverse_smooth_vector_field
           (Smoother.d_base diffusion1)
           (Smoother.diffusion_inverse_smooth_scalar_field diffusion1) squares3) = false /\
  is_ok (Smoother.inverse_smooth_vector_field
           (Smoother.d_base diffusion1)
           (Smoother.spatial_inverse_smooth_scalar_field spatial1) squares3) = false /\
  snd (Smoother.fourier_inverse_smooth_scalar_field fourier1 squares3)
  = Ok (tdivs squares3 (0.15 * 1)).
Proof.
  apply (inverse_smooth_support [3%Z] [1] (Smoother.d_base diffusion1)
                                diffusion1 spatial1 fourier1 (0.15 * 1)
                                squares3 (tdivs squares3 (0.15 * 1))).
  - reflexivity.
  - right. split; reflexivity.
  - reflexivity.
Defined.

(** ** The spatial Gaussian smoother *)

Section SpatialFacts.

Context {ext : Externals}.
Variable conv : ndarray -> list Z -> ndarray -> result ndarray.

Lemma spatial_create_filter_raises (s : Smoother.GaussianSpatialSmoother) :
  exists s' e,
    Smoother.spatial_create_filter s = (s', Raise e) /\
    Smoother.filter s' = Smoother.filter s /\
    Smoother.s_base s' = Smoother.s_base s /\
    Smoother.k_sz_h s' = Smoother.k_sz_h s.
Proof.
  unfold Smoother.spatial_create_filter.
  destruct (Smoother.k_sz_h s) as [k|] eqn:Ek.
  - do 2 eexists. repeat split; eauto.
  - destruct (Smoother._create_smoothing_kernel _ _) as [g|e].
    + cbn [Smoother.s_base].
      destruct (Smoother.dim (Smoother.s_base s)) as [|[|[|[|d]]]];
        do 2 eexists; repeat split; eauto.
    + do 2 eexists. repeat split; eauto.
Qed.

Lemma spatial_smooth_raises (s : Smoother.GaussianSpatialSmoother) (v : ndarray) :
  Smoother.filter s = None ->
  exists e,
    snd (Smoother.spatial_smooth_scalar_field conv s v) = Raise e /\
    Smoother.filter (fst (Smoother.spatial_smooth_scalar_field conv s v)) = None.
Proof.
  intros Hn. unfold Smoother.spatial_smooth_scalar_field. rewrite Hn.
  destruct (spatial_create_filter_raises s) as (s' & e & E & Hf & _).
  rewrite E. exists e. simpl. split; [reflexivity|]. now rewrite Hf.
Qed.

Lemma spatial_run_no_filter (cs : list spatial_call)
      (s : Smoother.GaussianSpatialSmoother) :
  Smoother.filter s = None -> Smoother.filter (spatial_run conv s cs) = None.
Proof.
  revert s. induction cs as [|c cs IH]; intros s Hn; simpl; [exact Hn|].
  apply IH. destruct c as [v|k]; simpl.
  - now destruct (spatial_smooth_raises s v Hn) as (e & _ & H).
  - exact Hn.
Qed.

Lemma spatial_run_base (cs : list spatial_call)
      (s : Smoother.GaussianSpatialSmoother) :
  Smoother.s_base (spatial_run conv s cs) = Smoother.s_base s.
Proof.
  unfold spatial_run. revert s.
  induction cs as [|c cs IH]; intros s; simpl; [reflexivity|].
  rewrite IH. destruct c as [v|k]; simpl; [|reflexivity].
  unfold Smoother.spatial_smooth_scalar_field.
  destruct (Smoother.filter s); [reflexivity|].
  destruct (spatial_create_filter_raises s) as (s' & e & E & _ & Hbase & _).
  rewrite E. simpl. exact Hbase.
Qed.

End SpatialFacts.

(** C10. On a spatial-Gaussian smoother, constructed with or without a kernel
    half-width and after any sequence of smoothing calls and changes of the
    half-width, every call of [smooth_scalar_field] raises and leaves the
    filter unset.  With a half-width specified the error is the unbound name
    [k_sz_h]; with the default one, once the kernel has been computed, it is
    the unbound name [sz] of the reshape. *)
Theorem spatial_smooth_always_raises {ext : Externals}
        (conv : ndarray -> list Z -> ndarray -> result ndarray)
        (size : list Z) (sp : list R) (p_k : option (list Z))
        (s0 : Smoother.GaussianSpatialSmoother) (cs : list spatial_call) (v : ndarray) :
  Smoother.spatial_init size sp p_k = Ok s0 ->
  let s := spatial_run conv s0 cs in
  let out := Smoother.spatial_smooth_scalar_field conv s v in
  (exists e, snd out = Raise e) /\
  Smoother.filter (fst out) = None /\
  (forall k, Smoother.k_sz_h s = Some k -> snd out = Raise (NameError "k_sz_h")) /\
  (forall g, Smoother.k_sz_h s = None ->
             identity_map (repeat 11%Z (length sp)) = Ok g ->
             is_ok (compute_normalized_gaussian g (repeat 0 (length sp))
                                                (repeat 1 (length sp))) = true ->
             snd out = Raise (NameError "sz")).
Proof.
  intros Hinit s out.
  unfold Smoother.spatial_init in Hinit.
  destruct (Smoother.init size sp) as [b|e0] eqn:Eb; [|discriminate].
  cbn [bind] in Hinit. injection Hinit as <-.
  destruct (smoother_init_inv _ _ _ Eb) as (_ & _ & Hd & _ & _ & Hlen).
  assert (Hn : Smoother.filter s = None)
    by (apply spatial_run_no_filter; reflexivity).
  assert (Hb : Smoother.dim (Smoother.s_base s) = length sp)
    by (subst s; rewrite spatial_run_base; exact Hd).
  destruct (spatial_smooth_raises conv s v Hn) as (e & He & Hf).
  split; [now exists e|]. split; [exact Hf|]. split.
  - intros k Hk. subst out.
    unfold Smoother.spatial_smooth_scalar_field, Smoother.spatial_create_filter.
    now rewrite Hn, Hk.
  - intros g Hk Hid Hg. subst out.
    unfold Smoother.spatial_smooth_scalar_field, Smoother.spatial_create_filter.
    rewrite Hn, Hk. unfold Smoother._create_smoothing_kernel.
    cbn [Smoother.s_base]. rewrite Hb.
    change (2 * 5 + 1)%Z with 11%Z. rewrite Hid. cbn [bind].
    destruct (compute_normalized_gaussian g _ _) as [w|e']; [|discriminate].
    destruct (length sp) as [|[|[|[|d]]]]; try lia; reflexivity.
Qed.

Lemma spatial_smooth_always_raises_witness :
  snd (Smoother.spatial_smooth_scalar_field
         (fun I _ _ => Ok I)
         (spatial_run (fun I _ _ => Ok I) spatial1
                      [SSmooth squares3; SSetHalfWidth None])
         squares3)
  = Raise (NameError "sz") /\
  snd (Smoother.spatial_smooth_scalar_field
         (fun I _ _ => Ok I)
         (spatial_run (fun I _ _ => Ok I) spatial1 [SSetHalfWidth (Some [2%Z])])
         squares3)
  = Raise (NameError "k_sz_h").
Proof.
  split.
  - destruct (spatial_smooth_always_raises
                (fun I _ _ => Ok I) [3%Z] [1] None spatial1
                [SSmooth squares3; SSetHalfWidth None] squares3)
      as (_ & _ & _ & H); [reflexivity|].
    apply (H (zeros [])); reflexivity.
  - destruct (spatial_smooth_always_raises
                (fun I _ _ => Ok I) [3%Z] [1] None spatial1
                [SSetHalfWidth (Some [2%Z])] squares3)
      as (_ & _ & H & _); [reflexivity|].
    apply (H [2%Z]). reflexivity.
Defined.

(** ** The integrators *)

Lemma linspace_dt (fromT toT : R) (N : Z) :
  (1 <= N)%Z ->
  exists tp t0 t1,
    linspace fromT toT (N + 1) = Ok tp /\
    list_get tp 1 = Ok t1 /\ list_get tp 0 = Ok t0 /\
    t1 - t0 = (toT - fromT) / IZR N.
Proof.
  intros HN. unfold linspace.
  destruct (Z.ltb_spec (N + 1) 0); [lia|].
  assert (En : Z.to_nat (N + 1) = S (S (Z.to_nat (N - 1)))) by lia.
  rewrite En.
  assert (EN : INR (S (S (Z.to_nat (N - 1))) - 1) = IZR N).
  { replace (S (S (Z.to_nat (N - 1))) - 1)%nat with (Z.to_nat N) by lia.
    rewrite INR_IZR_INZ. f_equal. lia. }
  rewrite EN.
  assert (HN0 : IZR N <> 0) by (apply not_0_IZR; lia).
  destruct (Z.to_nat (N - 1)) as [|m] eqn:Em.
  - assert (N = 1%Z) by lia. subst N.
    eexists. exists (INR 0 * ((toT - fromT) / 1) + fromT), toT.
    split; [reflexivity|]. split; [reflexivity|]. split; [reflexivity|].
    simpl. field.
  - eexists.
    exists (INR 0 * ((toT - fromT) / IZR N) + fromT),
           (INR 1 * ((toT - fromT) / IZR N) + fromT).
    split; [reflexivity|]. split; [reflexivity|]. split; [reflexivity|].
    simpl. field. exact HN0.
Qed.

Section IntegratorFacts.

Context {E : Type} {SE : StateElem E} {U P : Type}.
Variable self : @RK.RKIntegrator E U P.

Lemma loop_threads
      (one_step : @RK.RKIntegrator E U P -> RK.pyseq -> R -> R -> result (list E))
      (step : list E -> R -> R -> list E) (x : list E) (fromT dt : R) :
  (forall y t h, one_step self (RK.PyList y) t h = Ok (step y t h)) ->
  forall (n j s : nat),
    for_each (seq s n)
             (fun _ (st : RK.pyseq * R) =>
                x' <- one_step self (fst st) (snd st) dt ;;
                Ok (RK.PyList x', snd st + dt))
             (RK.PyList (spec_steps step j x fromT dt), fromT + INR j * dt)
    = Ok (RK.PyList (spec_steps step (j + n) x fromT dt), fromT + INR (j + n) * dt).
Proof.
  intros Hstep. induction n as [|n IH]; intros j s.
  - rewrite Nat.add_0_r. reflexivity.
  - cbn [seq for_each fst snd]. rewrite Hstep. cbn [bind].
    replace (fromT + INR j * dt + dt) with (fromT + INR (S j) * dt)
      by (rewrite S_INR; ring).
    change (step (spec_steps step j x fromT dt) (fromT + INR j * dt) dt)
      with (spec_steps step (S j) x fromT dt).
    rewrite (IH (S j) (S s)). now rewrite Nat.add_succ_r.
Qed.

Lemma solve_threads
      (one_step : @RK.RKIntegrator E U P -> RK.pyseq -> R -> R -> result (list E))
      (step : list E -> R -> R -> list E) (x : list E) (fromT toT : R) :
  (1 <= RK.nrOfTimeSteps self)%Z ->
  (forall y t h, one_step self (RK.PyList y) t h = Ok (step y t h)) ->
  RK.solve one_step self (RK.PyList x) fromT toT
  = Ok (RK.PyList (spec_solve self step x fromT toT)).
Proof.
  intros HN Hstep. unfold RK.solve, spec_solve.
  destruct (linspace_dt fromT toT _ HN) as (tp & t0 & t1 & -> & E1 & E0 & Edt).
  cbn [bind]. rewrite E1, E0. cbn [bind]. rewrite Edt. unfold range.
  pose proof (loop_threads one_step step x fromT
                           ((toT - fromT) / IZR (RK.nrOfTimeSteps self)) Hstep
                           (Z.to_nat (RK.nrOfTimeSteps self)) 0 0) as H.
  cbn [spec_steps] in H.
  replace (fromT + INR 0 * ((toT - fromT) / IZR (RK.nrOfTimeSteps self)))
    with fromT in H by (simpl; ring).
  rewrite H. reflexivity.
Qed.

Lemma xpyts_spec (x K : list E) (c : R) :
  RK.xpyts x K c = ladd x (lscale c K).
Proof.
  unfold RK.xpyts, ladd, lscale. revert K.
  induction x as [|a x IH]; intros [|k K]; simpl; try reflexivity.
  now rewrite IH.
Qed.

Lemma xpyts_xts (x K : list E) (a b : R) :
  RK.xpyts x (RK.xts K a) b = ladd x (lscale (a * b) K).
Proof.
  unfold RK.xpyts, RK.xts, ladd, lscale. revert K.
  induction x as [|e x IH]; intros [|k K]; simpl; try reflexivity.
  rewrite IH. now rewrite emuls_emuls.
Qed.

Lemma ladd_length (x y : list E) :
  length y = length x -> length (ladd x y) = length x.
Proof.
  intros H. unfold ladd. rewrite length_map, length_combine. lia.
Qed.

Lemma lscale_length (c : R) (x : list E) : length (lscale c x) = length x.
Proof. unfold lscale. apply length_map. Qed.

Lemma euler_step_spec (x : list E) (t dt : R) :
  RK.EulerForward_solve_one_step self (RK.PyList x) t dt
  = Ok (spec_euler_step self x t dt).
Proof.
  unfold RK.EulerForward_solve_one_step, spec_euler_step, rhs.
  cbn [RK.items]. now rewrite xpyts_spec.
Qed.

(** The weighted sum of the four increments, element by element. *)
Lemma rk4_combination (a k1 k2 k3 k4 : E) (dt : R) :
  eadd (eadd (eadd (eadd a (edivs (emuls k1 dt) 6)) (edivs (emuls k2 dt) 3))
             (edivs (emuls k3 dt) 3)) (edivs (emuls k4 dt) 6)
  = eadd a (emuls (eadd (eadd (eadd k1 (emuls k2 2)) (emuls k3 2)) k4) (dt / 6)).
Proof.
  rewrite !edivs_emuls, !emuls_eadd, !emuls_emuls, <- !eadd_assoc.
  replace (dt * / 3) with (2 * (dt / 6)) by field.
  reflexivity.
Qed.

Lemma list_get_app {A : Type} (p l : list A) (a : A) :
  list_get (p ++ a :: l) (length p) = Ok a.
Proof.
  unfold list_get. rewrite nth_error_app2 by lia.
  now rewrite Nat.sub_diag.
Qed.

Lemma rk4_loop (dt : R) (x K1 K2 K3 K4 : list E) :
  length K1 = length x -> length K2 = length x ->
  length K3 = length x -> length K4 = length x ->
  forall (px p1 p2 p3 p4 acc : list E),
    length p1 = length px -> length p2 = length px ->
    length p3 = length px -> length p4 = length px ->
    for_each (seq (length px) (length x))
             (fun i xp1 =>
                xi <- list_get (px ++ x) i ;;
                a <- list_get (p1 ++ RK.xts K1 dt) i ;;
                b <- list_get (p2 ++ RK.xts K2 dt) i ;;
                c <- list_get (p3 ++ RK.xts K3 dt) i ;;
                d <- list_get (p4 ++ RK.xts K4 dt) i ;;
                Ok (xp1 ++ [eadd (eadd (eadd (eadd xi (edivs a 6)) (edivs b 3))
                                       (edivs c 3)) (edivs d 6)]))
             acc
    = Ok (acc ++ ladd x (lscale (dt / 6)
                                (ladd (ladd (ladd K1 (lscale 2 K2)) (lscale 2 K3)) K4))).
Proof.
  revert K1 K2 K3 K4.
  induction x as [|e x IH]; intros [|k1 K1] [|k2 K2] [|k3 K3] [|k4 K4];
    simpl length; try discriminate; intros H1 H2 H3 H4 px p1 p2 p3 p4 acc L1 L2 L3 L4.
  - cbn. now rewrite app_nil_r.
  - cbn [seq for_each RK.xts map].
    rewrite list_get_app. cbn [bind].
    rewrite <- L1 at 1. rewrite list_get_app. cbn [bind].
    rewrite <- L2 at 1. rewrite list_get_app. cbn [bind].
    rewrite <- L3 at 1. rewrite list_get_app. cbn [bind].
    rewrite <- L4 at 1. rewrite list_get_app. cbn [bind].
    replace (S (length px)) with (length (px ++ [e])) by (rewrite length_app; simpl; lia).
    replace (px ++ e :: x) with ((px ++ [e]) ++ x) by (now rewrite <- app_assoc).
    replace (p1 ++ emuls k1 dt :: map (fun a => emuls a dt) K1)
      with ((p1 ++ [emuls k1 dt]) ++ RK.xts K1 dt) by (now rewrite <- app_assoc).
    replace (p2 ++ emuls k2 dt :: map (fun a => emuls a dt) K2)
      with ((p2 ++ [emuls k2 dt]) ++ RK.xts K2 dt) by (now rewrite <- app_assoc).
    replace (p3 ++ emuls k3 dt :: map (fun a => emuls a dt) K3)
      with ((p3 ++ [emuls k3 dt]) ++ RK.xts K3 dt) by (now rewrite <- app_assoc).
    replace (p4 ++ emuls k4 dt :: map (fun a => emuls a dt) K4)
      with ((p4 ++ [emuls k4 dt]) ++ RK.xts K4 dt) by (now rewrite <- app_assoc).
    rewrite IH; try lia; try (rewrite !length_app; simpl; lia).
    rewrite rk4_combination, <- app_assoc. reflexivity.
Qed.

Lemma rk4_step_spec (x : list E) (t dt : R) :
  rhs_keeps_arity self ->
  RK.RK4_solve_one_step self (RK.PyList x) t dt = Ok (spec_rk4_step self x t dt).
Proof.
  intros Har. unfold RK.RK4_solve_one_step, spec_rk4_step. cbn [RK.items].
  rewrite !xpyts_xts.
  replace (dt * 0.5) with (dt / 2) by lra.
  replace (t + 0.5 * dt) with (t + dt / 2) by lra.
  set (K1 := rhs self t x).
  set (K2 := rhs self (t + dt / 2) (ladd x (lscale (dt / 2) K1))).
  set (K3 := rhs self (t + dt / 2) (ladd x (lscale (dt / 2) K2))).
  set (K4 := rhs self (t + dt) (ladd x (lscale dt K3))).
  assert (HL : forall s y, length y = length x -> length (rhs self s y) = length x)
    by (intros s y Hy; unfold rhs; rewrite Har; exact Hy).
  assert (H1 : length K1 = length x) by (apply HL; reflexivity).
  assert (H2 : length K2 = length x)
    by (apply HL, ladd_length; now rewrite lscale_length).
  assert (H3 : length K3 = length x)
    by (apply HL, ladd_length; now rewrite lscale_length).
  assert (H4 : length K4 = length x)
    by (apply HL, ladd_length; now rewrite lscale_length).
  exact (rk4_loop dt x K1 K2 K3 K4 H1 H2 H3 H4 [] [] [] [] [] []
                  eq_refl eq_refl eq_refl eq_refl).
Qed.

End IntegratorFacts.

(** C1, for a positive step count.  For every state list [x], times [fromT]
    and [toT], configured step count [N >= 1] and right-hand side that
    returns one derivative per element of the state: [solve] returns the
    state after [N] applications of [solve_one_step] with
    [dt = (toT - fromT) / N], the state being threaded and step [k] taken at
    time [fromT + k*dt] (for the Euler and for the RK4 integrator); and each
    RK4 [solve_one_step] returns, elementwise,
    [x + dt/6 * (k1 + 2*k2 + 2*k3 + k4)] with the four stages of the
    classical method, each evaluated with the control input at its stage
    time and with [pars]. *)
Theorem rk_solve_spec {E : Type} {SE : StateElem E} {U P : Type}
        (self : @RK.RKIntegrator E U P) (x : list E) (fromT toT : R) :
  (1 <= RK.nrOfTimeSteps self)%Z ->
  rhs_keeps_arity self ->
  RK.RK4_solve self (RK.PyList x) fromT toT
  = Ok (RK.PyList (spec_solve self (spec_rk4_step self) x fromT toT)) /\
  RK.EulerForward_solve self (RK.PyList x) fromT toT
  = Ok (RK.PyList (spec_solve self (spec_euler_step self) x fromT toT)) /\
  forall y t dt,
    RK.RK4_solve_one_step self (RK.PyList y) t dt = Ok (spec_rk4_step self y t dt).
Proof.
  intros HN Har. split; [|split].
  - apply solve_threads; [exact HN|]. intros y t h. now apply rk4_step_spec.
  - apply solve_threads; [exact HN|]. intros y t h. apply euler_step_spec.
  - intros y t dt. now apply rk4_step_spec.
Qed.

Lemma rk_solve_spec_witness :
  RK.RK4_solve (decay 2) (RK.PyList [1]) 0 1
  = Ok (RK.PyList (spec_solve (decay 2) (spec_rk4_step (decay 2)) [1] 0 1)) /\
  RK.EulerForward_solve (decay 2) (RK.PyList [1]) 0 1
  = Ok (RK.PyList (spec_solve (decay 2) (spec_euler_step (decay 2)) [1] 0 1)).
Proof.
  destruct (rk_solve_spec (decay 2) [1] 0 1) as (H1 & H2 & _).
  - simpl. lia.
  - intros t y c p. simpl. apply length_map.
  - split; [exact H1 | exact H2].
Defined.

(** One RK4 step of size 1 takes 1 to 3/8; one Euler step takes it to 0. *)
Example rk4_decay_one_step :
  RK.RK4_solve (decay 1) (RK.PyList [1]) 0 1 = Ok (RK.PyList [3 / 8]) /\
  RK.EulerForward_solve (decay 1) (RK.PyList [1]) 0 1 = Ok (RK.PyList [0]).
Proof.
  unfold RK.RK4_solve, RK.EulerForward_solve, RK.solve, linspace, range,
    RK.EulerForward_solve_one_step, RK.xpyts.
  split; simpl; apply (f_equal (fun a => Ok (RK.PyList [a]))); lra.
Qed.

(** C1, as stated for every step count, fails: with [N = 0] the sample
    points are the single point [fromT], reading the second one raises, and
    [solve] returns no state, where zero steps would return [x]. *)
Lemma solve_zero_steps_raises :
  RK.RK4_solve (decay 0) (RK.PyList [1]) 0 1 = Raise IndexError /\
  RK.EulerForward_solve (decay 0) (RK.PyList [1]) 0 1 = Raise IndexError /\
  spec_solve (decay 0) (spec_rk4_step (decay 0)) [1] 0 1 = [1].
Proof.
  repeat split.
Qed.

(** ** The check of the state argument *)

(** C8, as the code has it.  [solve] raises the assertion error for every
    argument that is not a list, whatever the integrator; [solve_one_step]
    makes no check: the Euler step returns for every sequence. *)
Theorem solve_rejects_non_list {E : Type} {SE : StateElem E} {U P : Type}
        (one_step : @RK.RKIntegrator E U P -> RK.pyseq -> R -> R -> result (list E))
        (self : @RK.RKIntegrator E U P) (l : list E) (fromT toT t dt : R) :
  RK.solve one_step self (RK.PyTuple l) fromT toT = Raise AssertionError /\
  RK.EulerForward_solve self (RK.PyTuple l) fromT toT = Raise AssertionError /\
  RK.RK4_solve self (RK.PyTuple l) fromT toT = Raise AssertionError /\
  is_ok (RK.EulerForward_solve_one_step self (RK.PyTuple l) t dt) = true.
Proof.
  repeat split.
Qed.

(** C8, as stated, fails for [solve_one_step]: on a tuple holding 1, both
    the Euler and the RK4 step return a new state. *)
Lemma solve_one_step_accepts_tuple :
  RK.EulerForward_solve_one_step (decay 1) (RK.PyTuple [1]) 0 (1 / 2)
  = Ok [1 + - 1 * (1 / 2)] /\
  is_ok (RK.RK4_solve_one_step (decay 1) (RK.PyTuple [1]) 0 (1 / 2)) = true.
Proof.
  split; reflexivity.
Qed.

(** * Further properties of the engine *)

(** ** The values of the shifts *)

Lemma norm_index_ok_inv (n : nat) (k : Z) (j : nat) :
  norm_index n k = Ok j ->
  (j < n)%nat /\ ((0 <= k)%Z /\ j = Z.to_nat k \/ (k < 0)%Z /\ Z.of_nat j = (Z.of_nat n + k)%Z).
Proof.
  unfold norm_index.
  destruct (Z.leb_spec 0 k).
  - destruct (Z.ltb_spec k (Z.of_nat n)); [|discriminate].
    intros E. injection E as <-. split; [lia|]. left. split; [lia|reflexivity].
  - destruct (Z.leb_spec (- Z.of_nat n) k); [|discriminate].
    intros E. injection E as <-. split; [lia|]. right. split; lia.
Qed.

Lemma norm_index_raise_inv (n : nat) (k : Z) (e : exn) :
  norm_index n k = Raise e -> e = IndexError.
Proof.
  unfold norm_index.
  destruct (0 <=? k)%Z; [destruct (k <? Z.of_nat n)%Z | destruct (- Z.of_nat n <=? k)%Z];
    intros E; try discriminate; now injection E.
Qed.

Section ShiftValues.

Variable fd : FD.FD.
Variable ax : nat.
Variable I : ndarray.

Let n := axis_len ax I.

(** A shift returns exactly when the edge it reads exists, and otherwise
    raises [IndexError]. *)
Lemma shift_plus_raises :
  ~ edge_ok fd ax I -> FD.shift_plus fd ax I = Raise IndexError.
Proof.
  unfold edge_ok, FD.shift_plus, select, assign. fold n. intros H.
  set (r0 := assign_slice ax 0 (n - 1) (zeros (shape I)) (slice ax (Nat.min 1 n) n I)).
  change (axis_len ax r0) with n.
  destruct (FD.bcNeumannZero fd).
  - assert (n = 0%nat) by lia. rewrite H0. reflexivity.
  - destruct n as [|[|m]]; [reflexivity | reflexivity | lia].
Qed.

Lemma shift_minus_raises :
  ~ edge_ok fd ax I -> FD.shift_minus fd ax I = Raise IndexError.
Proof.
  unfold edge_ok, FD.shift_minus, select, assign. fold n. intros H.
  set (r0 := assign_slice ax (Nat.min 1 n) n (zeros (shape I)) (slice ax 0 (n - 1) I)).
  change (axis_len ax r0) with n.
  destruct (FD.bcNeumannZero fd).
  - assert (n = 0%nat) by lia. rewrite H0. reflexivity.
  - destruct n as [|[|m]]; [reflexivity | reflexivity | lia].
Qed.

Lemma edge_ok_dec : edge_ok fd ax I \/ ~ edge_ok fd ax I.
Proof.
  unfold edge_ok. destruct (FD.bcNeumannZero fd); lia.
Qed.

Lemma shift_plus_ok_inv (r : ndarray) :
  FD.shift_plus fd ax I = Ok r -> edge_ok fd ax I.
Proof.
  intros H. destruct edge_ok_dec as [He|He]; [exact He|].
  rewrite (shift_plus_raises He) in H. discriminate.
Qed.

Lemma shift_minus_ok_inv (r : ndarray) :
  FD.shift_minus fd ax I = Ok r -> edge_ok fd ax I.
Proof.
  intros H. destruct edge_ok_dec as [He|He]; [exact He|].
  rewrite (shift_minus_raises He) in H. discriminate.
Qed.

Lemma shift_plus_data (r : ndarray) (i : index) :
  FD.shift_plus fd ax I = Ok r -> (ax < length i)%nat ->
  data r i = plus_val (FD.bcNeumannZero fd) ax n (data I) i.
Proof.
  intros Hr Hax. unfold plus_val.
  destruct (Nat.eqb_spec (axis_get ax i) (n - 1)) as [E|E].
  - apply (shift_plus_edge fd ax I r i Hr Hax E).
  - pose proof (shift_plus_ok_inv r Hr) as He.
    revert Hr. unfold edge_ok, FD.shift_plus, select, assign in *. fold n in He |- *.
    set (r0 := assign_slice ax 0 (n - 1) (zeros (shape I)) (slice ax (Nat.min 1 n) n I)).
    change (axis_len ax r0) with n.
    assert (Hr0 : data r0 i = if (axis_get ax i <? n - 1)%nat
                              then data I (axis_set ax (S (axis_get ax i)) i) else 0).
    { subst r0. cbn [assign_slice data slice zeros]. cbn [Nat.leb andb].
      destruct (Nat.ltb_spec (axis_get ax i) (n - 1)); [|reflexivity].
      rewrite Nat.sub_0_r, axis_set_same.
      replace (Nat.min 1 n) with 1%nat by lia. reflexivity. }
    destruct (FD.bcNeumannZero fd).
    + change (-1)%Z with (- Z.of_nat 1)%Z.
      rewrite !norm_index_from_end by lia. cbn [bind].
      intros Hr. injection Hr as <-. cbn [data].
      destruct (Nat.eqb_spec (axis_get ax i) (n - 1)); [contradiction|]. exact Hr0.
    + change (-1)%Z with (- Z.of_nat 1)%Z. change (-2)%Z with (- Z.of_nat 2)%Z.
      rewrite !norm_index_from_end by lia. cbn [bind].
      intros Hr. injection Hr as <-. cbn [data].
      destruct (Nat.eqb_spec (axis_get ax i) (n - 1)); [contradiction|]. exact Hr0.
Qed.

Lemma shift_minus_data (r : ndarray) (i : index) :
  FD.shift_minus fd ax I = Ok r -> (ax < length i)%nat ->
  data r i = minus_val (FD.bcNeumannZero fd) ax n (data I) i.
Proof.
  intros Hr Hax. unfold minus_val.
  destruct (Nat.eqb_spec (axis_get ax i) 0) as [E|E].
  - apply (shift_minus_edge fd ax I r i Hr Hax E).
  - pose proof (shift_minus_ok_inv r Hr) as He.
    revert Hr. unfold edge_ok, FD.shift_minus, select, assign in *. fold n in He |- *.
    set (r0 := assign_slice ax (Nat.min 1 n) n (zeros (shape I)) (slice ax 0 (n - 1) I)).
    change (axis_len ax r0) with n.
    assert (Hr0 : data r0 i = if (axis_get ax i <? n)%nat
                              then data I (axis_set ax (axis_get ax i - 1) i) else 0).
    { subst r0. cbn [assign_slice data slice zeros].
      destruct (Nat.ltb_spec (axis_get ax i) n).
      - destruct (Nat.leb_spec (Nat.min 1 n) (axis_get ax i)); [|lia].
        cbn [andb]. rewrite axis_get_set by assumption. rewrite axis_set_twice.
        replace (Nat.min 1 n) with 1%nat by lia. reflexivity.
      - now rewrite andb_false_r. }
    destruct (FD.bcNeumannZero fd).
    + change 0%Z with (Z.of_nat 0).
      rewrite !norm_index_nonneg by lia. cbn [bind].
      intros Hr. injection Hr as <-. cbn [data].
      destruct (Nat.eqb_spec (axis_get ax i) 0); [contradiction|]. exact Hr0.
    + change 0%Z with (Z.of_nat 0). change 1%Z with (Z.of_nat 1).
      rewrite !norm_index_nonneg by lia. cbn [bind].
      intros Hr. injection Hr as <-. cbn [data].
      destruct (Nat.eqb_spec (axis_get ax i) 0); [contradiction|]. exact Hr0.
Qed.

End ShiftValues.

Lemma bind_ok_inv {A B : Type} (c : result A) (k : A -> result B) (b : B) :
  bind c k = Ok b -> exists a, c = Ok a /\ k a = Ok b.
Proof. destruct c as [a|e]; simpl; [eauto|discriminate]. Qed.

Lemma spacing_at_nth (fd : FD.FD) (k : nat) (h : R) :
  FD.spacing_at fd k = Ok h ->
  nth k (FD.spacing fd) 0 = h /\ (k < length (FD.spacing fd))%nat.
Proof.
  unfold FD.spacing_at. destruct (nth_error (FD.spacing fd) k) as [x|] eqn:E;
    [|discriminate].
  intros H. injection H as <-. split.
  - now apply nth_error_nth.
  - apply nth_error_Some. congruence.
Qed.

Lemma diff_cc_unfold (fd : FD.FD) (a : axis) :
  diff_cc fd a
  = FD.second_central fd (fun e => shift_p e a) (fun e => shift_m e a) (axis_index a).
Proof. destruct a; reflexivity. Qed.

(** What a returned second central difference holds. *)
Lemma diff_cc_data (fd : FD.FD) (a : axis) (I r : ndarray) :
  (axis_index a < ndim I <= 3)%nat ->
  diff_cc fd a I = Ok r ->
  shape r = shape I /\
  edge_ok fd (axis_index a) I /\
  (axis_index a < length (FD.spacing fd))%nat /\
  forall i, length i = ndim I -> data r i = dd_val fd I (axis_index a) i.
Proof.
  intros Hdim. rewrite diff_cc_unfold. unfold FD.second_central.
  destruct (shift_p_unfold fd a I Hdim) as [-> ->]. intros H.
  apply bind_ok_inv in H. destruct H as (pI & EpI & H).
  apply bind_ok_inv in H. destruct H as (mI & EmI & H).
  apply bind_ok_inv in H. destruct H as (h & Eh & H).
  injection H as <-.
  pose proof (shift_plus_ok_inv fd _ I pI EpI) as He.
  destruct (shift_plus_ok fd _ I He) as (pI' & EpI' & Sp).
  rewrite EpI in EpI'. injection EpI' as <-.
  destruct (spacing_at_nth fd _ h Eh) as [Hh Hlen].
  repeat split; auto.
  intros i Hi. cbn [tdivs tadd tsub smul data]. unfold dd_val.
  rewrite (shift_plus_data fd _ I pI i EpI) by lia.
  rewrite (shift_minus_data fd _ I mI i EmI) by lia.
  now rewrite Hh.
Qed.

Lemma diff_cc_ok (fd : FD.FD) (a : axis) (I : ndarray) :
  (axis_index a < ndim I <= 3)%nat ->
  edge_ok fd (axis_index a) I ->
  (axis_index a < length (FD.spacing fd))%nat ->
  exists r, diff_cc fd a I = Ok r.
Proof.
  intros H1 H2 H3. rewrite diff_cc_unfold.
  destruct (second_central_ok fd a I H1 H2 H3) as (r & E & _). eauto.
Qed.

(** With a supported number of axes, a second central difference that does
    not return raises [IndexError]. *)
Lemma diff_cc_raise (fd : FD.FD) (a : axis) (I : ndarray) (e : exn) :
  (axis_index a < ndim I <= 3)%nat ->
  diff_cc fd a I = Raise e ->
  e = IndexError /\
  (~ edge_ok fd (axis_index a) I \/ (length (FD.spacing fd) <= axis_index a)%nat).
Proof.
  intros Hdim. rewrite diff_cc_unfold. unfold FD.second_central.
  destruct (shift_p_unfold fd a I Hdim) as [-> ->].
  destruct (edge_ok_dec fd (axis_index a) I) as [He|He].
  - destruct (shift_plus_ok fd _ I He) as (pI & -> & _).
    destruct (shift_minus_ok fd _ I He) as (mI & -> & _). cbn [bind].
    unfold FD.spacing_at.
    destruct (nth_error (FD.spacing fd) (axis_index a)) as [h|] eqn:E; cbn [bind].
    + discriminate.
    + intros H. injection H as <-. split; [reflexivity|]. right.
      now apply nth_error_None.
  - rewrite (shift_plus_raises fd _ I He). cbn [bind].
    intros H. injection H as <-. auto.
Qed.

Lemma lap_unfold (fd : FD.FD) (I : ndarray) :
  FD.lap fd I =
  match ndim I with
  | 1%nat => diff_cc fd AxisX I
  | 2%nat => a <- diff_cc fd AxisX I ;; b <- diff_cc fd AxisY I ;; Ok (tadd a b)
  | 3%nat => a <- diff_cc fd AxisX I ;; b <- diff_cc fd AxisY I ;;
             c <- diff_cc fd AxisZ I ;; Ok (tadd (tadd a b) c)
  | _ => Raise FD.unsupported_dimension
  end.
Proof. reflexivity. Qed.

Lemma lap_data (fd : FD.FD) (I L : ndarray) :
  FD.lap fd I = Ok L ->
  lap_defined fd I /\ shape L = shape I /\
  forall i, length i = ndim I -> data L i = lap_val fd I i.
Proof.
  rewrite lap_unfold. unfold lap_defined, lap_val.
  destruct (ndim I) as [|[|[|[|d]]]] eqn:En; try discriminate; intros H.
  - destruct (diff_cc_data fd AxisX I L) as (S & E & Hs & D); [simpl; lia | exact H |].
    rewrite En in D. simpl in *. repeat split; try lia; auto.
    intros ax Hax. assert (ax = 0%nat) by lia. now subst.
  - apply bind_ok_inv in H. destruct H as (a & Ea & H).
    apply bind_ok_inv in H. destruct H as (b & Eb & H). injection H as <-.
    destruct (diff_cc_data fd AxisX I a) as (Sa & E0 & Hs0 & Da); [simpl; lia | exact Ea |].
    destruct (diff_cc_data fd AxisY I b) as (Sb & E1 & Hs1 & Db); [simpl; lia | exact Eb |].
    rewrite En in Da, Db. simpl in *. repeat split; try lia; auto.
    + intros ax Hax. destruct ax as [|[|ax]]; auto; lia.
    + intros i Hi. now rewrite Da, Db.
  - apply bind_ok_inv in H. destruct H as (a & Ea & H).
    apply bind_ok_inv in H. destruct H as (b & Eb & H).
    apply bind_ok_inv in H. destruct H as (c & Ec & H). injection H as <-.
    destruct (diff_cc_data fd AxisX I a) as (Sa & E0 & Hs0 & Da); [simpl; lia | exact Ea |].
    destruct (diff_cc_data fd AxisY I b) as (Sb & E1 & Hs1 & Db); [simpl; lia | exact Eb |].
    destruct (diff_cc_data fd AxisZ I c) as (Sc & E2 & Hs2 & Dc); [simpl; lia | exact Ec |].
    rewrite En in Da, Db, Dc. simpl in *. repeat split; try lia; auto.
    + intros ax Hax. destruct ax as [|[|[|ax]]]; auto; lia.
    + intros i Hi. now rewrite Da, Db, Dc.
Qed.

Lemma lap_defined_ok (fd : FD.FD) (I : ndarray) :
  lap_defined fd I -> exists L, FD.lap fd I = Ok L.
Proof.
  intros (Hdim & Hsp & He). rewrite lap_unfold.
  assert (HA : forall a, (axis_index a < ndim I)%nat -> exists r, diff_cc fd a I = Ok r).
  { intros a Ha. apply diff_cc_ok; [lia | now apply He | lia]. }
  destruct (ndim I) as [|[|[|[|d]]]] eqn:En; try lia.
  - apply (HA AxisX). simpl; lia.
  - destruct (HA AxisX) as [a ->]; [simpl; lia|].
    destruct (HA AxisY) as [b ->]; [simpl; lia|]. cbn [bind]. eauto.
  - destruct (HA AxisX) as [a ->]; [simpl; lia|].
    destruct (HA AxisY) as [b ->]; [simpl; lia|].
    destruct (HA AxisZ) as [c ->]; [simpl; lia|]. cbn [bind]. eauto.
Qed.

(** X1. For a field of one to three dimensions and an axis it has, with the
    edge the boundary rule reads: both shifts return an array of the shape of
    the field; away from the last coordinate the forward shift holds the
    value one cell further along the axis, and away from the first
    coordinate the backward shift holds the value one cell before. *)
Theorem shift_interior_values (fd : FD.FD) (a : axis) (I : ndarray) :
  (axis_index a < ndim I <= 3)%nat ->
  edge_ok fd (axis_index a) I ->
  exists rp rm,
    shift_p fd a I = Ok rp /\ shift_m fd a I = Ok rm /\
    shape rp = shape I /\ shape rm = shape I /\
    forall i, in_range (shape I) i ->
      ((axis_get (axis_index a) i < axis_len (axis_index a) I - 1)%nat ->
       data rp i = data I (axis_set (axis_index a) (S (axis_get (axis_index a) i)) i)) /\
      ((1 <= axis_get (axis_index a) i)%nat ->
       data rm i = data I (axis_set (axis_index a) (axis_get (axis_index a) i - 1) i)).
Proof.
  intros Hdim Hedge.
  destruct (shift_p_unfold fd a I Hdim) as [Hp Hm].
  destruct (shift_plus_ok fd (axis_index a) I Hedge) as [rp [Erp Sp]].
  destruct (shift_minus_ok fd (axis_index a) I Hedge) as [rm [Erm Sm]].
  exists rp, rm. rewrite Hp, Hm. repeat split; auto.
  - intros Hi.
    rewrite (shift_plus_data fd _ I rp i Erp)
      by (rewrite (in_range_length _ _ H); unfold ndim in Hdim; lia).
    unfold plus_val.
    destruct (Nat.eqb_spec (axis_get (axis_index a) i) (axis_len (axis_index a) I - 1));
      [lia|].
    destruct (Nat.ltb_spec (axis_get (axis_index a) i) (axis_len (axis_index a) I - 1));
      [reflexivity|lia].
  - intros Hi.
    rewrite (shift_minus_data fd _ I rm i Erm)
      by (rewrite (in_range_length _ _ H); unfold ndim in Hdim; lia).
    unfold minus_val.
    destruct (Nat.eqb_spec (axis_get (axis_index a) i) 0); [lia|].
    assert (Hlt : (axis_get (axis_index a) i < axis_len (axis_index a) I)%nat)
      by (apply in_range_axis; [exact H | unfold ndim in Hdim; lia]).
    destruct (Nat.ltb_spec (axis_get (axis_index a) i) (axis_len (axis_index a) I));
      [reflexivity|lia].
Qed.

Lemma shift_interior_values_witness :
  exists rp rm,
    shift_p (FD.mkFD 2 [1; 1] false) AxisX ramp23 = Ok rp /\
    shift_m (FD.mkFD 2 [1; 1] false) AxisX ramp23 = Ok rm /\
    shape rp = shape ramp23 /\ shape rm = shape ramp23 /\
    forall i, in_range (shape ramp23) i ->
      ((axis_get (axis_index AxisX) i < axis_len (axis_index AxisX) ramp23 - 1)%nat ->
       data rp i
       = data ramp23 (axis_set (axis_index AxisX) (S (axis_get (axis_index AxisX) i)) i)) /\
      ((1 <= axis_get (axis_index AxisX) i)%nat ->
       data rm i
       = data ramp23 (axis_set (axis_index AxisX) (axis_get (axis_index AxisX) i - 1) i)).
Proof.
  apply (shift_interior_values (FD.mkFD 2 [1; 1] false) AxisX ramp23).
  - unfold ndim, ramp23; simpl; lia.
  - unfold edge_ok, axis_len, ramp23; simpl; lia.
Defined.

(** X2. The engine is refused for a spacing of no entry or of more than
    three, and an operator of an axis that the field does not have among its
    one to three axes (a field of no axis or of more than three, a Y operator
    on a one-dimensional field, a Z operator on a field of fewer than three
    axes) raises the "only dimensions 1 to 3" error, for shifts and
    differences alike. *)
Theorem unsupported_dimension_raises (sp : list R) (bc : bool) (fd : FD.FD)
        (a : axis) (I : ndarray) :
  ((length sp = 0)%nat \/ (4 <= length sp)%nat ->
   FD.init sp bc = Raise FD.unsupported_dimension) /\
  (~ (axis_index a < ndim I <= 3)%nat ->
   shift_p fd a I = Raise FD.unsupported_dimension /\
   shift_m fd a I = Raise FD.unsupported_dimension /\
   diff_b fd a I = Raise FD.unsupported_dimension /\
   diff_f fd a I = Raise FD.unsupported_dimension /\
   diff_c fd a I = Raise FD.unsupported_dimension /\
   diff_cc fd a I = Raise FD.unsupported_dimension).
Proof.
  split.
  - intros H. destruct sp as [|h0 [|h1 [|h2 [|h3 r]]]]; simpl in H; try lia; reflexivity.
  - intros H.
    assert (Hp : shift_p fd a I = Raise FD.unsupported_dimension).
    { unfold shift_p, FD.xp, FD.yp, FD.zp.
      destruct a; simpl in H; destruct (ndim I) as [|[|[|[|d]]]]; try lia; reflexivity. }
    assert (Hm : shift_m fd a I = Raise FD.unsupported_dimension).
    { unfold shift_m, FD.xm, FD.ym, FD.zm.
      destruct a; simpl in H; destruct (ndim I) as [|[|[|[|d]]]]; try lia; reflexivity. }
    destruct (diff_unfold fd a) as (-> & -> & ->). rewrite diff_cc_unfold.
    unfold FD.central, FD.forward, FD.backward, FD.second_central.
    rewrite Hp, Hm. repeat split.
Qed.

Lemma unsupported_dimension_raises_witness :
  FD.init [] true = Raise FD.unsupported_dimension /\
  diff_c (FD.mkFD 1 [1] true) AxisY squares3 = Raise FD.unsupported_dimension.
Proof.
  destruct (unsupported_dimension_raises [] true (FD.mkFD 1 [1] true) AxisY squares3)
    as (H1 & H2).
  split.
  - apply H1. left. reflexivity.
  - apply H2. unfold ndim, squares3. simpl. lia.
Defined.

(** X3. On a field of one to three dimensions, along an axis that is empty,
    or that has a single cell when the engine extrapolates linearly, both
    shifts and every difference raise [IndexError]. *)
Theorem missing_edge_raises (fd : FD.FD) (a : axis) (I : ndarray) :
  (axis_index a < ndim I <= 3)%nat ->
  ~ edge_ok fd (axis_index a) I ->
  shift_p fd a I = Raise IndexError /\
  shift_m fd a I = Raise IndexError /\
  diff_b fd a I = Raise IndexError /\
  diff_f fd a I = Raise IndexError /\
  diff_c fd a I = Raise IndexError /\
  diff_cc fd a I = Raise IndexError.
Proof.
  intros Hdim He.
  destruct (shift_p_unfold fd a I Hdim) as [Hp Hm].
  rewrite (shift_plus_raises fd _ I He) in Hp.
  rewrite (shift_minus_raises fd _ I He) in Hm.
  destruct (diff_unfold fd a) as (-> & -> & ->). rewrite diff_cc_unfold.
  unfold FD.central, FD.forward, FD.backward, FD.second_central.
  rewrite Hp, Hm. repeat split.
Qed.

(** A single cell. *)
Lemma missing_edge_raises_witness :
  diff_c (FD.mkFD 1 [1] false) AxisX (mkArr [1%nat] (fun _ => 1)) = Raise IndexError /\
  shift_p (FD.mkFD 1 [1] true) AxisX (mkArr [0%nat] (fun _ => 1)) = Raise IndexError.
Proof.
  split.
  - apply (missing_edge_raises (FD.mkFD 1 [1] false) AxisX (mkArr [1%nat] (fun _ => 1))).
    + unfold ndim; simpl; lia.
    + unfold edge_ok, axis_len; simpl; lia.
  - apply (missing_edge_raises (FD.mkFD 1 [1] true) AxisX (mkArr [0%nat] (fun _ => 1))).
    + unfold ndim; simpl; lia.
    + unfold edge_ok, axis_len; simpl; lia.
Defined.

Lemma lap_raise (fd : FD.FD) (I : ndarray) (e : exn) :
  (1 <= ndim I <= 3)%nat -> FD.lap fd I = Raise e -> e = IndexError.
Proof.
  intros Hdim. rewrite lap_unfold.
  assert (HA : forall a e', (axis_index a < ndim I)%nat ->
                            diff_cc fd a I = Raise e' -> e' = IndexError).
  { intros a e' Ha H. apply (diff_cc_raise fd a I e'); [lia | exact H]. }
  destruct (ndim I) as [|[|[|[|d]]]] eqn:En; try lia.
  - apply (HA AxisX). simpl; lia.
  - destruct (diff_cc fd AxisX I) as [ra|ea] eqn:Ea; cbn [bind].
    + destruct (diff_cc fd AxisY I) as [rb|eb] eqn:Eb; cbn [bind]; [discriminate|].
      intros H. injection H as <-. apply (HA AxisY); [simpl; lia | exact Eb].
    + intros H. injection H as <-. apply (HA AxisX); [simpl; lia | exact Ea].
  - destruct (diff_cc fd AxisX I) as [ra|ea] eqn:Ea; cbn [bind].
    + destruct (diff_cc fd AxisY I) as [rb|eb] eqn:Eb; cbn [bind].
      * destruct (diff_cc fd AxisZ I) as [rc|ec] eqn:Ec; cbn [bind]; [discriminate|].
        intros H. injection H as <-. apply (HA AxisZ); [simpl; lia | exact Ec].
      * intros H. injection H as <-. apply (HA AxisY); [simpl; lia | exact Eb].
    + intros H. injection H as <-. apply (HA AxisX); [simpl; lia | exact Ea].
Qed.

Lemma lap_undefined_raises (fd : FD.FD) (I : ndarray) :
  (1 <= ndim I <= 3)%nat -> ~ lap_defined fd I -> FD.lap fd I = Raise IndexError.
Proof.
  intros Hdim Hn. destruct (FD.lap fd I) as [L|e] eqn:E.
  - exfalso. apply Hn. now destruct (lap_data fd I L E).
  - f_equal. now apply (lap_raise fd I e).
Qed.

(** X4. The Laplacian returns, with the shape of the field, exactly when the
    field has one to three axes, the engine has a spacing for each, and each
    axis has its edge.  Otherwise it raises: the "only dimensions 1 to 3"
    error for a field of no axis or of more than three, and [IndexError]
    when an axis is empty (or has one cell, under linear extrapolation) or
    the engine was built for fewer axes than the field has. *)
Theorem lap_domain (fd : FD.FD) (I : ndarray) :
  (lap_defined fd I -> exists L, FD.lap fd I = Ok L /\ shape L = shape I) /\
  (~ (1 <= ndim I <= 3)%nat -> FD.lap fd I = Raise FD.unsupported_dimension) /\
  ((1 <= ndim I <= 3)%nat -> ~ lap_defined fd I -> FD.lap fd I = Raise IndexError).
Proof.
  split; [|split].
  - intros Hd. destruct (lap_defined_ok fd I Hd) as [L EL].
    exists L. split; [exact EL|]. now destruct (lap_data fd I L EL) as (_ & S & _).
  - intros H. unfold FD.lap. destruct (ndim I) as [|[|[|[|d]]]]; try lia; reflexivity.
  - apply lap_undefined_raises.
Qed.

Lemma lap_domain_witness :
  (exists L, FD.lap (FD.mkFD 2 [1; 1] true) ramp23 = Ok L /\ shape L = shape ramp23) /\
  FD.lap (FD.mkFD 1 [1] true) ramp23 = Raise IndexError.
Proof.
  split.
  - apply (lap_domain (FD.mkFD 2 [1; 1] true) ramp23).
    unfold lap_defined, ndim, edge_ok, axis_len, ramp23. simpl.
    repeat split; try lia. intros [|[|ax]] H; simpl; lia.
  - apply (lap_domain (FD.mkFD 1 [1] true) ramp23).
    + unfold ndim, ramp23; simpl; lia.
    + unfold lap_defined, ndim, ramp23. simpl. lia.
Defined.

(** ** Relations between the differences *)

(** X5. Under the conditions under which the differences along an axis
    return (positive spacing, a field of the configured dimension, the edge
    present), the second central difference is the forward difference minus
    the backward difference, divided by the spacing of the axis, at every
    index. *)
Theorem second_difference_of_first
        (sp : list R) (bc : bool) (fd : FD.FD) (a : axis) (I : ndarray) :
  FD.init sp bc = Ok fd ->
  Forall (fun h => 0 < h) sp ->
  ndim I = FD.dim fd ->
  (axis_index a < ndim I)%nat ->
  edge_ok fd (axis_index a) I ->
  exists cc f b h,
    diff_cc fd a I = Ok cc /\ diff_f fd a I = Ok f /\ diff_b fd a I = Ok b /\
    FD.spacing_at fd (axis_index a) = Ok h /\
    forall i, data cc i = (data f i - data b i) / h.
Proof.
  intros Hinit Hpos Hdim Hax Hedge.
  destruct (init_inv _ _ _ Hinit) as (Hsp & Hd & _ & Hlen).
  assert (Hdim3 : (axis_index a < ndim I <= 3)%nat) by lia.
  destruct (shift_p_unfold fd a I Hdim3) as [Hp Hm].
  destruct (shift_plus_ok fd (axis_index a) I Hedge) as [pI [EpI _]].
  destruct (shift_minus_ok fd (axis_index a) I Hedge) as [mI [EmI _]].
  destruct (spacing_at_positive fd (axis_index a)) as [h [Eh Hh]].
  { now rewrite Hsp. }
  { rewrite Hsp. lia. }
  destruct (diff_unfold fd a) as (_ & -> & ->). rewrite diff_cc_unfold.
  unfold FD.second_central, FD.forward, FD.backward.
  rewrite Hp, Hm, EpI, EmI. simpl. rewrite Eh. simpl.
  do 4 eexists. repeat split. intros i. simpl. field. lra.
Qed.

Lemma second_difference_of_first_witness :
  exists cc f b h,
    diff_cc (FD.mkFD 2 [1; 2] true) AxisY ramp23 = Ok cc /\
    diff_f (FD.mkFD 2 [1; 2] true) AxisY ramp23 = Ok f /\
    diff_b (FD.mkFD 2 [1; 2] true) AxisY ramp23 = Ok b /\
    FD.spacing_at (FD.mkFD 2 [1; 2] true) (axis_index AxisY) = Ok h /\
    forall i, data cc i = (data f i - data b i) / h.
Proof.
  apply (second_difference_of_first [1; 2] true (FD.mkFD 2 [1; 2] true) AxisY ramp23).
  - reflexivity.
  - repeat constructor; lra.
  - reflexivity.
  - unfold ndim, ramp23; simpl; lia.
  - unfold edge_ok, axis_len, ramp23; simpl; lia.
Defined.

(** ** Linearity of the Laplacian *)

Lemma plus_val_lincomb (bc : bool) (ax n : nat) (a b : R) (dI dJ : index -> R)
      (i : index) :
  plus_val bc ax n (fun k => a * dI k + b * dJ k) i
  = a * plus_val bc ax n dI i + b * plus_val bc ax n dJ i.
Proof.
  unfold plus_val.
  destruct (axis_get ax i =? n - 1)%nat; [destruct bc; ring|].
  destruct (axis_get ax i <? n - 1)%nat; ring.
Qed.

Lemma minus_val_lincomb (bc : bool) (ax n : nat) (a b : R) (dI dJ : index -> R)
      (i : index) :
  minus_val bc ax n (fun k => a * dI k + b * dJ k) i
  = a * minus_val bc ax n dI i + b * minus_val bc ax n dJ i.
Proof.
  unfold minus_val.
  destruct (axis_get ax i =? 0)%nat; [destruct bc; ring|].
  destruct (axis_get ax i <? n)%nat; ring.
Qed.

Lemma dd_val_lincomb (fd : FD.FD) (a b : R) (I J : ndarray) (ax : nat) (i : index) :
  shape J = shape I ->
  dd_val fd (lincomb a I b J) ax i = a * dd_val fd I ax i + b * dd_val fd J ax i.
Proof.
  intros HS. unfold dd_val, lincomb, axis_len. cbn [tadd smul shape data].
  rewrite HS, plus_val_lincomb, minus_val_lincomb. unfold Rdiv. ring.
Qed.

Lemma lap_val_lincomb (fd : FD.FD) (a b : R) (I J : ndarray) (i : index) :
  shape J = shape I ->
  lap_val fd (lincomb a I b J) i = a * lap_val fd I i + b * lap_val fd J i.
Proof.
  intros HS. unfold lap_val.
  assert (EJ : ndim J = ndim I) by (unfold ndim; now rewrite HS).
  change (ndim (lincomb a I b J)) with (ndim I). rewrite EJ.
  destruct (ndim I) as [|[|[|[|d]]]]; rewrite ?dd_val_lincomb by exact HS; ring.
Qed.

(** X6. With positive spacing, if the Laplacian returns on two fields of the
    same shape, it returns on every linear combination [a*I + b*J] of them,
    and its value there is the same combination of the two Laplacians at
    every index of the grid. *)
Theorem lap_linear (fd : FD.FD) (I J LI LJ : ndarray) (a b : R) :
  Forall (fun h => 0 < h) (FD.spacing fd) ->
  shape J = shape I ->
  FD.lap fd I = Ok LI ->
  FD.lap fd J = Ok LJ ->
  exists L,
    FD.lap fd (lincomb a I b J) = Ok L /\ shape L = shape I /\
    forall i, in_range (shape I) i -> data L i = a * data LI i + b * data LJ i.
Proof.
  intros _ HS EI EJ.
  destruct (lap_data fd I LI EI) as (HdI & SI & DI).
  destruct (lap_data fd J LJ EJ) as (_ & _ & DJ).
  destruct (lap_defined_ok fd (lincomb a I b J)) as [L EL].
  { exact HdI. }
  exists L. destruct (lap_data fd _ L EL) as (_ & SL & DL).
  split; [exact EL|]. split; [exact SL|].
  intros i Hi. pose proof (in_range_length _ _ Hi) as Hlen.
  rewrite DL by exact Hlen. rewrite DI by exact Hlen.
  rewrite DJ by (unfold ndim; now rewrite HS).
  now apply lap_val_lincomb.
Qed.

Lemma lap_linear_witness :
  exists L,
    FD.lap (FD.mkFD 1 [1] true) (lincomb 2 squares3 3 squares3) = Ok L /\
    shape L = shape squares3 /\
    forall i, in_range (shape squares3) i ->
              data L i = 2 * data (lap_of (FD.mkFD 1 [1] true) squares3) i
                         + 3 * data (lap_of (FD.mkFD 1 [1] true) squares3) i.
Proof.
  apply (lap_linear (FD.mkFD 1 [1] true) squares3 squares3); try reflexivity.
  repeat constructor; simpl; lra.
Defined.

(** ** Constant fields *)

Lemma plus_val_constant (bc : bool) (ax n : nat) (d : index -> R) (c : R) (i : index) :
  (forall k, d k = c) -> (axis_get ax i < n)%nat -> plus_val bc ax n d i = c.
Proof.
  intros Hc Hi. unfold plus_val.
  destruct (Nat.eqb_spec (axis_get ax i) (n - 1)).
  - destruct bc; rewrite ?Hc; ring.
  - destruct (Nat.ltb_spec (axis_get ax i) (n - 1)); [apply Hc | lia].
Qed.

Lemma minus_val_constant (bc : bool) (ax n : nat) (d : index -> R) (c : R) (i : index) :
  (forall k, d k = c) -> (axis_get ax i < n)%nat -> minus_val bc ax n d i = c.
Proof.
  intros Hc Hi. unfold minus_val.
  destruct (Nat.eqb_spec (axis_get ax i) 0).
  - destruct bc; rewrite ?Hc; ring.
  - destruct (Nat.ltb_spec (axis_get ax i) n); [apply Hc | lia].
Qed.

(** X7. On a field with the same value everywhere, under either boundary
    policy and with positive spacing, the backward, forward, central and
    second central differences along every axis are zero at every index of
    the grid. *)
Theorem differences_of_constant
        (sp : list R) (bc : bool) (fd : FD.FD) (a : axis) (I : ndarray) (c : R) :
  FD.init sp bc = Ok fd ->
  Forall (fun h => 0 < h) sp ->
  ndim I = FD.dim fd ->
  (axis_index a < ndim I)%nat ->
  edge_ok fd (axis_index a) I ->
  constant_on I c ->
  exists b f cd cc,
    diff_b fd a I = Ok b /\ diff_f fd a I = Ok f /\
    diff_c fd a I = Ok cd /\ diff_cc fd a I = Ok cc /\
    forall i, in_range (shape I) i ->
              data b i = 0 /\ data f i = 0 /\ data cd i = 0 /\ data cc i = 0.
Proof.
  intros Hinit Hpos Hdim Hax Hedge Hc.
  destruct (init_inv _ _ _ Hinit) as (Hsp & Hd & _ & Hlen).
  assert (Hdim3 : (axis_index a < ndim I <= 3)%nat) by lia.
  destruct (shift_p_unfold fd a I Hdim3) as [Hp Hm].
  destruct (shift_plus_ok fd (axis_index a) I Hedge) as [pI [EpI _]].
  destruct (shift_minus_ok fd (axis_index a) I Hedge) as [mI [EmI _]].
  destruct (spacing_at_positive fd (axis_index a)) as [h [Eh Hh]].
  { now rewrite Hsp. }
  { rewrite Hsp. lia. }
  destruct (diff_unfold fd a) as (-> & -> & ->). rewrite diff_cc_unfold.
  unfold FD.central, FD.second_central, FD.forward, FD.backward.
  rewrite Hp, Hm, EpI, EmI. simpl. rewrite Eh. simpl.
  do 4 eexists. repeat split; simpl.
  all: pose proof (in_range_length _ _ H) as Hl.
  all: assert (Hj : (axis_get (axis_index a) i < axis_len (axis_index a) I)%nat)
    by (apply in_range_axis; [exact H | unfold ndim in Hdim3; lia]).
  all: rewrite ?(shift_plus_data fd _ I pI i EpI) by (unfold ndim in Hdim3; lia).
  all: rewrite ?(shift_minus_data fd _ I mI i EmI) by (unfold ndim in Hdim3; lia).
  all: rewrite ?(plus_val_constant _ _ _ _ c i Hc Hj).
  all: rewrite ?(minus_val_constant _ _ _ _ c i Hc Hj).
  all: rewrite ?Hc; field; lra.
Qed.

Lemma differences_of_constant_witness :
  exists b f cd cc,
    diff_b (FD.mkFD 1 [2] false) AxisX (mkArr [3%nat] (fun _ => 7)) = Ok b /\
    diff_f (FD.mkFD 1 [2] false) AxisX (mkArr [3%nat] (fun _ => 7)) = Ok f /\
    diff_c (FD.mkFD 1 [2] false) AxisX (mkArr [3%nat] (fun _ => 7)) = Ok cd /\
    diff_cc (FD.mkFD 1 [2] false) AxisX (mkArr [3%nat] (fun _ => 7)) = Ok cc /\
    forall i, in_range [3%nat] i ->
              data b i = 0 /\ data f i = 0 /\ data cd i = 0 /\ data cc i = 0.
Proof.
  apply (differences_of_constant [2] false (FD.mkFD 1 [2] false) AxisX
                                 (mkArr [3%nat] (fun _ => 7)) 7).
  - reflexivity.
  - repeat constructor; lra.
  - reflexivity.
  - unfold ndim; simpl; lia.
  - unfold edge_ok, axis_len; simpl; lia.
  - intros i. reflexivity.
Defined.

(** ** The sum of the Laplacian *)

Lemma Rsum_map_scale {A : Type} (c : R) (f : A -> R) (l : list A) :
  Rsum (map (fun x => c * f x) l) = c * Rsum (map f l).
Proof.
  induction l as [|x l IH]; simpl; [ring|]. rewrite IH. ring.
Qed.

Lemma Rsum_map_zero {A : Type} (l : list A) : Rsum (map (fun _ => 0) l) = 0.
Proof. induction l as [|x l IH]; simpl; [reflexivity|]. rewrite IH. ring. Qed.

Lemma Rsum_flat_map {A B : Type} (F : B -> R) (g : A -> list B) (l : list A) :
  Rsum (map F (flat_map g l)) = Rsum (map (fun k => Rsum (map F (g k))) l).
Proof.
  induction l as [|k l IH]; [reflexivity|].
  simpl. rewrite map_app, Rsum_app, IH. reflexivity.
Qed.

Lemma Rsum_indices_cons (F : index -> R) (n : nat) (r : list nat) :
  Rsum (map F (indices (n :: r)))
  = Rsum (map (fun k => Rsum (map (fun i => F (k :: i)) (indices r))) (seq 0 n)).
Proof.
  cbn [indices]. rewrite Rsum_flat_map. apply Rsum_map_ext. intros k _.
  now rewrite map_map.
Qed.

Lemma indices_length (sh : list nat) (i : index) :
  In i (indices sh) -> length i = length sh.
Proof.
  revert i. induction sh as [|n r IH]; intros i Hi; cbn [indices] in Hi.
  - destruct Hi as [<-|[]]. reflexivity.
  - apply in_flat_map in Hi. destruct Hi as (k & _ & Hi).
    apply in_map_iff in Hi. destruct Hi as (i' & <- & Hi'). simpl. f_equal. now apply IH.
Qed.

Lemma indices_in_range (sh : list nat) (i : index) :
  In i (indices sh) -> in_range sh i.
Proof.
  revert i. induction sh as [|n r IH]; intros i Hi; cbn [indices] in Hi.
  - destruct Hi as [<-|[]]. exact Logic.I.
  - apply in_flat_map in Hi. destruct Hi as (k & Hk & Hi).
    apply in_map_iff in Hi. destruct Hi as (i' & <- & Hi'). simpl.
    apply in_seq in Hk. split; [lia | now apply IH].
Qed.

(** Along one axis, the replicated forward and backward shifts add up to
    twice the values. *)
Lemma telescope (G : nat -> R) (m : nat) :
  Rsum (map (fun k => if (k =? m - 1)%nat then G k
                      else if (k <? m - 1)%nat then G (S k) else 0) (seq 0 m))
  + Rsum (map (fun k => if (k =? 0)%nat then G k
                        else if (k <? m)%nat then G (k - 1)%nat else 0) (seq 0 m))
  = 2 * Rsum (map G (seq 0 m)).
Proof.
  destruct m as [|m]; [simpl; ring|].
  replace (S m - 1)%nat with m by lia.
  assert (HP : Rsum (map (fun k => if (k =? m)%nat then G k
                                   else if (k <? m)%nat then G (S k) else 0)
                         (seq 0 (S m)))
               = Rsum (map G (seq 1 m)) + G m).
  { rewrite seq_S, map_app, Rsum_app. cbn [map Rsum fold_right Nat.add].
    rewrite Nat.eqb_refl. rewrite Rplus_0_r. f_equal.
    rewrite <- seq_shift, map_map. apply Rsum_map_ext. intros k Hk.
    apply in_seq in Hk.
    destruct (Nat.eqb_spec k m); [lia|].
    destruct (Nat.ltb_spec k m); [reflexivity|lia]. }
  assert (HM : Rsum (map (fun k => if (k =? 0)%nat then G k
                                   else if (k <? S m)%nat then G (k - 1)%nat else 0)
                         (seq 0 (S m)))
               = G 0%nat + Rsum (map G (seq 0 m))).
  { cbn [seq map Rsum fold_right]. cbn [Nat.eqb]. f_equal.
    rewrite <- seq_shift, map_map. apply Rsum_map_ext. intros k Hk.
    apply in_seq in Hk. cbn [Nat.eqb].
    destruct (Nat.ltb_spec (S k) (S m)); [|lia].
    f_equal. lia. }
  rewrite HP, HM.
  assert (E1 : Rsum (map G (seq 0 (S m))) = G 0%nat + Rsum (map G (seq 1 m)))
    by reflexivity.
  assert (E2 : Rsum (map G (seq 0 (S m))) = Rsum (map G (seq 0 m)) + G m)
    by (rewrite seq_S, map_app, Rsum_app; simpl; ring).
  lra.
Qed.

Lemma Rsum_map_if {A : Type} (c : bool) (f g : A -> R) (l : list A) :
  Rsum (map (fun x => if c then f x else g x) l)
  = if c then Rsum (map f l) else Rsum (map g l).
Proof. now destruct c. Qed.

Lemma shifts_sum (sh : list nat) :
  forall (ax : nat) (d : index -> R),
    (ax < length sh)%nat ->
    Rsum (map (plus_val true ax (nth ax sh 0%nat) d) (indices sh))
    + Rsum (map (minus_val true ax (nth ax sh 0%nat) d) (indices sh))
    = 2 * Rsum (map d (indices sh)).
Proof.
  induction sh as [|n r IH]; intros ax d Hax; [simpl in Hax; lia|].
  rewrite !Rsum_indices_cons.
  destruct ax as [|ax].
  - cbn [nth]. unfold plus_val, minus_val. cbn [axis_get nth axis_set].
    set (G := fun k => Rsum (map (fun i => d (k :: i)) (indices r))).
    rewrite <- (telescope G n). f_equal.
    + apply Rsum_map_ext. intros k _. rewrite Rsum_map_if. unfold G.
      destruct (k =? n - 1)%nat; [reflexivity|].
      rewrite Rsum_map_if. destruct (k <? n - 1)%nat; [reflexivity|].
      apply Rsum_map_zero.
    + apply Rsum_map_ext. intros k _. rewrite Rsum_map_if. unfold G.
      destruct (k =? 0)%nat; [reflexivity|].
      rewrite Rsum_map_if. destruct (k <? n)%nat; [reflexivity|].
      apply Rsum_map_zero.
  - cbn [nth]. simpl in Hax.
    rewrite <- Rsum_map_plus, <- Rsum_map_scale.
    apply Rsum_map_ext. intros k _.
    etransitivity; [|exact (IH ax (fun i => d (k :: i)) ltac:(lia))].
    reflexivity.
Qed.

Lemma dd_val_sum (fd : FD.FD) (I : ndarray) (ax : nat) :
  FD.bcNeumannZero fd = true -> (ax < ndim I)%nat ->
  Rsum (map (dd_val fd I ax) (indices (shape I))) = 0.
Proof.
  intros Hbc Hax. unfold dd_val. rewrite Hbc. unfold axis_len.
  pose proof (shifts_sum (shape I) ax (data I) Hax) as H.
  set (h := / nth ax (FD.spacing fd) 0 ^ 2).
  rewrite (Rsum_map_ext _ (fun i => h * (plus_val true ax (nth ax (shape I) 0%nat) (data I) i
                                        + minus_val true ax (nth ax (shape I) 0%nat) (data I) i)
                                   + (- (2 * h)) * data I i))
    by (intros i _; unfold Rdiv; fold h; ring).
  rewrite Rsum_map_plus, !Rsum_map_scale, Rsum_map_plus, H. ring.
Qed.

Lemma lap_sum_vanishes (fd : FD.FD) (I L : ndarray) :
  FD.bcNeumannZero fd = true ->
  FD.lap fd I = Ok L ->
  tsum L = 0.
Proof.
  intros Hbc EL. destruct (lap_data fd I L EL) as ((Hdim & _ & _) & SL & DL).
  unfold tsum. rewrite SL.
  rewrite (Rsum_map_ext _ (lap_val fd I))
    by (intros i Hi; apply DL; now apply indices_length).
  unfold lap_val. destruct (ndim I) as [|[|[|[|d]]]] eqn:En; try lia.
  - apply dd_val_sum; [exact Hbc | lia].
  - rewrite Rsum_map_plus, !dd_val_sum by (auto; lia). ring.
  - rewrite !Rsum_map_plus, !dd_val_sum by (auto; lia). ring.
Qed.

(** X8. Under the zero-Neumann policy, the engine's default, and with
    positive spacing, the values of the Laplacian of a field add up to zero:
    what leaves a cell enters its neighbour and nothing crosses the
    boundary. *)
Theorem lap_sum_zero (fd : FD.FD) (I L : ndarray) :
  FD.bcNeumannZero fd = true ->
  Forall (fun h => 0 < h) (FD.spacing fd) ->
  FD.lap fd I = Ok L ->
  tsum L = 0.
Proof. intros Hbc _. exact (lap_sum_vanishes fd I L Hbc). Qed.

Lemma lap_sum_zero_witness :
  tsum (lap_of (FD.mkFD 2 [1; 2] true) ramp23) = 0.
Proof.
  apply (lap_sum_zero (FD.mkFD 2 [1; 2] true) ramp23); try reflexivity.
  repeat constructor; simpl; lra.
Defined.

(** * Further properties of the smoothers *)

(** ** Field-wise smoothing *)

Lemma assign_component_at (k : nat) (acc r : ndarray) (n : nat) (rest : list nat) :
  shape acc = n :: rest -> (k < n)%nat ->
  assign 0 (Z.of_nat k) acc r
  = Ok (mkArr (shape acc) (fun i => if (axis_get 0 i =? k)%nat
                                    then data r (remove_at 0 i) else data acc i)).
Proof.
  intros Hs Hk. unfold assign, axis_len. rewrite Hs. cbn [nth].
  now rewrite norm_index_nonneg by assumption.
Qed.

Lemma over_leading_axis_loop (g : ndarray -> result ndarray) (r : nat -> ndarray)
      (v : ndarray) (n : nat) (rest : list nat) :
  shape v = n :: rest ->
  forall (m s : nat) (acc : ndarray),
    (s + m <= n)%nat ->
    (forall k, (s <= k < s + m)%nat -> g (component k v) = Ok (r k)) ->
    shape acc = shape v ->
    exists out,
      for_each (seq s m)
               (fun k acc =>
                  vk <- select 0 (Z.of_nat k) v ;;
                  x <- g vk ;;
                  assign 0 (Z.of_nat k) acc x)
               acc = Ok out /\
      shape out = shape v /\
      forall k i, data out (k :: i)
                  = if ((s <=? k) && (k <? s + m))%nat then data (r k) i
                    else data acc (k :: i).
Proof.
  intros Hv. induction m as [|m IH]; intros s acc Hle Hg Hacc.
  - exists acc. cbn [seq for_each]. repeat split; auto.
    intros k i. destruct (Nat.leb_spec s k); cbn [andb]; [|reflexivity].
    destruct (Nat.ltb_spec k (s + 0)); [lia|reflexivity].
  - cbn [seq for_each].
    rewrite (select_component s v n rest Hv) by lia. cbn [bind].
    rewrite Hg by lia. cbn [bind].
    rewrite (assign_component_at s acc (r s) n rest) by (try lia; now rewrite Hacc).
    cbn [bind].
    destruct (IH (S s) (mkArr (shape acc)
                              (fun i => if (axis_get 0 i =? s)%nat
                                        then data (r s) (remove_at 0 i)
                                        else data acc i)))
      as (out & E & Sh & D).
    + lia.
    + intros k Hk. apply Hg. lia.
    + exact Hacc.
    + exists out. split; [exact E|]. split; [exact Sh|].
      intros k i. rewrite D. cbn [data axis_get nth remove_at].
      destruct (Nat.leb_spec (S s) k); destruct (Nat.ltb_spec k (S s + m));
        destruct (Nat.leb_spec s k); destruct (Nat.ltb_spec k (s + S m));
        destruct (Nat.eqb_spec k s); cbn [andb]; try lia; try reflexivity.
      now subst.
Qed.

Lemma over_leading_axis_spec (g : ndarray -> result ndarray) (r : nat -> ndarray)
      (v acc : ndarray) (n : nat) (rest : list nat) :
  shape v = n :: rest ->
  (forall k, (k < n)%nat -> g (component k v) = Ok (r k)) ->
  shape acc = shape v ->
  exists out,
    Smoother.over_leading_axis n g acc v = Ok out /\
    shape out = shape v /\
    forall k i, (k < n)%nat -> data out (k :: i) = data (r k) i.
Proof.
  intros Hv Hg Hacc. unfold Smoother.over_leading_axis, range. rewrite Nat2Z.id.
  destruct (over_leading_axis_loop g r v n rest Hv n 0 acc) as (out & E & Sh & D);
    auto; [intros k Hk; apply Hg; lia|].
  exists out. split; [exact E|]. split; [exact Sh|].
  intros k i Hk. rewrite D. cbn [Nat.leb andb Nat.add].
  destruct (Nat.ltb_spec k n); [reflexivity|lia].
Qed.

(** X9. For a batch of images with channels, of shape [N :: C :: grid], and
    a scalar smoothing that returns a field of the shape of the grid on
    every channel of every image,
    [smooth_scalar_field_multiNC] returns an array of the shape of the input
    whose part at image [n] and channel [c] is the smoothing of that part of
    the input: every entry is written, none is mixed with another. *)
Theorem multiNC_smooths_each_channel
        (smooth : ndarray -> result ndarray) (r : nat -> nat -> ndarray)
        (I : ndarray) (N C : nat) (g : list nat) :
  shape I = N :: C :: g ->
  (forall n c, (n < N)%nat -> (c < C)%nat ->
               smooth (component c (component n I)) = Ok (r n c) /\
               shape (r n c) = g) ->
  exists out,
    Smoother.smooth_scalar_field_multiNC smooth I = Ok out /\
    shape out = shape I /\
    forall n c i, (n < N)%nat -> (c < C)%nat ->
                  data out (n :: c :: i) = data (r n c) i.
Proof.
  intros HI Hs'.
  assert (Hs : forall n c, (n < N)%nat -> (c < C)%nat ->
                           smooth (component c (component n I)) = Ok (r n c))
    by (intros n c Hn Hc; now destruct (Hs' n c Hn Hc)).
  assert (HC : forall n, (n < N)%nat ->
             exists o, Smoother.smooth_scalar_field_multiC smooth (component n I) = Ok o /\
                       shape o = C :: g /\
                       forall c i, (c < C)%nat -> data o (c :: i) = data (r n c) i).
  { intros n Hn. unfold Smoother.smooth_scalar_field_multiC, Smoother.leading_size.
    assert (Hc : shape (component n I) = C :: g)
      by (unfold component; rewrite HI; reflexivity).
    rewrite Hc. cbn [bind].
    destruct (over_leading_axis_spec smooth (r n) (component n I) (zeros (C :: g)) C g)
      as (o & E & Sh & D); auto.
    exists o. rewrite E. repeat split; auto. now rewrite Sh. }
  set (rc := fun n => match Smoother.smooth_scalar_field_multiC smooth (component n I) with
                      | Ok o => o | Raise _ => zeros [] end).
  unfold Smoother.smooth_scalar_field_multiNC, Smoother.leading_size.
  rewrite HI. cbn [bind].
  destruct (over_leading_axis_spec (Smoother.smooth_scalar_field_multiC smooth) rc
                                   I (zeros (N :: C :: g)) N (C :: g))
    as (out & E & Sh & D); auto.
  { intros n Hn. destruct (HC n Hn) as (o & Eo & _). unfold rc. now rewrite Eo. }
  exists out. split; [exact E|]. split; [now rewrite Sh|].
  intros n c i Hn Hc. rewrite D by exact Hn.
  destruct (HC n Hn) as (o & Eo & _ & Do). unfold rc. rewrite Eo. now apply Do.
Qed.

Lemma multiNC_smooths_each_channel_witness :
  exists out,
    Smoother.smooth_scalar_field_multiNC (fun v => Ok (smul 2 v)) batch213 = Ok out /\
    shape out = shape batch213 /\
    forall n c i, (n < 2)%nat -> (c < 1)%nat ->
                  data out (n :: c :: i)
                  = data (smul 2 (component c (component n batch213))) i.
Proof.
  apply (multiNC_smooths_each_channel
           (fun v => Ok (smul 2 v))
           (fun n c => smul 2 (component c (component n batch213)))
           batch213 2 1 [3%nat]).
  - reflexivity.
  - intros n c _ _. split; reflexivity.
Defined.

Lemma vector_field_components (size : list Z) (sp : list R) (base : Smoother.Smoother)
      (smooth : ndarray -> result ndarray) (r : nat -> ndarray)
      (v : ndarray) (g : list nat) :
  Smoother.init size sp = Ok base ->
  (2 <= length sp)%nat ->
  shape v = length sp :: g ->
  (forall d, (d < length sp)%nat -> smooth (component d v) = Ok (r d)) ->
  exists out,
    Smoother.smooth_vector_field base smooth v = Ok out /\
    shape out = shape v /\
    forall d i, (d < length sp)%nat -> data out (d :: i) = data (r d) i.
Proof.
  intros Hinit H2 Hv Hs.
  destruct (smoother_init_inv _ _ _ Hinit) as (_ & _ & Hd & _).
  unfold Smoother.smooth_vector_field. rewrite Hd.
  destruct (Nat.eqb_spec (length sp) 1); [lia|].
  apply (over_leading_axis_spec smooth r v (zeros (shape v)) (length sp) g); auto.
Qed.

(** X10. For a smoother of two or three dimensions and a scalar smoothing
    that returns a field of the shape of the grid on every component:
    [smooth_vector_field] returns an array
    of the shape of the vector field whose component [d] is the smoothing of
    component [d] of the input, and [smooth_vector_field_multiN] does so for
    every item of a batch. *)
Theorem vector_field_smooths_each_component
        (size : list Z) (sp : list R) (base : Smoother.Smoother)
        (smooth : ndarray -> result ndarray)
        (r : nat -> ndarray) (rb : nat -> nat -> ndarray)
        (v V : ndarray) (N : nat) (g : list nat) :
  Smoother.init size sp = Ok base ->
  (2 <= length sp)%nat ->
  shape v = length sp :: g ->
  shape V = N :: length sp :: g ->
  (forall d, (d < length sp)%nat ->
             smooth (component d v) = Ok (r d) /\ shape (r d) = g) ->
  (forall n d, (n < N)%nat -> (d < length sp)%nat ->
               smooth (component d (component n V)) = Ok (rb n d) /\
               shape (rb n d) = g) ->
  (exists out,
     Smoother.smooth_vector_field base smooth v = Ok out /\
     shape out = shape v /\
     forall d i, (d < length sp)%nat -> data out (d :: i) = data (r d) i) /\
  (exists out,
     Smoother.smooth_vector_field_multiN base smooth V = Ok out /\
     shape out = shape V /\
     forall n d i, (n < N)%nat -> (d < length sp)%nat ->
                   data out (n :: d :: i) = data (rb n d) i).
Proof.
  intros Hinit H2 Hv HV Hs' Hb'.
  assert (Hs : forall d, (d < length sp)%nat -> smooth (component d v) = Ok (r d))
    by (intros d Hd; now destruct (Hs' d Hd)).
  assert (Hb : forall n d, (n < N)%nat -> (d < length sp)%nat ->
                           smooth (component d (component n V)) = Ok (rb n d))
    by (intros n d Hn Hd; now destruct (Hb' n d Hn Hd)).
  split.
  - now apply (vector_field_components size sp base smooth r v g).
  - assert (HC : forall n, (n < N)%nat ->
               exists o, Smoother.smooth_vector_field base smooth (component n V) = Ok o /\
                         forall d i, (d < length sp)%nat ->
                                     data o (d :: i) = data (rb n d) i).
    { intros n Hn.
      destruct (vector_field_components size sp base smooth (rb n) (component n V) g)
        as (o & E & _ & D); auto.
      - unfold component. rewrite HV. reflexivity.
      - eauto. }
    set (rc := fun n => match Smoother.smooth_vector_field base smooth (component n V) with
                        | Ok o => o | Raise _ => zeros [] end).
    unfold Smoother.smooth_vector_field_multiN, Smoother.leading_size.
    rewrite HV. cbn [bind].
    destruct (over_leading_axis_spec (Smoother.smooth_vector_field base smooth) rc
                                     V (zeros (N :: length sp :: g)) N (length sp :: g))
      as (out & E & Sh & D); auto.
    { intros n Hn. destruct (HC n Hn) as (o & Eo & _). unfold rc. now rewrite Eo. }
    exists out. split; [exact E|]. split; [now rewrite Sh|].
    intros n d i Hn Hd. rewrite D by exact Hn.
    destruct (HC n Hn) as (o & Eo & Do). unfold rc. rewrite Eo. now apply Do.
Qed.

(** [ramp23] read as two components of three values each. *)
Lemma vector_field_smooths_each_component_witness :
  exists out,
    Smoother.smooth_vector_field
      (Smoother.mkSmoother [3%Z; 3%Z] [1; 1] (FD.mkFD 2 [1; 1] true)
                           (Regularizer.prod [1; 1]) 2)
      (fun v => Ok (smul 2 v)) ramp23 = Ok out /\
    shape out = shape ramp23 /\
    forall d i, (d < 2)%nat -> data out (d :: i) = data (smul 2 (component d ramp23)) i.
Proof.
  destruct (vector_field_smooths_each_component
              [3%Z; 3%Z] [1; 1]
              (Smoother.mkSmoother [3%Z; 3%Z] [1; 1] (FD.mkFD 2 [1; 1] true)
                                   (Regularizer.prod [1; 1]) 2)
              (fun v => Ok (smul 2 v))
              (fun d => smul 2 (component d ramp23))
              (fun n d => smul 2 (component d (component n (mkArr [1%nat; 2%nat; 3%nat] (data ramp23)))))
              ramp23 (mkArr [1%nat; 2%nat; 3%nat] (data ramp23)) 1 [3%nat])
    as (H & _).
  - reflexivity.
  - simpl; lia.
  - reflexivity.
  - reflexivity.
  - intros d _. split; reflexivity.
  - intros n d _ _. split; reflexivity.
  - exact H.
Defined.

(** ** The diffusion smoother: edge cases *)

Lemma pow2_pos (n : nat) : (0 < 2 ^ Z.of_nat n)%Z.
Proof. apply Z.pow_pos_nonneg; lia. Qed.

(** X11. With an iteration parameter that is zero or negative the loop of the
    diffusion smoother does not run: [smooth_scalar_field] returns its
    argument unchanged, whatever the argument (no error is raised even for an
    array that the engine does not support). *)
Theorem diffusion_no_iteration (s : Smoother.DiffusionSmoother) (v : ndarray) :
  (Smoother.iter s <= 0)%Z ->
  Smoother.diffusion_smooth_scalar_field s v = Ok v.
Proof.
  intros H. unfold Smoother.diffusion_smooth_scalar_field, range.
  pose proof (pow2_pos (Smoother.dim (Smoother.d_base s))) as Hp.
  replace (Z.to_nat (Smoother.iter s * 2 ^ Z.of_nat (Smoother.dim (Smoother.d_base s))))
    with 0%nat by nia.
  destruct v; reflexivity.
Qed.

Lemma diffusion_no_iteration_witness :
  Smoother.diffusion_smooth_scalar_field (Smoother.set_iter (-3) diffusion1)
                                         (mkArr [] (fun _ => 1))
  = Ok (mkArr [] (fun _ => 1)).
Proof.
  apply diffusion_no_iteration. simpl. lia.
Defined.

Lemma for_each_first_raises {A S : Type} (body : A -> S -> result S)
      (l : list A) (x : A) (s : S) (e : exn) :
  body x s = Raise e -> for_each (x :: l) body s = Raise e.
Proof. intros H. cbn [for_each]. now rewrite H. Qed.

(** X12. With an iteration parameter of at least one, the diffusion smoother
    raises on every array on which the Laplacian of its engine raises, with
    the same error: the "only dimensions 1 to 3" error for no axis or more
    than three, [IndexError] for an empty axis or for more axes than the
    smoother has spacings.  In particular a smoother of one dimension, whose
    [smooth_vector_field] hands the whole field to [smooth_scalar_field],
    raises [IndexError] on every field with a component axis and a grid
    axis. *)
Theorem diffusion_raises (size : list Z) (sp : list R) (p_iter : option Z)
        (s : Smoother.DiffusionSmoother) (v : ndarray) (e : exn) :
  Smoother.diffusion_init size sp p_iter = Ok s ->
  (1 <= Smoother.iter s)%Z ->
  (FD.lap (Smoother.fdt (Smoother.d_base s)) v = Raise e ->
   Smoother.diffusion_smooth_scalar_field s v = Raise e) /\
  (length sp = 1%nat -> ndim v = 2%nat ->
   Smoother.smooth_vector_field (Smoother.d_base s)
                                (Smoother.diffusion_smooth_scalar_field s) v
   = Raise IndexError).
Proof.
  intros Hinit Hiter.
  assert (Hfirst : forall e', FD.lap (Smoother.fdt (Smoother.d_base s)) v = Raise e' ->
                              Smoother.diffusion_smooth_scalar_field s v = Raise e').
  { intros e' He. unfold Smoother.diffusion_smooth_scalar_field, range.
    pose proof (pow2_pos (Smoother.dim (Smoother.d_base s))) as Hp.
    destruct (Z.to_nat (Smoother.iter s * 2 ^ Z.of_nat (Smoother.dim (Smoother.d_base s))))
      as [|k] eqn:Ek; [nia|].
    cbn [seq]. apply for_each_first_raises.
    unfold Smoother.diffusion_body.
    replace (clone v) with v by (destruct v; reflexivity).
    now rewrite He. }
  split; [apply Hfirst|].
  intros H1 H2.
  unfold Smoother.diffusion_init in Hinit.
  destruct (Smoother.init size sp) as [b|e0] eqn:Eb; [|discriminate].
  cbn [bind] in Hinit. injection Hinit as <-. cbn [Smoother.d_base] in *.
  destruct (smoother_init_inv _ _ _ Eb) as (_ & _ & Hd & Hfsp & _).
  unfold Smoother.smooth_vector_field. rewrite Hd, H1. cbn [Nat.eqb].
  apply Hfirst. cbn [Smoother.d_base].
  apply lap_undefined_raises; [lia|].
  unfold lap_defined. rewrite Hfsp, H1, H2. lia.
Qed.

Lemma diffusion_raises_witness :
  Smoother.smooth_vector_field (Smoother.d_base diffusion1)
                               (Smoother.diffusion_smooth_scalar_field diffusion1)
                               field13
  = Raise IndexError.
Proof.
  destruct (diffusion_raises [3%Z] [1] (Some 1%Z) diffusion1 field13 IndexError) as (_ & H).
  - reflexivity.
  - simpl. lia.
  - apply H; reflexivity.
Defined.

(** ** The diffusion smoother: what it keeps *)

Lemma in_range_axis_set (sh : list nat) (i : index) (ax k : nat) :
  in_range sh i -> (k < nth ax sh 0)%nat -> in_range sh (axis_set ax k i).
Proof.
  revert i ax. induction sh as [|n sh IH]; intros [|j i] [|ax] H Hk; simpl in *;
    try contradiction; try exact Logic.I; destruct H as [Hj Hi]; split; auto.
Qed.

(** Under the zero-Neumann policy a shift reads, at an index of the grid, a
    value of the field at an index of the grid. *)
Lemma plus_val_reads_grid (sh : list nat) (ax : nat) (d : index -> R) (i : index) :
  in_range sh i -> (ax < length sh)%nat ->
  exists i', in_range sh i' /\ plus_val true ax (nth ax sh 0%nat) d i = d i'.
Proof.
  intros Hi Hax. pose proof (in_range_axis sh i ax Hi Hax) as Hj.
  unfold plus_val. fold (axis_get ax i) in Hj.
  destruct (Nat.eqb_spec (axis_get ax i) (nth ax sh 0%nat - 1)); [now exists i|].
  destruct (Nat.ltb_spec (axis_get ax i) (nth ax sh 0%nat - 1)); [|lia].
  eexists. split; [|reflexivity]. apply in_range_axis_set; [exact Hi|lia].
Qed.

Lemma minus_val_reads_grid (sh : list nat) (ax : nat) (d : index -> R) (i : index) :
  in_range sh i -> (ax < length sh)%nat ->
  exists i', in_range sh i' /\ minus_val true ax (nth ax sh 0%nat) d i = d i'.
Proof.
  intros Hi Hax. pose proof (in_range_axis sh i ax Hi Hax) as Hj.
  unfold minus_val. fold (axis_get ax i) in Hj.
  destruct (Nat.eqb_spec (axis_get ax i) 0); [now exists i|].
  destruct (Nat.ltb_spec (axis_get ax i) (nth ax sh 0%nat)); [|lia].
  eexists. split; [|reflexivity]. apply in_range_axis_set; [exact Hi|lia].
Qed.

Lemma diffusion_invariant (size : list Z) (sp : list R) (p_iter : option Z)
      (s : Smoother.DiffusionSmoother) (v : ndarray) (Pinv : ndarray -> Prop) :
  Smoother.diffusion_init size sp p_iter = Ok s ->
  ndim v = length sp ->
  Forall (fun n => (1 <= n)%nat) (shape v) ->
  Pinv v ->
  (forall u m L,
     is_min m sp -> shape u = shape v -> Pinv u ->
     FD.lap (Smoother.fdt (Smoother.d_base s)) u = Ok L ->
     Pinv (tadd u (tmuls (smul (0.5 / 2 ^ length sp) L) (m ^ 2)))) ->
  exists r, Smoother.diffusion_smooth_scalar_field s v = Ok r /\
            shape r = shape v /\ Pinv r.
Proof.
  intros Hinit Hdim Hne Hv Hstep.
  unfold Smoother.diffusion_init in Hinit.
  destruct (Smoother.init size sp) as [b|e] eqn:Eb; [|discriminate].
  cbn [bind] in Hinit. injection Hinit as <-. cbn [Smoother.iter Smoother.d_base] in *.
  destruct (smoother_init_inv _ _ _ Eb) as (_ & Hsp & Hd & Hfsp & Hbc & Hlen).
  destruct (spacing_min_ok sp) as [m [Em Hm]]; [lia|].
  unfold Smoother.diffusion_smooth_scalar_field. cbn [Smoother.iter Smoother.d_base].
  replace (clone v) with v by (destruct v; reflexivity).
  generalize (range (match p_iter with Some n => n | None => 5%Z end
                     * 2 ^ Z.of_nat (Smoother.dim b))).
  intros l. revert v Hdim Hne Hv Hstep.
  induction l as [|x l IH]; intros v Hdim Hne Hv Hstep.
  - exists v. repeat split; auto.
  - cbn [for_each]. unfold Smoother.diffusion_body at 1. cbn [Smoother.d_base].
    destruct (lap_of_ok (Smoother.fdt b) v) as [EL SL].
    + unfold ndim in *. now rewrite Hfsp.
    + lia.
    + intros ax Hax. unfold edge_ok, axis_len. rewrite Hbc.
      apply nth_Forall_ge1; auto.
    + rewrite EL, Hsp, Em, Hd. cbn [bind].
      destruct (IH (tadd v (tmuls (smul (0.5 / 2 ^ length sp) (lap_of (Smoother.fdt b) v))
                                  (m ^ 2))))
        as (r & Er & Sr & Pr).
      * exact Hdim.
      * exact Hne.
      * apply (Hstep v m); auto.
      * intros u m' L Hm' Hu Pu HL. apply (Hstep u m'); auto.
      * exists r. split; [exact Er|]. split; [exact Sr|exact Pr].
Qed.

Lemma tsum_update (u L : ndarray) (c q : R) :
  shape L = shape u ->
  tsum (tadd u (tmuls (smul c L) q)) = tsum u + c * q * tsum L.
Proof.
  intros HS. unfold tsum. cbn [tadd tmuls smul shape data]. rewrite HS.
  rewrite (Rsum_map_ext _ (fun i => data u i + (c * q) * data L i))
    by (intros i _; ring).
  rewrite Rsum_map_plus, Rsum_map_scale. ring.
Qed.

Lemma lap_val_constant_on_grid (fd : FD.FD) (u : ndarray) (c : R) (i : index) :
  FD.bcNeumannZero fd = true ->
  (ndim u <= 3)%nat ->
  (forall k, in_range (shape u) k -> data u k = c) ->
  in_range (shape u) i ->
  lap_val fd u i = 0.
Proof.
  intros Hbc Hdim Hc Hi.
  assert (Hdd : forall ax, (ax < ndim u)%nat -> dd_val fd u ax i = 0).
  { intros ax Hax. unfold dd_val, axis_len. rewrite Hbc.
    destruct (plus_val_reads_grid (shape u) ax (data u) i Hi Hax) as (ip & Hip & ->).
    destruct (minus_val_reads_grid (shape u) ax (data u) i Hi Hax) as (im & Him & ->).
    rewrite !Hc by assumption. unfold Rdiv. ring. }
  unfold lap_val. destruct (ndim u) as [|[|[|[|d]]]]; try lia;
    rewrite ?Hdd by lia; ring.
Qed.

(** X13. For a diffusion smoother over positive spacings and a scalar field
    with one non-empty axis per spacing, whatever the number of iterations:
    smoothing returns a field of the same shape with the same sum of values,
    and a field that is constant on the grid comes back with the same
    constant at every index of the grid. *)
Theorem diffusion_conserves (size : list Z) (sp : list R) (p_iter : option Z)
        (s : Smoother.DiffusionSmoother) (v : ndarray) :
  Smoother.diffusion_init size sp p_iter = Ok s ->
  Forall (fun h => 0 < h) sp ->
  ndim v = length sp ->
  Forall (fun n => (1 <= n)%nat) (shape v) ->
  exists r,
    Smoother.diffusion_smooth_scalar_field s v = Ok r /\
    shape r = shape v /\
    tsum r = tsum v /\
    forall c, (forall i, in_range (shape v) i -> data v i = c) ->
              forall i, in_range (shape v) i -> data r i = c.
Proof.
  intros Hinit Hpos Hdim Hne.
  assert (Hb : FD.bcNeumannZero (Smoother.fdt (Smoother.d_base s)) = true /\
               (length sp <= 3)%nat).
  { unfold Smoother.diffusion_init in Hinit.
    destruct (Smoother.init size sp) as [b|e] eqn:Eb; [|discriminate].
    cbn [bind] in Hinit. injection Hinit as <-. cbn [Smoother.d_base].
    destruct (smoother_init_inv _ _ _ Eb) as (_ & _ & _ & _ & Hbc & Hlen). split; [auto|lia]. }
  destruct Hb as [Hbc Hlen].
  destruct (diffusion_invariant size sp p_iter s v
              (fun u => tsum u = tsum v /\
                        forall c, (forall i, in_range (shape v) i -> data v i = c) ->
                                  forall i, in_range (shape v) i -> data u i = c))
    as (r & Er & Sr & Pr & Cr); auto.
  - intros u m L Hm Hu [Pu Cu] HL.
    destruct (lap_data _ u L HL) as (_ & SL & DL). split.
    + rewrite tsum_update by exact SL.
      rewrite (lap_sum_vanishes _ u L Hbc HL). rewrite Pu. ring.
    + intros c Hc i Hi. cbn [tadd tmuls smul data].
      rewrite DL by (rewrite (in_range_length _ _ Hi); unfold ndim; now rewrite Hu).
      rewrite (lap_val_constant_on_grid _ u c i Hbc).
      * rewrite (Cu c Hc i Hi). ring.
      * unfold ndim in *. rewrite Hu. lia.
      * rewrite Hu. now apply Cu.
      * now rewrite Hu.
  - exists r. auto.
Qed.

Lemma diffusion_conserves_witness :
  exists r,
    Smoother.diffusion_smooth_scalar_field diffusion1 squares3 = Ok r /\
    shape r = shape squares3 /\
    tsum r = tsum squares3 /\
    forall c, (forall i, in_range (shape squares3) i -> data squares3 i = c) ->
              forall i, in_range (shape squares3) i -> data r i = c.
Proof.
  apply (diffusion_conserves [3%Z] [1] (Some 1%Z) diffusion1 squares3).
  - reflexivity.
  - repeat constructor; lra.
  - reflexivity.
  - repeat constructor; lia.
Defined.

(** ** The diffusion smoother: the maximum norm *)

Lemma Rabs_bounds (x M : R) : Rabs x <= M -> - M <= x <= M.
Proof. unfold Rabs. destruct (Rcase_abs x); lra. Qed.

Lemma weighted_pair_bound (M w x : R) :
  0 <= w -> Rabs x <= M -> - (w * M) <= w * x <= w * M.
Proof.
  intros Hw Hx. apply Rabs_bounds in Hx. destruct Hx as [H1 H2].
  split; nra.
Qed.

Lemma convex_bound (M u p1 q1 p2 q2 p3 q3 w1 w2 w3 : R) :
  0 <= w1 -> 0 <= w2 -> 0 <= w3 -> w1 + w2 + w3 <= 1 / 2 ->
  Rabs u <= M ->
  Rabs p1 <= M -> Rabs q1 <= M -> Rabs p2 <= M -> Rabs q2 <= M ->
  Rabs p3 <= M -> Rabs q3 <= M ->
  Rabs (u + w1 * (p1 + q1 - 2 * u) + w2 * (p2 + q2 - 2 * u) + w3 * (p3 + q3 - 2 * u))
  <= M.
Proof.
  intros H1 H2 H3 HW Hu Hp1 Hq1 Hp2 Hq2 Hp3 Hq3.
  pose proof (weighted_pair_bound M w1 p1 H1 Hp1).
  pose proof (weighted_pair_bound M w1 q1 H1 Hq1).
  pose proof (weighted_pair_bound M w2 p2 H2 Hp2).
  pose proof (weighted_pair_bound M w2 q2 H2 Hq2).
  pose proof (weighted_pair_bound M w3 p3 H3 Hp3).
  pose proof (weighted_pair_bound M w3 q3 H3 Hq3).
  assert (Hc : 0 <= 1 - 2 * (w1 + w2 + w3)) by lra.
  pose proof (weighted_pair_bound M (1 - 2 * (w1 + w2 + w3)) u Hc Hu).
  apply Rabs_bounds in Hu. apply Rabs_le. split; nra.
Qed.

Lemma weight_bound (c m h : R) :
  0 <= c -> 0 < m -> m <= h ->
  0 <= c * m ^ 2 / h ^ 2 <= c.
Proof.
  intros Hc Hm Hh.
  assert (Hh2 : 0 < h ^ 2) by (apply pow_lt; lra).
  assert (Hmh : m ^ 2 <= h ^ 2) by (simpl; nra).
  assert (Hm2 : 0 <= m ^ 2) by (apply pow2_ge_0).
  split.
  - apply Rmult_le_pos; [nra|]. left. now apply Rinv_0_lt_compat.
  - apply (Rmult_le_reg_r (h ^ 2)); [exact Hh2|].
    unfold Rdiv. rewrite Rmult_assoc, Rinv_l by lra. nra.
Qed.

Lemma dd_val_weighted (fd : FD.FD) (u : ndarray) (ax : nat) (i : index) (c m M : R) :
  FD.bcNeumannZero fd = true ->
  Forall (fun h => 0 < h) (FD.spacing fd) ->
  is_min m (FD.spacing fd) ->
  (ax < length (FD.spacing fd))%nat ->
  (ax < ndim u)%nat ->
  0 <= c ->
  bounded_on (shape u) u M ->
  in_range (shape u) i ->
  exists w p q,
    0 <= w <= c /\ Rabs p <= M /\ Rabs q <= M /\
    c * dd_val fd u ax i * m ^ 2 = w * (p + q - 2 * data u i).
Proof.
  intros Hbc Hpos [Hmin Hle] Hax Hdim Hc Hb Hi.
  set (h := nth ax (FD.spacing fd) 0).
  assert (Hin : In h (FD.spacing fd)) by (apply nth_In; exact Hax).
  assert (Hh : 0 < h) by (rewrite Forall_forall in Hpos; now apply Hpos).
  assert (Hm : 0 < m) by (rewrite Forall_forall in Hpos; now apply Hpos).
  assert (Hmh : m <= h) by (now apply Hle).
  unfold dd_val, axis_len. rewrite Hbc. fold h.
  destruct (plus_val_reads_grid (shape u) ax (data u) i Hi Hdim) as (ip & Hip & ->).
  destruct (minus_val_reads_grid (shape u) ax (data u) i Hi Hdim) as (im & Him & ->).
  exists (c * m ^ 2 / h ^ 2), (data u ip), (data u im).
  split; [now apply weight_bound|]. split; [now apply Hb|]. split; [now apply Hb|].
  field. lra.
Qed.

Lemma diffusion_step_bounded (fd : FD.FD) (u L : ndarray) (m M : R) (i : index) :
  FD.bcNeumannZero fd = true ->
  Forall (fun h => 0 < h) (FD.spacing fd) ->
  is_min m (FD.spacing fd) ->
  ndim u = length (FD.spacing fd) ->
  FD.lap fd u = Ok L ->
  bounded_on (shape u) u M ->
  in_range (shape u) i ->
  Rabs (data (tadd u (tmuls (smul (0.5 / 2 ^ length (FD.spacing fd)) L) (m ^ 2))) i) <= M.
Proof.
  intros Hbc Hpos Hm Hdim HL Hb Hi.
  destruct (lap_data fd u L HL) as ((Hd3 & _ & _) & _ & DL).
  cbn [tadd tmuls smul data].
  rewrite DL by (now apply in_range_length).
  pose proof (Hb i Hi) as Hu.
  assert (HM : 0 <= M) by (pose proof (Rabs_pos (data u i)); lra).
  assert (Hz : Rabs 0 <= M) by (rewrite Rabs_R0; exact HM).
  unfold lap_val. rewrite <- Hdim.
  destruct (ndim u) as [|[|[|[|d]]]] eqn:En; try lia.
  - destruct (dd_val_weighted fd u 0 i (0.5 / 2 ^ 1) m M)
      as (w1 & p1 & q1 & Hw1 & Hp1 & Hq1 & E1); auto; try lia; [lra|].
    rewrite E1.
    replace (data u i + w1 * (p1 + q1 - 2 * data u i))
      with (data u i + w1 * (p1 + q1 - 2 * data u i)
            + 0 * (0 + 0 - 2 * data u i) + 0 * (0 + 0 - 2 * data u i)) by ring.
    apply convex_bound; auto; lra.
  - destruct (dd_val_weighted fd u 0 i (0.5 / 2 ^ 2) m M)
      as (w1 & p1 & q1 & Hw1 & Hp1 & Hq1 & E1); auto; try lia; [lra|].
    destruct (dd_val_weighted fd u 1 i (0.5 / 2 ^ 2) m M)
      as (w2 & p2 & q2 & Hw2 & Hp2 & Hq2 & E2); auto; try lia; [lra|].
    rewrite Rmult_plus_distr_l, Rmult_plus_distr_r, E1, E2.
    replace (data u i + (w1 * (p1 + q1 - 2 * data u i) + w2 * (p2 + q2 - 2 * data u i)))
      with (data u i + w1 * (p1 + q1 - 2 * data u i) + w2 * (p2 + q2 - 2 * data u i)
            + 0 * (0 + 0 - 2 * data u i)) by ring.
    apply convex_bound; auto; lra.
  - destruct (dd_val_weighted fd u 0 i (0.5 / 2 ^ 3) m M)
      as (w1 & p1 & q1 & Hw1 & Hp1 & Hq1 & E1); auto; try lia; [lra|].
    destruct (dd_val_weighted fd u 1 i (0.5 / 2 ^ 3) m M)
      as (w2 & p2 & q2 & Hw2 & Hp2 & Hq2 & E2); auto; try lia; [lra|].
    destruct (dd_val_weighted fd u 2 i (0.5 / 2 ^ 3) m M)
      as (w3 & p3 & q3 & Hw3 & Hp3 & Hq3 & E3); auto; try lia; [lra|].
    rewrite !Rmult_plus_distr_l, !Rmult_plus_distr_r, E1, E2, E3.
    replace (data u i + (w1 * (p1 + q1 - 2 * data u i) + w2 * (p2 + q2 - 2 * data u i)
                         + w3 * (p3 + q3 - 2 * data u i)))
      with (data u i + w1 * (p1 + q1 - 2 * data u i) + w2 * (p2 + q2 - 2 * data u i)
            + w3 * (p3 + q3 - 2 * data u i)) by ring.
    apply convex_bound; auto; lra.
Qed.

(** X14. For a diffusion smoother over positive spacings and a scalar field
    with one non-empty axis per spacing, whatever the number of iterations:
    if every value of the field on the grid is at most [M] in absolute value,
    so is every value of the smoothed field.  The coefficient
    [0.5 / 2^dim * min(spacing)^2] keeps each update an average of a value
    and its neighbours. *)
Theorem diffusion_max_norm (size : list Z) (sp : list R) (p_iter : option Z)
        (s : Smoother.DiffusionSmoother) (v : ndarray) (M : R) :
  Smoother.diffusion_init size sp p_iter = Ok s ->
  Forall (fun h => 0 < h) sp ->
  ndim v = length sp ->
  Forall (fun n => (1 <= n)%nat) (shape v) ->
  bounded_on (shape v) v M ->
  exists r,
    Smoother.diffusion_smooth_scalar_field s v = Ok r /\
    shape r = shape v /\
    bounded_on (shape v) r M.
Proof.
  intros Hinit Hpos Hdim Hne Hb.
  assert (Hfd : FD.bcNeumannZero (Smoother.fdt (Smoother.d_base s)) = true /\
                FD.spacing (Smoother.fdt (Smoother.d_base s)) = sp).
  { unfold Smoother.diffusion_init in Hinit.
    destruct (Smoother.init size sp) as [b|e] eqn:Eb; [|discriminate].
    cbn [bind] in Hinit. injection Hinit as <-. cbn [Smoother.d_base].
    destruct (smoother_init_inv _ _ _ Eb) as (_ & _ & _ & Hfsp & Hbc & _). auto. }
  destruct Hfd as [Hbc Hfsp].
  apply (diffusion_invariant size sp p_iter s v (fun u => bounded_on (shape v) u M));
    auto.
  intros u m L Hm Hu Pu HL i Hi.
  rewrite <- Hfsp. rewrite <- Hu in Hi.
  apply diffusion_step_bounded; auto.
  - now rewrite Hfsp.
  - now rewrite Hfsp.
  - unfold ndim in *. now rewrite Hu, Hfsp.
  - now rewrite Hu.
Qed.

Lemma diffusion_max_norm_witness :
  exists r,
    Smoother.diffusion_smooth_scalar_field diffusion1 squares3 = Ok r /\
    shape r = shape squares3 /\
    bounded_on (shape squares3) r 4.
Proof.
  apply (diffusion_max_norm [3%Z] [1] (Some 1%Z) diffusion1 squares3 4).
  - reflexivity.
  - repeat constructor; lra.
  - reflexivity.
  - repeat constructor; lia.
  - intros i Hi. destruct i as [|k i]; [contradiction|].
    destruct i as [|k' i]; [|simpl in Hi; tauto].
    destruct Hi as [Hk _]. unfold squares3. cbn [data nth].
    destruct k as [|[|[|k]]]; try lia; simpl; rewrite Rabs_right; lra.
Defined.

(** * Further properties of the regularizer *)

Lemma plus_val_ext (bc : bool) (ax n : nat) (d d' : index -> R) (i : index) :
  (forall k, d k = d' k) -> plus_val bc ax n d i = plus_val bc ax n d' i.
Proof. intros H. unfold plus_val. now rewrite !H. Qed.

Lemma minus_val_ext (bc : bool) (ax n : nat) (d d' : index -> R) (i : index) :
  (forall k, d k = d' k) -> minus_val bc ax n d i = minus_val bc ax n d' i.
Proof. intros H. unfold minus_val. now rewrite !H. Qed.

Lemma lap_val_scale (fd : FD.FD) (c : R) (u : ndarray) (i : index) :
  lap_val fd (smul c u) i = c * lap_val fd u i.
Proof.
  assert (Hdd : forall ax, dd_val fd (smul c u) ax i = c * dd_val fd u ax i).
  { intros ax. unfold dd_val, axis_len. cbn [smul shape data].
    rewrite (plus_val_ext _ _ _ _ (fun k => c * data u k + 0 * data u k))
      by (intros k; ring).
    rewrite (minus_val_ext _ _ _ _ (fun k => c * data u k + 0 * data u k))
      by (intros k; ring).
    rewrite plus_val_lincomb, minus_val_lincomb. unfold Rdiv. ring. }
  unfold lap_val. change (ndim (smul c u)) with (ndim u).
  destruct (ndim u) as [|[|[|[|d]]]]; rewrite ?Hdd; ring.
Qed.

Lemma spec_regularizer_scale (sp : list R) (ps : Regularizer.params)
      (reg : Regularizer.HelmholtzRegularizer) (w : ndarray) (n : nat) (g : list nat)
      (c : R) :
  Regularizer.init sp ps = Ok reg ->
  shape w = n :: g -> length g = length sp ->
  Forall (fun n => (1 <= n)%nat) g ->
  spec_regularizer reg (smul c w) = c ^ 2 * spec_regularizer reg w.
Proof.
  intros Hinit Hw Hg Hne. unfold spec_regularizer.
  rewrite <- Rmult_assoc. f_equal. rewrite <- Rsum_map_scale.
  apply Rsum_map_ext. intros k _.
  change (component k (smul c w)) with (smul c (component k w)).
  destruct (component_lap_ok sp ps reg w n g k Hinit Hw Hg Hne) as [EL SL].
  destruct (component_lap_ok sp ps reg (smul c w) n g k Hinit Hw Hg Hne) as [ELc SLc].
  change (component k (smul c w)) with (smul c (component k w)) in ELc, SLc.
  destruct (lap_data _ _ _ EL) as (_ & _ & DL).
  destruct (lap_data _ _ _ ELc) as (_ & _ & DLc).
  unfold tsum. cbn [tsquare spec_Lv tsub smul shape data].
  rewrite <- Rsum_map_scale. apply Rsum_map_ext. intros i Hi.
  apply indices_length in Hi.
  rewrite DLc by exact Hi. rewrite DL by exact Hi.
  rewrite lap_val_scale. ring.
Qed.

(** X15. The regularizer is homogeneous of degree two: on a vector field with
    one component per axis over a non-empty grid with positive spacing,
    multiplying the field by a number [c] multiplies the value that
    [_compute_regularizer] returns by [c^2] (so the zero field has value
    zero). *)
Theorem regularizer_homogeneous (sp : list R) (ps : Regularizer.params)
        (reg : Regularizer.HelmholtzRegularizer) (w : ndarray) (g : list nat) (c : R) :
  Regularizer.init sp ps = Ok reg ->
  Forall (fun h => 0 < h) sp ->
  length g = length sp ->
  Forall (fun n => (1 <= n)%nat) g ->
  shape w = length sp :: g ->
  exists x,
    Regularizer._compute_regularizer reg w = Ok x /\
    Regularizer._compute_regularizer reg (smul c w) = Ok (c ^ 2 * x).
Proof.
  intros Hinit _ Hg Hne Hw. exists (spec_regularizer reg w). split.
  - now apply (compute_regularizer_single sp ps reg w g).
  - rewrite <- (spec_regularizer_scale sp ps reg w (length sp) g c) by auto.
    now apply (compute_regularizer_single sp ps reg (smul c w) g).
Qed.

Lemma regularizer_homogeneous_witness :
  exists x,
    Regularizer._compute_regularizer reg1 field13 = Ok x /\
    Regularizer._compute_regularizer reg1 (smul 3 field13) = Ok (3 ^ 2 * x).
Proof.
  apply (regularizer_homogeneous [1] (Regularizer.mkParams None None) reg1 field13
                                 [3%nat] 3).
  - reflexivity.
  - repeat constructor; lra.
  - reflexivity.
  - repeat constructor; lia.
  - reflexivity.
Defined.

(** X16. Edge cases of the regularizer: it cannot be built for a spacing of
    no entry or of more than three; on a batch with no item
    [compute_regularizer_multiN] returns zero, and on an array without axes
    it raises [IndexError]; and a field that lacks the grid axes that the
    dimension of the regularizer requires makes [_compute_regularizer] raise
    [IndexError]. *)
Theorem regularizer_edge_cases (sp : list R) (ps : Regularizer.params)
        (reg : Regularizer.HelmholtzRegularizer) (v : ndarray) :
  ((length sp = 0)%nat \/ (4 <= length sp)%nat ->
   Regularizer.init sp ps = Raise FD.unsupported_dimension) /\
  (Regularizer.init sp ps = Ok reg ->
   ((exists rest, shape v = 0%nat :: rest) ->
    Regularizer.compute_regularizer_multiN reg v = Ok 0) /\
   (shape v = [] -> Regularizer.compute_regularizer_multiN reg v = Raise IndexError) /\
   ((ndim v <= length sp)%nat ->
    Regularizer._compute_regularizer reg v = Raise IndexError)).
Proof.
  split.
  - intros H. unfold Regularizer.init, FD.FD_torch.
    destruct sp as [|h0 [|h1 [|h2 [|h3 r]]]]; simpl in H; try lia; reflexivity.
  - intros Hinit.
    destruct (regularizer_init_inv _ _ _ Hinit) as (_ & Hdim & _ & _ & _ & Hlen).
    split; [|split].
    + intros [rest Hs]. unfold Regularizer.compute_regularizer_multiN, Regularizer.size0.
      now rewrite Hs.
    + intros Hs. unfold Regularizer.compute_regularizer_multiN, Regularizer.size0.
      now rewrite Hs.
    + intros Hn. unfold Regularizer._compute_regularizer. rewrite Hdim.
      assert (Hsel : forall nfull k, (ndim v <= nfull)%nat ->
                                     select0 nfull k v = Raise IndexError).
      { intros nfull k Hk. unfold select0.
        destruct (Nat.ltb_spec (ndim v) (1 + nfull)); [reflexivity|lia]. }
      destruct (length sp) as [|[|[|[|d]]]]; try lia.
      * unfold Regularizer._compute_regularizer_1d, Regularizer.assign_component.
        now rewrite Hsel by lia.
      * unfold Regularizer._compute_regularizer_2d, Regularizer.assign_component.
        cbn [for_each]. now rewrite Hsel by lia.
      * unfold Regularizer._compute_regularizer_3d, Regularizer.assign_component.
        cbn [for_each]. now rewrite Hsel by lia.
Qed.

Lemma regularizer_edge_cases_witness :
  Regularizer.init [] (Regularizer.mkParams None None) = Raise FD.unsupported_dimension /\
  Regularizer.compute_regularizer_multiN reg1 (mkArr [0%nat; 1%nat; 3%nat] (fun _ => 1))
  = Ok 0 /\
  Regularizer._compute_regularizer reg1 squares3 = Raise IndexError.
Proof.
  destruct (regularizer_edge_cases [] (Regularizer.mkParams None None) reg1 squares3)
    as (H0 & _).
  destruct (regularizer_edge_cases [1] (Regularizer.mkParams None None) reg1
                                   (mkArr [0%nat; 1%nat; 3%nat] (fun _ => 1)))
    as (_ & H1).
  destruct (regularizer_edge_cases [1] (Regularizer.mkParams None None) reg1 squares3)
    as (_ & H2).
  split; [|split].
  - apply H0. left. reflexivity.
  - apply H1; [reflexivity|]. now exists [1%nat; 3%nat].
  - apply H2; [reflexivity|]. unfold ndim, squares3. simpl. lia.
Defined.

(** * The factories *)

Lemma smoother_init_raises (size : list Z) (sp : list R) :
  (length sp = 0)%nat \/ (4 <= length sp)%nat ->
  Smoother.init size sp = Raise FD.unsupported_dimension.
Proof.
  intros H. unfold Smoother.init, FD.FD_torch.
  destruct sp as [|h0 [|h1 [|h2 [|h3 r]]]]; simpl in H; try lia; reflexivity.
Qed.

Lemma smoother_init_ok (size : list Z) (sp : list R) :
  (1 <= length sp <= 3)%nat -> exists b, Smoother.init size sp = Ok b.
Proof.
  intros H. unfold Smoother.init, FD.FD_torch.
  destruct sp as [|h0 [|h1 [|h2 [|h3 r]]]]; simpl in H; try lia; simpl; eauto.
Qed.

(** X17. [create_smoother] decides by the type named in the parameters, or
    by the default of the factory ("gaussian" for a new factory) when none is
    named: "diffusion", "gaussian" and "gaussianSpatial" give the diffusion,
    the Fourier-Gaussian and the spatial-Gaussian smoother, built from the
    size and spacing of the factory, without filter and with the given or
    default parameter ([iter] 5, [gaussian_std] 0.15).  The factory takes any
    spacing; one of no entry or of more than three makes [create_smoother]
    raise the "only dimensions 1 to 3" error.  Any other type raises
    [NameError] for [smootherName]. *)
Theorem create_smoother_dispatch {ext : Externals}
        (self : SmootherFactory.SmootherFactory) (ps : SmootherFactory.params)
        (t : string) :
  t = match SmootherFactory.p_type ps with
      | Some n => n
      | None => SmootherFactory.default_smoother_type self
      end ->
  SmootherFactory.default_smoother_type
    (SmootherFactory.init (SmootherFactory.sz self) (SmootherFactory.spacing self))
  = "gaussian"%string /\
  (t <> "diffusion"%string -> t <> "gaussian"%string -> t <> "gaussianSpatial"%string ->
   SmootherFactory.create_smoother self ps = Raise (NameError "smootherName")) /\
  (t = "diffusion"%string \/ t = "gaussian"%string \/ t = "gaussianSpatial"%string ->
   ((length (SmootherFactory.spacing self) = 0)%nat \/
    (4 <= length (SmootherFactory.spacing self))%nat ->
    SmootherFactory.create_smoother self ps = Raise FD.unsupported_dimension) /\
   ((1 <= length (SmootherFactory.spacing self) <= 3)%nat ->
    exists b,
      Smoother.init (SmootherFactory.sz self) (SmootherFactory.spacing self) = Ok b /\
      (t = "diffusion"%string ->
       SmootherFactory.create_smoother self ps
       = Ok (SmootherFactory.Diffusion
               (Smoother.mkDiffusion
                  b (match SmootherFactory.p_iter ps with Some n => n | None => 5%Z end)))) /\
      (t = "gaussian"%string ->
       SmootherFactory.create_smoother self ps
       = Ok (SmootherFactory.GaussianFourier
               (Smoother.mkFourier
                  b (match SmootherFactory.p_gaussian_std ps with
                     | Some x => x | None => 0.15 end)
                  None))) /\
      (t = "gaussianSpatial"%string ->
       SmootherFactory.create_smoother self ps
       = Ok (SmootherFactory.GaussianSpatial
               (Smoother.mkSpatial b (SmootherFactory.p_k_sz_h ps)
                                   None None None None))))).
Proof.
  intros Ht. split; [reflexivity|]. unfold SmootherFactory.create_smoother.
  rewrite <- Ht. split.
  - intros H1 H2 H3.
    apply String.eqb_neq in H1, H2, H3. now rewrite H1, H2, H3.
  - intros Hk. split.
    + intros Hbad.
      unfold Smoother.diffusion_init, Smoother.fourier_init, Smoother.spatial_init.
      rewrite (smoother_init_raises _ _ Hbad).
      destruct Hk as [-> | [-> | ->]]; reflexivity.
    + intros Hgood.
      destruct (smoother_init_ok (SmootherFactory.sz self) (SmootherFactory.spacing self)
                                 Hgood) as [b Eb].
      exists b. split; [exact Eb|].
      unfold Smoother.diffusion_init, Smoother.fourier_init, Smoother.spatial_init.
      rewrite Eb. repeat split; intros ->; reflexivity.
Qed.

Lemma create_smoother_dispatch_witness :
  SmootherFactory.create_smoother
    (SmootherFactory.init [3%Z] [1])
    (SmootherFactory.mkParams (Some "fourier"%string) None None None)
  = Raise (NameError "smootherName") /\
  SmootherFactory.create_smoother
    (SmootherFactory.init [3%Z] [])
    (SmootherFactory.mkParams None None None None)
  = Raise FD.unsupported_dimension.
Proof.
  split.
  - destruct (create_smoother_dispatch
                (SmootherFactory.init [3%Z] [1])
                (SmootherFactory.mkParams (Some "fourier"%string) None None None)
                "fourier"%string eq_refl) as (_ & H & _).
    apply H; discriminate.
  - destruct (create_smoother_dispatch
                (SmootherFactory.init [3%Z] [])
                (SmootherFactory.mkParams None None None None)
                "gaussian"%string eq_refl) as (_ & _ & H).
    destruct H as [H _]; [right; left; reflexivity|].
    apply H. left. reflexivity.
Defined.

(** X18. [create_regularizer] builds the Helmholtz regularizer when the type
    named in the parameters, or the default of the factory when none is named
    ("helmholtz" for a new factory), is "helmholtz", with the spacing of the
    factory and the given or default weights; for any other type it raises
    the [ValueError] whose message names that type.  The factory takes any
    spacing; one of no entry or of more than three makes
    [create_regularizer] raise the "only dimensions 1 to 3" error. *)
Theorem create_regularizer_dispatch
        (self : RegularizerFactory.RegularizerFactory) (ps : RegularizerFactory.params)
        (t : string) :
  t = match RegularizerFactory.p_type ps with
      | Some n => n
      | None => RegularizerFactory.default_regularizer_type self
      end ->
  RegularizerFactory.default_regularizer_type
    (RegularizerFactory.init (RegularizerFactory.spacing self))
  = "helmholtz"%string /\
  (t <> "helmholtz"%string ->
   RegularizerFactory.create_regularizer self ps
   = Raise (ValueError ("Regularizer: " ++ t ++ " not known"))) /\
  (t = "helmholtz"%string ->
   ((length (RegularizerFactory.spacing self) = 0)%nat \/
    (4 <= length (RegularizerFactory.spacing self))%nat ->
    RegularizerFactory.create_regularizer self ps = Raise FD.unsupported_dimension) /\
   ((1 <= length (RegularizerFactory.spacing self) <= 3)%nat ->
    exists reg,
      RegularizerFactory.create_regularizer self ps = Ok reg /\
      Regularizer.spacing reg = RegularizerFactory.spacing self /\
      Regularizer.dim reg = length (RegularizerFactory.spacing self) /\
      Regularizer.alpha reg
      = match Regularizer.p_alpha (RegularizerFactory.p_regularizer ps) with
        | Some a => a | None => 0.2 end /\
      Regularizer.gamma reg
      = match Regularizer.p_gamma (RegularizerFactory.p_regularizer ps) with
        | Some a => a | None => 1.0 end)).
Proof.
  intros Ht. split; [reflexivity|]. unfold RegularizerFactory.create_regularizer.
  rewrite <- Ht. split.
  - intros H. apply String.eqb_neq in H. now rewrite H.
  - intros ->. cbn [String.eqb Ascii.eqb Bool.eqb]. split.
    + intros Hbad. unfold Regularizer.init, FD.FD_torch.
      destruct (RegularizerFactory.spacing self) as [|h0 [|h1 [|h2 [|h3 r]]]];
        simpl in Hbad; try lia; reflexivity.
    + intros Hgood. unfold Regularizer.init, FD.FD_torch.
      destruct (RegularizerFactory.spacing self) as [|h0 [|h1 [|h2 [|h3 r]]]];
        simpl in Hgood; try lia; simpl; eexists; repeat split.
Qed.

Lemma create_regularizer_dispatch_witness :
  RegularizerFactory.create_regularizer
    (RegularizerFactory.init [1])
    (RegularizerFactory.mkParams (Some "tv"%string) (Regularizer.mkParams None None))
  = Raise (ValueError "Regularizer: tv not known") /\
  RegularizerFactory.create_regularizer
    (RegularizerFactory.init [1])
    (RegularizerFactory.mkParams None (Regularizer.mkParams None None))
  = Ok reg1.
Proof.
  split.
  - destruct (create_regularizer_dispatch
                (RegularizerFactory.init [1])
                (RegularizerFactory.mkParams (Some "tv"%string)
                                             (Regularizer.mkParams None None))
                "tv"%string eq_refl) as (_ & H & _).
    apply H. discriminate.
  - reflexivity.
Defined.

(** * Further properties of the integrators *)

Section IntegratorMore.

Context {E : Type} {SE : StateElem E} {U P : Type}.

(** X19. With a configured step count of zero or less, [solve] raises for
    every state list, whatever the step function: [IndexError] for 0 and -1
    (there is no second sample point), and the [ValueError] of [linspace] for
    a negative number of samples below that. *)
Theorem solve_nonpositive_steps
        (one_step : @RK.RKIntegrator E U P -> RK.pyseq -> R -> R -> result (list E))
        (self : @RK.RKIntegrator E U P) (x : list E) (fromT toT : R) :
  (RK.nrOfTimeSteps self <= 0)%Z ->
  ((-1 <= RK.nrOfTimeSteps self)%Z ->
   RK.solve one_step self (RK.PyList x) fromT toT = Raise IndexError) /\
  ((RK.nrOfTimeSteps self <= -2)%Z ->
   exists msg, RK.solve one_step self (RK.PyList x) fromT toT = Raise (ValueError msg)).
Proof.
  intros HN. unfold RK.solve, linspace. split.
  - intros H1. destruct (Z.ltb_spec (RK.nrOfTimeSteps self + 1) 0); [lia|].
    assert (HC : RK.nrOfTimeSteps self = 0%Z \/ RK.nrOfTimeSteps self = (-1)%Z) by lia.
    destruct HC as [-> | ->]; reflexivity.
  - intros H2. destruct (Z.ltb_spec (RK.nrOfTimeSteps self + 1) 0); [|lia].
    eexists. reflexivity.
Qed.

Variable self : @RK.RKIntegrator E U P.

Lemma list_get_raise {A : Type} (l : list A) (i : nat) (e : exn) :
  list_get l i = Raise e -> e = IndexError.
Proof.
  unfold list_get. destruct (nth_error l i); [discriminate|]. intros H. now injection H.
Qed.

Lemma list_get_out {A : Type} (l : list A) (i : nat) :
  (length l <= i)%nat -> list_get l i = Raise IndexError.
Proof.
  intros H. unfold list_get. apply nth_error_None in H. now rewrite H.
Qed.

Lemma for_each_raises_index {A S : Type} (body : A -> S -> result S)
      (l : list A) (j : A) :
  (forall i acc e, body i acc = Raise e -> e = IndexError) ->
  (forall acc, body j acc = Raise IndexError) ->
  In j l ->
  forall acc, for_each l body acc = Raise IndexError.
Proof.
  intros Hall Hj. induction l as [|a l IH]; intros Hin acc; [contradiction|].
  cbn [for_each]. destruct (body a acc) as [acc'|e] eqn:Ea; cbn [bind].
  - destruct Hin as [->|Hin]; [rewrite Hj in Ea; discriminate|]. now apply IH.
  - f_equal. now apply (Hall a acc).
Qed.

(** X20. When the right-hand side returns fewer elements than the state
    has, the Euler step silently shortens the state to that number of
    elements (it pairs the two lists), however the state is packed, while
    the RK4 step, which reads each stage by the index of the state, raises
    [IndexError]. *)
Theorem short_rhs (x : RK.pyseq) (l : list E) (t dt : R) :
  (exists y,
     RK.EulerForward_solve_one_step self x t dt = Ok y /\
     length y = Nat.min (length (RK.items x))
                        (length (RK.f self t x (RK.u self t (RK.pars self)) (RK.pars self)))) /\
  ((length (RK.f self t (RK.PyList l) (RK.u self t (RK.pars self)) (RK.pars self))
    < length l)%nat ->
   RK.RK4_solve_one_step self (RK.PyList l) t dt = Raise IndexError).
Proof.
  split.
  - eexists. split; [reflexivity|]. unfold RK.xpyts.
    now rewrite length_map, length_combine.
  - intros Hlt. unfold RK.RK4_solve_one_step. cbn [RK.items].
    set (K1 := RK.f self t (RK.PyList l) (RK.u self t (RK.pars self)) (RK.pars self)) in *.
    apply (for_each_raises_index _ _ (length K1)).
    + intros i acc e.
      destruct (list_get l i) as [xi|e1] eqn:E1; cbn [bind];
        [|intros H; injection H as <-; now apply (list_get_raise l i)].
      match goal with |- context [list_get ?k i] =>
        destruct (list_get k i) eqn:E2; cbn [bind];
        [|intros H; injection H as <-; now apply (list_get_raise _ _ _ E2)] end.
      match goal with |- context [list_get ?k i] =>
        destruct (list_get k i) eqn:E3; cbn [bind];
        [|intros H; injection H as <-; now apply (list_get_raise _ _ _ E3)] end.
      match goal with |- context [list_get ?k i] =>
        destruct (list_get k i) eqn:E4; cbn [bind];
        [|intros H; injection H as <-; now apply (list_get_raise _ _ _ E4)] end.
      match goal with |- context [list_get ?k i] =>
        destruct (list_get k i) eqn:E5; cbn [bind];
        [|intros H; injection H as <-; now apply (list_get_raise _ _ _ E5)] end.
      discriminate.
    + intros acc.
      destruct (list_get l (length K1)) as [xi|e1] eqn:E1; cbn [bind].
      * rewrite list_get_out; [reflexivity|].
        unfold RK.xts. rewrite length_map. lia.
      * f_equal. now apply (list_get_raise l (length K1)).
    + apply in_seq. lia.
Qed.

End IntegratorMore.

Lemma solve_nonpositive_steps_witness :
  RK.RK4_solve (decay (-1)) (RK.PyList [1]) 0 1 = Raise IndexError /\
  exists msg, RK.EulerForward_solve (decay (-5)) (RK.PyList [1]) 0 1
              = Raise (ValueError msg).
Proof.
  split.
  - apply (solve_nonpositive_steps RK.RK4_solve_one_step (decay (-1)) [1] 0 1);
      simpl; lia.
  - apply (solve_nonpositive_steps RK.EulerForward_solve_one_step (decay (-5)) [1] 0 1);
      simpl; lia.
Defined.

Lemma short_rhs_witness :
  RK.RK4_solve_one_step
    (RK.init (U := unit) (P := unit) (fun _ _ _ _ => @nil R) None None None)
    (RK.PyList [1]) 0 1
  = Raise IndexError.
Proof.
  apply (short_rhs (RK.init (U := unit) (P := unit) (fun _ _ _ _ => @nil R) None None None)
                   (RK.PyList [1]) [1] 0 1).
  simpl. lia.
Defined.

Section IntegratorCompose.

Context {E : Type} {SE : StateElem E} {U P : Type}.
Variable self : @RK.RKIntegrator E U P.

Lemma spec_steps_length (step : list E -> R -> R -> list E) (n : nat)
      (x : list E) (fromT dt : R) :
  (forall y t h, length (step y t h) = length y) ->
  length (spec_steps step n x fromT dt) = length x.
Proof.
  intros H. induction n as [|n IH]; [reflexivity|].
  cbn [spec_steps]. now rewrite H.
Qed.

Lemma rk4_step_length (y : list E) (t h : R) :
  rhs_keeps_arity self -> length (spec_rk4_step self y t h) = length y.
Proof.
  intros Har. unfold spec_rk4_step.
  assert (HL : forall s z, length z = length y -> length (rhs self s z) = length y)
    by (intros s z Hz; unfold rhs; rewrite Har; exact Hz).
  assert (HA : forall c K, length K = length y -> length (ladd y (lscale c K)) = length y)
    by (intros c K HK; apply ladd_length; now rewrite lscale_length).
  set (K1 := rhs self t y).
  set (K2 := rhs self (t + h / 2) (ladd y (lscale (h / 2) K1))).
  set (K3 := rhs self (t + h / 2) (ladd y (lscale (h / 2) K2))).
  set (K4 := rhs self (t + h) (ladd y (lscale h K3))).
  assert (H1 : length K1 = length y) by (apply HL; reflexivity).
  assert (H2 : length K2 = length y) by (apply HL, HA, H1).
  assert (H3 : length K3 = length y) by (apply HL, HA, H2).
  assert (H4 : length K4 = length y) by (apply HL, HA, H3).
  assert (H12 : length (ladd K1 (lscale 2 K2)) = length y)
    by (rewrite ladd_length; [exact H1 | rewrite lscale_length; congruence]).
  assert (H123 : length (ladd (ladd K1 (lscale 2 K2)) (lscale 2 K3)) = length y)
    by (rewrite ladd_length; [exact H12 | rewrite lscale_length; congruence]).
  apply HA. rewrite ladd_length; [exact H123 | congruence].
Qed.

Lemma euler_step_length (y : list E) (t h : R) :
  rhs_keeps_arity self -> length (spec_euler_step self y t h) = length y.
Proof.
  intros Har. unfold spec_euler_step. apply ladd_length.
  rewrite lscale_length. unfold rhs. now rewrite Har.
Qed.

(** X21. With at least one step and a right-hand side that returns one
    derivative per element, [solve] returns a list with as many elements as
    the state it was given, for the Euler and for the RK4 integrator. *)
Theorem solve_keeps_arity (x : list E) (fromT toT : R) :
  (1 <= RK.nrOfTimeSteps self)%Z ->
  rhs_keeps_arity self ->
  exists y4 y1,
    RK.RK4_solve self (RK.PyList x) fromT toT = Ok (RK.PyList y4) /\
    RK.EulerForward_solve self (RK.PyList x) fromT toT = Ok (RK.PyList y1) /\
    length y4 = length x /\ length y1 = length x.
Proof.
  intros HN Har.
  exists (spec_solve self (spec_rk4_step self) x fromT toT),
         (spec_solve self (spec_euler_step self) x fromT toT).
  split; [|split; [|split]].
  - apply solve_threads; [exact HN|]. intros y t h. now apply rk4_step_spec.
  - apply solve_threads; [exact HN|]. intros y t h. apply euler_step_spec.
  - apply spec_steps_length. intros y t h. now apply rk4_step_length.
  - apply spec_steps_length. intros y t h. now apply euler_step_length.
Qed.

Lemma spec_steps_compose (step : list E -> R -> R -> list E) (n m : nat)
      (x : list E) (fromT dt : R) :
  spec_steps step (n + m) x fromT dt
  = spec_steps step m (spec_steps step n x fromT dt) (fromT + INR n * dt) dt.
Proof.
  induction m as [|m IH].
  - now rewrite Nat.add_0_r.
  - rewrite Nat.add_succ_r. cbn [spec_steps]. rewrite IH.
    f_equal. rewrite plus_INR. ring.
Qed.

Lemma solve_composes_generic
      (one_step : @RK.RKIntegrator E U P -> RK.pyseq -> R -> R -> result (list E))
      (step : list E -> R -> R -> list E) (x : list E) (a c : R) (n m : Z) :
  (1 <= n)%Z -> (1 <= m)%Z ->
  (forall k y t h,
     one_step (RK.set_number_of_time_steps k self) (RK.PyList y) t h = Ok (step y t h)) ->
  RK.solve one_step (RK.set_number_of_time_steps (n + m) self) (RK.PyList x) a c
  = (y <- RK.solve one_step (RK.set_number_of_time_steps n self) (RK.PyList x) a
                   (a + IZR n * ((c - a) / IZR (n + m))) ;;
     RK.solve one_step (RK.set_number_of_time_steps m self) y
              (a + IZR n * ((c - a) / IZR (n + m))) c).
Proof.
  intros Hn Hm Hstep.
  assert (Hnz : IZR n <> 0) by (apply not_0_IZR; lia).
  assert (Hmz : IZR m <> 0) by (apply not_0_IZR; lia).
  assert (Hnmz : IZR n + IZR m <> 0)
    by (rewrite <- plus_IZR; apply not_0_IZR; lia).
  rewrite (solve_threads _ one_step step) by (cbn; auto; lia).
  rewrite (solve_threads _ one_step step) by (cbn; auto; lia).
  cbn [bind].
  rewrite (solve_threads _ one_step step) by (cbn; auto; lia).
  unfold spec_solve. cbn [RK.nrOfTimeSteps RK.set_number_of_time_steps].
  do 2 f_equal.
  rewrite Z2Nat.inj_add by lia. rewrite spec_steps_compose.
  rewrite INR_IZR_INZ, Z2Nat.id by lia. rewrite plus_IZR.
  replace ((a + IZR n * ((c - a) / (IZR n + IZR m)) - a) / IZR n)
    with ((c - a) / (IZR n + IZR m)) by (field; auto).
  replace ((c - (a + IZR n * ((c - a) / (IZR n + IZR m)))) / IZR m)
    with ((c - a) / (IZR n + IZR m)) by (field; auto).
  reflexivity.
Qed.

(** X22. Integration composes: for a right-hand side that returns one
    derivative per element, integrating from [a] to [c] in [n + m] steps
    gives the state that integrating in [n] steps to the intermediate time
    [b = a + n*(c-a)/(n+m)] and then in [m] steps from [b] to [c] gives, for
    the RK4 and for the Euler integrator ([n] and [m] at least one). *)
Theorem solve_composes (x : list E) (a c : R) (n m : Z) :
  (1 <= n)%Z -> (1 <= m)%Z ->
  rhs_keeps_arity self ->
  RK.RK4_solve (RK.set_number_of_time_steps (n + m) self) (RK.PyList x) a c
  = (y <- RK.RK4_solve (RK.set_number_of_time_steps n self) (RK.PyList x) a
                       (a + IZR n * ((c - a) / IZR (n + m))) ;;
     RK.RK4_solve (RK.set_number_of_time_steps m self) y
                  (a + IZR n * ((c - a) / IZR (n + m))) c) /\
  RK.EulerForward_solve (RK.set_number_of_time_steps (n + m) self) (RK.PyList x) a c
  = (y <- RK.EulerForward_solve (RK.set_number_of_time_steps n self) (RK.PyList x) a
                                (a + IZR n * ((c - a) / IZR (n + m))) ;;
     RK.EulerForward_solve (RK.set_number_of_time_steps m self) y
                           (a + IZR n * ((c - a) / IZR (n + m))) c).
Proof.
  intros Hn Hm Har. split.
  - apply (solve_composes_generic RK.RK4_solve_one_step (spec_rk4_step self)); auto.
    intros k y t h.
    exact (rk4_step_spec (RK.set_number_of_time_steps k self) y t h Har).
  - apply (solve_composes_generic RK.EulerForward_solve_one_step (spec_euler_step self));
      auto.
    intros k y t h.
    exact (euler_step_spec (RK.set_number_of_time_steps k self) y t h).
Qed.

End IntegratorCompose.

Lemma solve_keeps_arity_witness :
  exists y4 y1,
    RK.RK4_solve (decay 2) (RK.PyList [1; 2]) 0 1 = Ok (RK.PyList y4) /\
    RK.EulerForward_solve (decay 2) (RK.PyList [1; 2]) 0 1 = Ok (RK.PyList y1) /\
    length y4 = length [1; 2] /\ length y1 = length [1; 2].
Proof.
  apply (solve_keeps_arity (decay 2) [1; 2] 0 1).
  - simpl. lia.
  - intros t y c p. simpl. apply length_map.
Defined.

Lemma solve_composes_witness :
  RK.RK4_solve (RK.set_number_of_time_steps (1 + 2) (decay 1)) (RK.PyList [1]) 0 1
  = (y <- RK.RK4_solve (RK.set_number_of_time_steps 1 (decay 1)) (RK.PyList [1]) 0
                       (0 + IZR 1 * ((1 - 0) / IZR (1 + 2))) ;;
     RK.RK4_solve (RK.set_number_of_time_steps 2 (decay 1)) y
                  (0 + IZR 1 * ((1 - 0) / IZR (1 + 2))) 1).
Proof.
  refine (proj1 (solve_composes (decay 1) [1] 0 1 1 2 _ _ _)).
  - lia.
  - lia.
  - intros t y c p. simpl. apply length_map.
Defined.

(** ** The linear equation *)

Lemma combine_map_self {A B C : Type} (g : A -> B) (h : A -> C) (x : list A) :
  combine (map g x) (map h x) = map (fun a => (g a, h a)) x.
Proof. induction x as [|a x IH]; simpl; [reflexivity|]. now rewrite IH. Qed.

Lemma ladd_map (g h : R -> R) (x : list R) :
  ladd (map g x) (map h x) = map (fun a => g a + h a) x.
Proof. unfold ladd. rewrite combine_map_self, map_map. reflexivity. Qed.

Lemma lscale_map (c : R) (g : R -> R) (x : list R) :
  lscale c (map g x) = map (fun a => g a * c) x.
Proof. unfold lscale. now rewrite map_map. Qed.

Lemma ladd_self_map (h : R -> R) (x : list R) :
  ladd x (map h x) = map (fun a => a + h a) x.
Proof.
  unfold ladd. rewrite <- (map_id x) at 1. rewrite combine_map_self, map_map.
  reflexivity.
Qed.

Lemma rhs_linear (lam : R) (N : Z) (t : R) (x : list R) :
  rhs (linear_ode lam N) t x = map (fun a => lam * a) x.
Proof. reflexivity. Qed.

Lemma rhs_linear_map (lam : R) (N : Z) (t : R) (g : R -> R) (x : list R) :
  rhs (linear_ode lam N) t (map g x) = map (fun a => lam * g a) x.
Proof. unfold rhs. cbn. now rewrite map_map. Qed.

Lemma map_ext_R (g h : R -> R) (x : list R) :
  (forall a, g a = h a) -> map g x = map h x.
Proof. intros H. apply map_ext. exact H. Qed.

Lemma linear_rk4_step (lam : R) (N : Z) (x : list R) (t dt : R) :
  spec_rk4_step (linear_ode lam N) x t dt
  = map (fun a => a * rk4_factor (lam * dt)) x.
Proof.
  unfold spec_rk4_step. cbv zeta.
  rewrite rhs_linear.
  rewrite lscale_map, ladd_self_map, rhs_linear_map.
  rewrite (lscale_map (dt / 2)), ladd_self_map, rhs_linear_map.
  rewrite (lscale_map dt), ladd_self_map, rhs_linear_map.
  rewrite !lscale_map, !ladd_map, lscale_map, ladd_self_map.
  apply map_ext_R. intros a. unfold rk4_factor. field.
Qed.

Lemma linear_euler_step (lam : R) (N : Z) (x : list R) (t dt : R) :
  spec_euler_step (linear_ode lam N) x t dt = map (fun a => a * (1 + lam * dt)) x.
Proof.
  unfold spec_euler_step.
  rewrite rhs_linear, lscale_map, ladd_self_map.
  apply map_ext_R. intros a. ring.
Qed.

Lemma spec_steps_factor (step : list R -> R -> R -> list R) (q : R) (n : nat)
      (x : list R) (fromT dt : R) :
  (forall y t, step y t dt = map (fun a => a * q) y) ->
  spec_steps step n x fromT dt = map (fun a => a * q ^ n) x.
Proof.
  intros H. induction n as [|n IH]; cbn [spec_steps].
  - rewrite <- (map_id x) at 1. apply map_ext_R. intros a. unfold id. simpl. ring.
  - rewrite H, IH, map_map. apply map_ext_R. intros a. simpl. ring.
Qed.

(** X23. On the linear equation [dx/dt = lam*x], integrated from [fromT] to
    [toT] in [N >= 1] steps of [dt = (toT - fromT)/N], the RK4 integrator
    multiplies every element of the state by
    [(1 + z + z^2/2 + z^3/6 + z^4/24)^N] with [z = lam*dt], the Taylor
    polynomial of degree four of the exponential, and the Euler integrator
    by [(1 + z)^N]. *)
Theorem linear_ode_solution (lam : R) (N : Z) (x : list R) (fromT toT : R) :
  (1 <= N)%Z ->
  let z := lam * ((toT - fromT) / IZR N) in
  RK.RK4_solve (linear_ode lam N) (RK.PyList x) fromT toT
  = Ok (RK.PyList (map (fun a => a * rk4_factor z ^ Z.to_nat N) x)) /\
  RK.EulerForward_solve (linear_ode lam N) (RK.PyList x) fromT toT
  = Ok (RK.PyList (map (fun a => a * (1 + z) ^ Z.to_nat N) x)).
Proof.
  intros HN z.
  assert (Har : rhs_keeps_arity (linear_ode lam N))
    by (intros t y c p; simpl; apply length_map).
  split.
  - unfold RK.RK4_solve.
    rewrite (solve_threads _ RK.RK4_solve_one_step (spec_rk4_step (linear_ode lam N)))
      by (auto; intros y t h; now apply rk4_step_spec).
    do 2 f_equal. unfold spec_solve. cbn [RK.nrOfTimeSteps linear_ode RK.init].
    apply spec_steps_factor. intros y t. apply linear_rk4_step.
  - unfold RK.EulerForward_solve.
    rewrite (solve_threads _ RK.EulerForward_solve_one_step
                           (spec_euler_step (linear_ode lam N)))
      by (auto; intros y t h; apply euler_step_spec).
    do 2 f_equal. unfold spec_solve. cbn [RK.nrOfTimeSteps linear_ode RK.init].
    apply spec_steps_factor. intros y t. apply linear_euler_step.
Qed.

Lemma linear_ode_solution_witness :
  RK.RK4_solve (linear_ode (-1) 2) (RK.PyList [1]) 0 1
  = Ok (RK.PyList (map (fun a => a * rk4_factor (-1 * ((1 - 0) / IZR 2)) ^ Z.to_nat 2)
                       [1])).
Proof.
  destruct (linear_ode_solution (-1) 2 [1] 0 1) as (H & _).
  - lia.
  - exact H.
Defined.

(** * Linear extrapolation on ramps *)

Lemma affine_step (ax : nat) (I : ndarray) (s : R) (i : index) (k : nat) :
  affine_along ax I s -> (ax < length i)%nat ->
  data I (axis_set ax k i) = data I i + s * (INR k - INR (axis_get ax i)).
Proof.
  intros H Hax. rewrite (H i k Hax).
  rewrite <- (axis_set_same ax i) at 2.
  rewrite (H i (axis_get ax i) Hax). ring.
Qed.

(** X24. Under the linear-extrapolation policy the first differences are
    exact on ramps: if a field changes by [s] from each cell to the next
    along an axis with at least two cells, then its forward, backward and
    central differences along that axis are [s / h] at every index of the
    grid, the boundary included, and its second central difference is
    zero. *)
Theorem extrapolation_exact_on_ramps
        (sp : list R) (fd : FD.FD) (a : axis) (I : ndarray) (s : R) :
  FD.init sp false = Ok fd ->
  Forall (fun h => 0 < h) sp ->
  ndim I = FD.dim fd ->
  (axis_index a < ndim I)%nat ->
  (2 <= axis_len (axis_index a) I)%nat ->
  affine_along (axis_index a) I s ->
  exists b f cd cc h,
    diff_b fd a I = Ok b /\ diff_f fd a I = Ok f /\
    diff_c fd a I = Ok cd /\ diff_cc fd a I = Ok cc /\
    FD.spacing_at fd (axis_index a) = Ok h /\
    forall i, in_range (shape I) i ->
              data b i = s / h /\ data f i = s / h /\ data cd i = s / h /\
              data cc i = 0.
Proof.
  intros Hinit Hpos Hdim Hax Hn Haff.
  destruct (init_inv _ _ _ Hinit) as (Hsp & Hd & Hbc & Hlen).
  assert (Hedge : edge_ok fd (axis_index a) I) by (unfold edge_ok; now rewrite Hbc).
  assert (Hdim3 : (axis_index a < ndim I <= 3)%nat) by lia.
  destruct (shift_p_unfold fd a I Hdim3) as [Hp Hm].
  destruct (shift_plus_ok fd (axis_index a) I Hedge) as [pI [EpI _]].
  destruct (shift_minus_ok fd (axis_index a) I Hedge) as [mI [EmI _]].
  destruct (spacing_at_positive fd (axis_index a)) as [h [Eh Hh]].
  { now rewrite Hsp. }
  { rewrite Hsp. lia. }
  destruct (diff_unfold fd a) as (-> & -> & ->). rewrite diff_cc_unfold.
  unfold FD.central, FD.second_central, FD.forward, FD.backward.
  rewrite Hp, Hm, EpI, EmI. simpl. rewrite Eh. simpl.
  do 5 eexists. do 5 (split; [reflexivity|]).
  intros i Hi.
  pose proof (in_range_length _ _ Hi) as Hl.
  assert (Hli : (axis_index a < length i)%nat) by (unfold ndim in Hdim3; lia).
  assert (Hj : (axis_get (axis_index a) i < axis_len (axis_index a) I)%nat)
    by (apply in_range_axis; [exact Hi | unfold ndim in Hdim3; lia]).
  assert (HP : data pI i = data I i + s).
  { rewrite (shift_plus_data fd _ I pI i EpI Hli). unfold plus_val. rewrite Hbc.
    destruct (Nat.eqb_spec (axis_get (axis_index a) i) (axis_len (axis_index a) I - 1))
      as [E|E].
    - rewrite (affine_step _ I s i _ Haff Hli). rewrite E.
      rewrite !minus_INR by lia. simpl. ring.
    - destruct (Nat.ltb_spec (axis_get (axis_index a) i) (axis_len (axis_index a) I - 1));
        [|lia].
      rewrite (affine_step _ I s i _ Haff Hli). rewrite S_INR. ring. }
  assert (HM : data mI i = data I i - s).
  { rewrite (shift_minus_data fd _ I mI i EmI Hli). unfold minus_val. rewrite Hbc.
    destruct (Nat.eqb_spec (axis_get (axis_index a) i) 0) as [E|E].
    - rewrite (affine_step _ I s i _ Haff Hli). rewrite E. simpl. ring.
    - destruct (Nat.ltb_spec (axis_get (axis_index a) i) (axis_len (axis_index a) I));
        [|lia].
      rewrite (affine_step _ I s i _ Haff Hli). rewrite minus_INR by lia. simpl. ring. }
  simpl. rewrite HP, HM. repeat split; field; lra.
Qed.

Lemma extrapolation_exact_on_ramps_witness :
  exists b f cd cc h,
    diff_b (FD.mkFD 2 [1; 2] false) AxisY ramp23 = Ok b /\
    diff_f (FD.mkFD 2 [1; 2] false) AxisY ramp23 = Ok f /\
    diff_c (FD.mkFD 2 [1; 2] false) AxisY ramp23 = Ok cd /\
    diff_cc (FD.mkFD 2 [1; 2] false) AxisY ramp23 = Ok cc /\
    FD.spacing_at (FD.mkFD 2 [1; 2] false) (axis_index AxisY) = Ok h /\
    forall i, in_range (shape ramp23) i ->
              data b i = 1 / h /\ data f i = 1 / h /\ data cd i = 1 / h /\
              data cc i = 0.
Proof.
  apply (extrapolation_exact_on_ramps [1; 2] (FD.mkFD 2 [1; 2] false) AxisY ramp23 1).
  - reflexivity.
  - repeat constructor; lra.
  - reflexivity.
  - unfold ndim, ramp23; simpl; lia.
  - unfold axis_len, ramp23; simpl; lia.
  - intros i k Hi. unfold ramp23. cbn [data axis_index].
    destruct i as [|i0 [|i1 i]]; simpl in Hi; try lia. simpl. ring.
Defined.
